(** * motif_dashboard: the dashboards' data pipeline, embedded and verified

    The development follows the repository file by file:
    - [App]            : [app.py], the correlation-network dashboard
                         (row filter, graph builder, layout call, renderer);
    - [AppPrevious]    : [app_previous.py], CSV loader and [filter_data];
    - [SidebarFilters] : [utils/sidebar_filters.py], [filter_dataframe];
    - [Swarmplot]      : [utils/swarmplot.py], [plot_swarmplot];
    - [AppChart]       : readings of the chart and of the table of [app.py];
    - [NaturalSort]    : [app_previous.py], [natural_sort_chromosomes];
    - [ChromosomeChart]: [app_previous.py], [create_chromosome_chart];
    - [AppBigDataframe]: [app_big_dataframe.py], the stored table of a
                         session and its plot.

    Python floats are IEEE binary64 values, modelled by [spec_float]
    (comparisons with NaN are false, as in Python and pandas).  Python
    dictionaries keep insertion order and are modelled by association lists
    whose keys are updated in place ([odict]).  Code that can raise returns
    [option]; [None] stands for the raised exception. *)

From Stdlib Require Import ZArith Ascii Sorted.
From Stdlib Require Import Floats.SpecFloat.
From stdpp Require Import base list strings pretty.

#[local] Set Warnings "-clear-no-such-hyp".
Local Open Scope string_scope.
Local Open Scope list_scope.
Local Open Scope nat_scope.

(** ** Python values shared by the modules *)

Module Py.

Abbreviation float := spec_float.

(** binary64 *)
Definition prec : Z := 53.
Definition emax : Z := 1024.

(** The float [0.0], and an integer literal used where a float is expected. *)
Definition f0 : float := S754_zero false.
Definition float_of_int (z : Z) : float := binary_normalize prec emax z 0 false.

(** [x > y] and [x < y] on floats. *)
Definition fgt (x y : float) : bool := SFltb y x.
Definition flt (x y : float) : bool := SFltb x y.

Definition is_finite (x : float) : bool :=
  match x with
  | S754_zero _ | S754_finite _ _ _ => true
  | _ => false
  end.

(** Insertion-ordered dictionary with string keys. *)
Definition odict (V : Type) : Type := list (string * V).

Fixpoint od_get {V} (d : odict V) (k : string) : option V :=
  match d with
  | [] => None
  | (k', v) :: d' => if decide (k' = k) then Some v else od_get d' k
  end.

(** [d[k] = v]: replaces the value of an existing key in place, appends a
    new key at the end. *)
Fixpoint od_set {V} (d : odict V) (k : string) (v : V) : odict V :=
  match d with
  | [] => [(k, v)]
  | (k', v') :: d' =>
      if decide (k' = k) then (k, v) :: d' else (k', v') :: od_set d' k v
  end.

Definition od_keys {V} (d : odict V) : list string := d.*1.

Definition od_mem {V} (d : odict V) (k : string) : bool :=
  match od_get d k with Some _ => true | None => false end.

(** Decimal digit of a number below ten. *)
Definition digit (n : Z) : string := pretty (n mod 10)%Z.

(** [round(m * 2^e * 100)] to the nearest integer, ties to even: the exact
    decimal rounding that [format(x, '.2f')] performs on the binary value. *)
Definition round_half_even (num den : Z) : Z :=
  let q := (num / den)%Z in
  let r := (num mod den)%Z in
  if (2 * r <? den)%Z then q
  else if (den <? 2 * r)%Z then (q + 1)%Z
  else if Z.even q then q else (q + 1)%Z.

Definition hundredths (m : positive) (e : Z) : Z :=
  if (0 <=? e)%Z then (Z.pos m * 2 ^ e * 100)%Z
  else round_half_even (Z.pos m * 100) (2 ^ (- e)).

Definition fixed2 (neg : bool) (n : Z) : string :=
  (if neg then "-" else "") +:+ pretty (n / 100)%Z +:+ "."
    +:+ digit (n / 10) +:+ digit n.

(** [f'{x:.2f}'] *)
Definition format_2f (x : float) : string :=
  match x with
  | S754_nan => "nan"
  | S754_infinity s => if s then "-inf" else "inf"
  | S754_zero s => fixed2 s 0
  | S754_finite s m e => fixed2 s (hundredths m e)
  end.

End Py.

(** ** app.py *)

Module App.
Import Py.

(** One row of the correlation table: the columns the script reads.  The
    two identifiers and the category are text, the coefficient is a float. *)
Record Row := {
  KRAB_ZNF : string;
  Gene : string;
  coef : float;
  exp : string
}.

Abbreviation DataFrame := (list Row).

(** *** Row filter (lines 26-33) *)

Definition coef_positive (r : Row) : Prop := fgt (coef r) f0 = true.
Definition coef_negative (r : Row) : Prop := flt (coef r) f0 = true.
Definition exp_is (e : string) (r : Row) : Prop := exp r = e.

#[global] Instance coef_positive_dec r : Decision (coef_positive r).
Proof. unfold coef_positive. apply _. Defined.
#[global] Instance coef_negative_dec r : Decision (coef_negative r).
Proof. unfold coef_negative. apply _. Defined.
#[global] Instance exp_is_dec e r : Decision (exp_is e r).
Proof. unfold exp_is. apply _. Defined.
#[global] Typeclasses Opaque coef_positive coef_negative exp_is.

Definition apply_filters (coef_direction exp_filter : string) (df : DataFrame)
  : DataFrame :=
  let df :=
    if decide (coef_direction = "positive") then filter coef_positive df
    else if decide (coef_direction = "negative") then filter coef_negative df
    else df in
  if decide (exp_filter ≠ "both") then filter (exp_is exp_filter) df else df.

(** The options of the two select boxes. *)
Definition coef_direction_options : list string := ["both"; "positive"; "negative"].
Definition exp_filter_options : list string := ["both"; "up-regulated"; "down-regulated"].

(** *** networkx [Graph], as far as the script uses it

    [nx.Graph] keeps two insertion-ordered dictionaries, the nodes with
    their attributes and the adjacency; [add_node] and [add_edge] create
    what is missing and update the attributes of what exists. *)

(** Node attribute dictionary: the keys ['type'] and ['exp']. *)
Record NodeAttrs := {
  attr_type : option string;
  attr_exp : option string
}.

Definition no_attrs : NodeAttrs := {| attr_type := None; attr_exp := None |}.

(** [attr_dict.update(type=ty)] and [attr_dict.update(type=ty, exp=e)]. *)
Definition update_attrs (ty : string) (ex : option string) (a : NodeAttrs)
  : NodeAttrs :=
  {| attr_type := Some ty;
     attr_exp := match ex with Some e => Some e | None => attr_exp a end |}.

(** [_node]: node -> attributes; [_adj]: node -> neighbour -> edge weight
    (the edge data dictionary only ever holds the key ['weight']). *)
Record Graph := {
  g_node : odict NodeAttrs;
  g_adj : odict (odict float)
}.

Definition empty_graph : Graph := {| g_node := []; g_adj := [] |}.

Definition add_node (G : Graph) (n : string) (ty : string) (ex : option string)
  : Graph :=
  match od_get (g_node G) n with
  | None =>
      {| g_node := od_set (g_node G) n (update_attrs ty ex no_attrs);
         g_adj := od_set (g_adj G) n [] |}
  | Some a =>
      {| g_node := od_set (g_node G) n (update_attrs ty ex a);
         g_adj := g_adj G |}
  end.

(** The implicit node creation of [add_edge]: no attributes. *)
Definition touch_node (G : Graph) (n : string) : Graph :=
  if od_mem (g_node G) n then G
  else {| g_node := od_set (g_node G) n no_attrs;
          g_adj := od_set (g_adj G) n [] |}.

Definition nbrs (G : Graph) (n : string) : odict float :=
  match od_get (g_adj G) n with Some d => d | None => [] end.

Definition set_adj (G : Graph) (u v : string) (w : float) : Graph :=
  {| g_node := g_node G;
     g_adj := od_set (g_adj G) u (od_set (nbrs G u) v w) |}.

Definition add_edge (G : Graph) (u v : string) (w : float) : Graph :=
  let G := touch_node G u in
  let G := touch_node G v in
  let G := set_adj G u v w in
  set_adj G v u w.

(** [G.nodes()] *)
Definition nodes (G : Graph) : list string := od_keys (g_node G).

(** [G.edges(data=True)]: every node in order, each neighbour not already
    visited as a source. *)
Fixpoint edges_from (adj : odict (odict float)) (seen : list string)
  : list (string * string * float) :=
  match adj with
  | [] => []
  | (n, ns) :: adj' =>
      ((λ '(nbr, w), (n, nbr, w)) <$> filter (λ p, p.1 ∉ seen) ns)
        ++ edges_from adj' (n :: seen)
  end.

Definition edges (G : Graph) : list (string * string * float) :=
  edges_from (g_adj G) [].

(** [G.nodes[n]['type']] and [G.nodes[n].get('exp')] *)
Definition node_type (G : Graph) (n : string) : option string :=
  a ← od_get (g_node G) n; attr_type a.

Definition edge_weight (G : Graph) (u v : string) : option float :=
  d ← od_get (g_adj G) u; od_get d v.

(** *** Graph builder (lines 36-46) *)

Definition add_row (G : Graph) (row : Row) : Graph :=
  let gene := KRAB_ZNF row in
  let te := Gene row in
  let G := add_node G gene "gene" None in
  let G := add_node G te "te" (Some (exp row)) in
  add_edge G gene te (coef row).

Definition build_graph (df : DataFrame) : Graph := foldl add_row empty_graph df.

(** *** Layout (lines 48-57) *)

Definition build_pos_weight (G : Graph) : Graph :=
  foldl (λ Gp '(u, v, w), add_edge Gp u v (SFabs w)) empty_graph (edges G).

Abbreviation PosMap := (odict (float * float)).

Section Layout.
(** The two networkx layout functions, taken as parameters: the graph (and
    the seed) to the position map, [None] being a raised exception. *)
Variable kamada_kawai_layout : Graph → option PosMap.
Variable spring_layout : Graph → Z → option PosMap.

(** [try: pos = kamada_kawai_layout(G) except: pos = spring_layout(G, seed=42)] *)
Definition compute_pos (G_pos_weight : Graph) : option PosMap :=
  match kamada_kawai_layout G_pos_weight with
  | Some pos => Some pos
  | None => spring_layout G_pos_weight 42
  end.
End Layout.

(** *** Renderer (lines 59-116) *)

Definition custom_red : string := "#C41E3A".
Definition custom_blue : string := "#5073F8".

Record Line := { line_width : Z; line_color : string }.

Record Marker := {
  marker_size : Z;
  marker_color : list string;
  marker_line_width : Z;
  marker_line_color : list string
}.

Inductive Text := TextOne (s : string) | TextMany (l : list string).

(** [go.Scatter]; [None] in a coordinate list is Python's [None]. *)
Record Scatter := {
  sc_x : list (option float);
  sc_y : list (option float);
  sc_mode : string;
  sc_line : option Line;
  sc_marker : option Marker;
  sc_text : Text
}.

Definition edge_label (u v : string) (w : float) : string :=
  u +:+ " ↔ " +:+ v +:+ "<br>coef=" +:+ format_2f w.

Definition edge_scatter (pos : PosMap) (e : string * string * float)
  : option Scatter :=
  let '(u, v, w) := e in
  let color := if fgt w f0 then custom_red else custom_blue in
  '(x0, y0) ← od_get pos u;
  '(x1, y1) ← od_get pos v;
  Some {| sc_x := [Some x0; Some x1; None];
          sc_y := [Some y0; Some y1; None];
          sc_mode := "lines";
          sc_line := Some {| line_width := 2; line_color := color |};
          sc_marker := None;
          sc_text := TextOne (edge_label u v w) |}.

Definition edge_trace (G : Graph) (pos : PosMap) : option (list Scatter) :=
  mapM (edge_scatter pos) (edges G).

(** What one iteration of the node loop appends to the five lists. *)
Record NodePoint := {
  np_x : float;
  np_y : float;
  np_text : string;
  np_color : string;
  np_border : string
}.

Definition border_color (a : NodeAttrs) : string :=
  let exp := match attr_exp a with Some e => e | None => "up" end in
  if decide (exp = "up-regulated") then custom_red else custom_blue.

Definition node_point (G : Graph) (pos : PosMap) (node : string)
  : option NodePoint :=
  '(x, y) ← od_get pos node;
  a ← od_get (g_node G) node;
  ty ← attr_type a;
  Some (if decide (ty = "gene")
        then {| np_x := x; np_y := y; np_text := node;
                np_color := "orange"; np_border := "black" |}
        else {| np_x := x; np_y := y; np_text := node;
                np_color := "lightgreen"; np_border := border_color a |}).

Definition node_points (G : Graph) (pos : PosMap) : option (list NodePoint) :=
  mapM (node_point G pos) (nodes G).

Definition node_trace (pts : list NodePoint) : Scatter :=
  {| sc_x := (λ p, Some (np_x p)) <$> pts;
     sc_y := (λ p, Some (np_y p)) <$> pts;
     sc_mode := "markers+text";
     sc_line := None;
     sc_marker := Some {| marker_size := 15;
                          marker_color := np_color <$> pts;
                          marker_line_width := 3;
                          marker_line_color := np_border <$> pts |};
     sc_text := TextMany (np_text <$> pts) |}.

(** [go.Figure(data=edge_trace + [node_trace])] *)
Record Figure := { fig_data : list Scatter }.

Definition render (G : Graph) (pos : PosMap) : option Figure :=
  et ← edge_trace G pos;
  pts ← node_points G pos;
  Some {| fig_data := et ++ [node_trace pts] |}.

(** Line-segment primitives and markers of a figure. *)
Definition is_line_trace (s : Scatter) : bool := String.eqb (sc_mode s) "lines".

Definition line_primitives (f : Figure) : list Scatter :=
  List.filter is_line_trace (fig_data f).

Definition marker_count (f : Figure) : nat :=
  sum_list ((λ s, if is_line_trace s then 0 else length (sc_x s)) <$> fig_data f).

(** The whole script from the filtered table to the chart. *)
Section Pipeline.
Variable kamada_kawai_layout : Graph → option PosMap.
Variable spring_layout : Graph → Z → option PosMap.

Definition chart (df : DataFrame) : option Figure :=
  let G := build_graph df in
  pos ← compute_pos kamada_kawai_layout spring_layout (build_pos_weight G);
  render G pos.
End Pipeline.

(** *** Vocabulary of the statements about [app.py] *)

(** The two predicates of the row filter, as the contract words them. *)
Definition sign_pred (sign : string) (r : Row) : Prop :=
  (sign = "positive" → fgt (coef r) f0 = true) ∧
  (sign = "negative" → flt (coef r) f0 = true).

Definition category_pred (category : string) (r : Row) : Prop :=
  category ≠ "both" → exp r = category.

#[global] Instance sign_pred_dec sign r : Decision (sign_pred sign r).
Proof. unfold sign_pred. apply _. Defined.
#[global] Instance category_pred_dec category r : Decision (category_pred category r).
Proof. unfold category_pred. apply _. Defined.
#[global] Typeclasses Opaque sign_pred category_pred.

(** [coef == 0] *)
Definition coef_zero (r : Row) : Prop := SFeqb (coef r) f0 = true.

(** Gene identities and TE identities of a record set, with repetitions. *)
Definition genes (df : DataFrame) : list string := KRAB_ZNF <$> df.
Definition tes (df : DataFrame) : list string := Gene <$> df.

(** Number of distinct identities in a list. *)
Definition distinct (l : list string) : nat := length (remove_dups l).

(** No identifier is used both as a gene symbol and as a TE symbol. *)
Definition disjoint_roles (df : DataFrame) : Prop :=
  ∀ n, n ∈ genes df → n ∉ tes df.

#[global] Instance disjoint_roles_dec df : Decision (disjoint_roles df).
Proof.
  refine (cast_if (decide (Forall (λ n, n ∉ tes df) (genes df))));
    unfold disjoint_roles; rewrite Forall_forall in *; done.
Defined.

(** The record connects the identifiers [u] and [v] (in either role). *)
Definition links (r : Row) (u v : string) : Prop :=
  (KRAB_ZNF r = u ∧ Gene r = v) ∨ (KRAB_ZNF r = v ∧ Gene r = u).

#[global] Instance links_dec r u v : Decision (links r u v).
Proof. unfold links. apply _. Defined.
#[global] Typeclasses Opaque links disjoint_roles.

(** No two entries of an edge list join the same two nodes. *)
Definition simple_edges (es : list (string * string * float)) : Prop :=
  NoDup (es.*1) ∧
  ∀ u v w w', (u, v, w) ∈ es → (v, u, w') ∈ es → u = v.

(** Representation invariant of the graph dictionaries. *)
Record wf_graph (G : Graph) : Prop := {
  wf_keys : od_keys (g_adj G) = od_keys (g_node G);
  wf_nodup : NoDup (od_keys (g_node G));
  wf_nbrs_nodup : ∀ u, NoDup (od_keys (nbrs G u));
  wf_sym : ∀ u v, od_get (nbrs G u) v = od_get (nbrs G v) u
}.

(** The border colours of the node trace, one per node. *)
Definition node_border_colors (f : Figure) : list string :=
  match last (fig_data f) with
  | Some s => match sc_marker s with
              | Some m => marker_line_color m
              | None => []
              end
  | None => []
  end.

(** The position map has an entry for every node of [G]. *)
Definition covers (pos : PosMap) (G : Graph) : Prop :=
  ∀ n, n ∈ nodes G → is_Some (od_get pos n).

(** Contract of a networkx layout function: when it returns, it returns
    positions for exactly the nodes of the graph it was given. *)
Definition positions_nodes (layout : Graph → option PosMap) : Prop :=
  ∀ g pos, layout g = Some pos → ∀ n, n ∈ od_keys pos ↔ n ∈ nodes g.

(** [spring_layout] returns at once, without any computation, on a graph
    with no node or a single node. *)
Definition handles_small (spring_layout : Graph → Z → option PosMap) : Prop :=
  ∀ g seed, (length (nodes g) ≤ 1)%nat → is_Some (spring_layout g seed).

(** [n] is the integer nearest to [100 * |x|]. *)
Definition nearest_hundredth (x : float) (n : Z) : Prop :=
  match x with
  | S754_zero _ => n = 0%Z
  | S754_finite _ m e =>
      if (0 <=? e)%Z then n = (100 * Z.pos m * 2 ^ e)%Z
      else (2 * Z.abs (100 * Z.pos m - n * 2 ^ (- e)) ≤ 2 ^ (- e))%Z
  | _ => False
  end.

(** [s] writes [n] hundredths: an optional sign, an integer part, a point and
    exactly two decimal digits. *)
Definition two_decimals (s : string) (n : Z) : Prop :=
  ∃ (neg : bool) (ip d1 d2 : Z),
    (0 ≤ ip)%Z ∧ (0 ≤ d1 ≤ 9)%Z ∧ (0 ≤ d2 ≤ 9)%Z
    ∧ s = (if neg then "-" else "") +:+ pretty ip +:+ "."
            +:+ pretty d1 +:+ pretty d2
    ∧ String.length (pretty d1) = 1 ∧ String.length (pretty d2) = 1
    ∧ n = (100 * ip + 10 * d1 + d2)%Z.

(** The character occurs in the string. *)
Fixpoint has_char (c : Ascii.ascii) (s : string) : bool :=
  match s with
  | EmptyString => false
  | String c' s' => if decide (c' = c) then true else has_char c s'
  end.

(** What the renderer draws for one edge. *)
Definition edge_drawn (pos : PosMap) (e : string * string * float) (s : Scatter)
  : Prop :=
  let '(u, v, w) := e in
  ∃ x0 y0 x1 y1,
    od_get pos u = Some (x0, y0) ∧ od_get pos v = Some (x1, y1)
    ∧ sc_x s = [Some x0; Some x1; None] ∧ sc_y s = [Some y0; Some y1; None]
    ∧ sc_mode s = "lines"
    ∧ (fgt w f0 = true → sc_line s = Some {| line_width := 2; line_color := custom_red |})
    ∧ (flt w f0 = true → sc_line s = Some {| line_width := 2; line_color := custom_blue |})
    ∧ sc_text s = TextOne (u +:+ " ↔ " +:+ v +:+ "<br>coef=" +:+ format_2f w).

(** A layout that always fails and one that puts every node at the origin,
    to run the pipeline on examples. *)
Definition layout_fails : Graph → option PosMap := λ _, None.
Definition layout_origin : Graph → Z → option PosMap :=
  λ g _, Some ((λ n, (n, (f0, f0))) <$> nodes g).

(** *** Sample records *)

Definition f_0_8 : float :=
  Eval vm_compute in SFdiv prec emax (float_of_int 8) (float_of_int 10).
Definition f_0_5 : float :=
  Eval vm_compute in SFdiv prec emax (float_of_int 1) (float_of_int 2).
Definition f_m0_3 : float :=
  Eval vm_compute in SFdiv prec emax (float_of_int (-3)) (float_of_int 10).

Definition row_up : Row :=
  {| KRAB_ZNF := "TF1"; Gene := "L1PA2"; coef := f_0_8; exp := "up-regulated" |}.
Definition row_down : Row :=
  {| KRAB_ZNF := "TF1"; Gene := "AluSx"; coef := f_m0_3; exp := "down-regulated" |}.
(** The pair of [row_up] again, with another coefficient. *)
Definition row_dup : Row :=
  {| KRAB_ZNF := "TF1"; Gene := "L1PA2"; coef := f_0_5; exp := "up-regulated" |}.
Definition row_zero : Row :=
  {| KRAB_ZNF := "TF2"; Gene := "MER41"; coef := f0; exp := "up-regulated" |}.
(** [L1PA2], a TE of [row_up], in the gene column. *)
Definition row_swap : Row :=
  {| KRAB_ZNF := "L1PA2"; Gene := "HERVK"; coef := f_0_5; exp := "up-regulated" |}.
(** The same identifier in both columns: a graph with a single node. *)
Definition row_self : Row :=
  {| KRAB_ZNF := "ZNF91"; Gene := "ZNF91"; coef := f_0_5; exp := "up-regulated" |}.
(** An empty [coef] cell is read as NaN. *)
Definition row_nan : Row :=
  {| KRAB_ZNF := "TF1"; Gene := "L1PA2"; coef := S754_nan; exp := "up-regulated" |}.
(** A category outside the two expected ones. *)
Definition row_other : Row :=
  {| KRAB_ZNF := "TF1"; Gene := "L1PA2"; coef := f_0_8; exp := "unchanged" |}.

End App.

(** ** pandas values shared by the tabular dashboards *)

Module Pandas.
Import Py.

(** A number is an [int64] or a [float64]; a cell of an object column is a
    string or a number.  A missing value is the float NaN. *)
Inductive num := NInt (z : Z) | NFloat (x : float).
Inductive cell := CStr (s : string) | CNum (v : num).

Definition nan : cell := CNum (NFloat S754_nan).

(** numpy promotes [int64] to [float64] when the two meet. *)
Definition to_float (v : num) : float :=
  match v with NInt z => float_of_int z | NFloat x => x end.

Definition num_eqb (a b : num) : bool :=
  match a, b with
  | NInt x, NInt y => (x =? y)%Z
  | _, _ => SFeqb (to_float a) (to_float b)
  end.

Definition num_leb (a b : num) : bool :=
  match a, b with
  | NInt x, NInt y => (x <=? y)%Z
  | _, _ => SFleb (to_float a) (to_float b)
  end.

Definition num_ltb (a b : num) : bool :=
  match a, b with
  | NInt x, NInt y => (x <? y)%Z
  | _, _ => SFltb (to_float a) (to_float b)
  end.

(** [a == b], elementwise: a string never equals a number. *)
Definition cell_eqb (a b : cell) : bool :=
  match a, b with
  | CStr s, CStr t => bool_decide (s = t)
  | CNum x, CNum y => num_eqb x y
  | _, _ => false
  end.

(** [a <= b] and [a >= b]; ordering a string against a number raises
    [TypeError]. *)
Definition cell_leb (a b : cell) : option bool :=
  match a, b with
  | CStr s, CStr t => Some (String.leb s t)
  | CNum x, CNum y => Some (num_leb x y)
  | _, _ => None
  end.

Definition cell_geb (a b : cell) : option bool :=
  match a, b with
  | CStr s, CStr t => Some (String.leb t s)
  | CNum x, CNum y => Some (num_leb y x)
  | _, _ => None
  end.

Definition cell_gtb (a b : cell) : option bool :=
  match a, b with
  | CStr s, CStr t => Some (String.ltb t s)
  | CNum x, CNum y => Some (num_ltb y x)
  | _, _ => None
  end.

(** [bool(v)] *)
Definition truthy (v : cell) : bool :=
  match v with
  | CStr s => negb (bool_decide (s = ""))
  | CNum (NInt z) => negb (z =? 0)%Z
  | CNum (NFloat x) => negb (SFeqb x f0)
  end.

Definition is_nan (v : cell) : bool :=
  match v with CNum (NFloat S754_nan) => true | _ => false end.

(** [Series.isin(values)]: equality, with NaN matching NaN. *)
Definition cell_isin (a : cell) (values : list cell) : bool :=
  existsb (λ v, cell_eqb a v || (is_nan a && is_nan v)) values.

(** A table: the column labels and the rows, each row a dictionary from
    column label to cell.  In a frame read by pandas every row has a cell
    for every column. *)
Record DataFrame := {
  columns : list string;
  rows : list (odict cell)
}.

Definition empty_frame : DataFrame := {| columns := []; rows := [] |}.

Definition row_get (r : odict cell) (c : string) : cell :=
  default nan (od_get r c).

(** [df[c] = v] with a scalar [v]. *)
Definition set_column (df : DataFrame) (c : string) (v : cell) : DataFrame :=
  {| columns := if decide (c ∈ columns df) then columns df
                else columns df ++ [c];
     rows := (λ r, od_set r c v) <$> rows df |}.

(** [df[c] = f(df[c])] for an elementwise [f]; [KeyError] without column. *)
Definition map_column (f : cell → option cell) (df : DataFrame) (c : string)
  : option DataFrame :=
  if decide (c ∈ columns df) then
    rs ← mapM (λ r, v ← f (row_get r c); Some (od_set r c v)) (rows df);
    Some {| columns := columns df; rows := rs |}
  else None.

(** [df[mask]] for a mask computed row by row. *)
Definition select (P : odict cell → Prop) `{!∀ r, Decision (P r)}
    (df : DataFrame) : DataFrame :=
  {| columns := columns df; rows := filter P (rows df) |}.

(** [df[cmp(df[c], v)]] where the comparison can raise. *)
Definition select_cmp (cmp : cell → cell → option bool) (df : DataFrame)
    (c : string) (v : cell) : option DataFrame :=
  if decide (c ∈ columns df) then
    _ ← mapM (λ r, cmp (row_get r c) v) (rows df);
    Some (select (λ r, cmp (row_get r c) v = Some true) df)
  else None.

End Pandas.

(** ** app_previous.py *)

Module AppPrevious.
Import Py Pandas.

(** *** [load_csv_data], lines 81-96: the frame after the column labels
    were stripped and renamed *)

Definition required_columns : list string :=
  ["chr"; "start"; "end"; "motif"; "strand"; "pvalue"; "tefamily"; "class";
   "length"; "gene"; "species"].

Definition int_columns : list string := ["start"; "end"; "length"].
Definition numeric_columns : list string := ["start"; "end"; "pvalue"; "length"].

Definition int64_min : Z := (- 2 ^ 63)%Z.
Definition int64_max : Z := (2 ^ 63 - 1)%Z.

(** Truncation of a finite float towards zero. *)
Definition trunc (x : float) : option Z :=
  match x with
  | S754_zero _ => Some 0%Z
  | S754_finite s m e =>
      let a := if (0 <=? e)%Z then (Z.pos m * 2 ^ e)%Z
               else (Z.pos m / 2 ^ (- e))%Z in
      Some (if s then (- a)%Z else a)
  | _ => None
  end.

(** [Series.astype(int)]: raises on NaN and on the infinities; a float out
    of the [int64] range is cast to the smallest [int64]. *)
Definition astype_int (v : num) : option Z :=
  match v with
  | NInt z => Some z
  | NFloat x =>
      z ← trunc x;
      Some (if (int64_min <=? z)%Z && (z <=? int64_max)%Z then z else int64_min)
  end.

(** [Series.fillna(0)] *)
Definition fillna0 (v : num) : num :=
  match v with NFloat S754_nan => NFloat f0 | _ => v end.

Section Loader.
(** pandas' reading of a string as a number; [None] when it is not one. *)
Variable parse_number : string → option num.

(** [pd.to_numeric(_, errors='coerce')], elementwise. *)
Definition to_numeric (c : cell) : num :=
  match c with
  | CStr s => default (NFloat S754_nan) (parse_number s)
  | CNum v => v
  end.

Definition clean_int (c : cell) : option cell :=
  z ← astype_int (fillna0 (to_numeric c)); Some (CNum (NInt z)).

Definition clean_float (c : cell) : option cell :=
  Some (CNum (fillna0 (to_numeric c))).

Definition ensure_columns (df : DataFrame) : DataFrame :=
  foldl (λ df col, if decide (col ∈ columns df) then df
                   else set_column df col (CStr ""))
    df required_columns.

(** [(df['chr'] != '') & (df['start'] > 0) & (df['end'] > 0)]; the two
    numeric columns hold integers at this point, so that the comparisons
    cannot raise. *)
Definition essential (r : odict cell) : Prop :=
  cell_eqb (row_get r "chr") (CStr "") = false
  ∧ cell_gtb (row_get r "start") (CNum (NInt 0)) = Some true
  ∧ cell_gtb (row_get r "end") (CNum (NInt 0)) = Some true.

#[global] Instance essential_dec r : Decision (essential r).
Proof. unfold essential. apply _. Defined.
#[global] Typeclasses Opaque essential.

(** The body of the [try] block; [None] is an exception. *)
Definition load_csv_data_try (df : DataFrame) : option DataFrame :=
  let df := ensure_columns df in
  df ← map_column clean_int df "start";
  df ← map_column clean_int df "end";
  df ← map_column clean_float df "pvalue";
  df ← map_column clean_int df "length";
  Some (select essential df).

(** [except Exception]: an error message and an empty frame. *)
Definition load_csv_data (df : DataFrame) : DataFrame :=
  default empty_frame (load_csv_data_try df).

End Loader.

(** *** [filter_data], lines 116-133 *)

Definition numeric_keys : list string := ["pvalue_max"; "length_min"].

(** One iteration of the loop over [filters.items()]. *)
Definition filter_step (filtered_df : DataFrame) (item : string * cell)
  : DataFrame :=
  let '(column, value) := item in
  if truthy value && bool_decide (column ∈ columns filtered_df) then
    if bool_decide (column ∈ numeric_keys) then filtered_df
    else select (λ r, cell_eqb (row_get r column) value = true) filtered_df
  else filtered_df.

(** [if filters.get(key): df = df[cmp(df[column], filters[key])]] *)
Definition threshold_step (cmp : cell → cell → option bool)
    (filters : odict cell) (key column : string) (filtered_df : DataFrame)
  : option DataFrame :=
  match od_get filters key with
  | Some v => if truthy v then select_cmp cmp filtered_df column v
              else Some filtered_df
  | None => Some filtered_df
  end.

Definition filter_data (df : DataFrame) (filters : odict cell)
  : option DataFrame :=
  let filtered_df := foldl filter_step df filters in
  filtered_df ← threshold_step cell_leb filters "pvalue_max" "pvalue" filtered_df;
  threshold_step cell_geb filters "length_min" "length" filtered_df.

(** *** Vocabulary of the statements about [app_previous.py] *)

(** The value is one that [pd.to_numeric] cannot read as a number. *)
Definition non_parseable (parse_number : string → option num) (c : cell)
  : Prop :=
  match c with
  | CStr s => parse_number s = None
  | CNum v => is_nan (CNum v) = true
  end.

(** The cell of column [c] after the missing columns were added. *)
Definition synthesized (df : DataFrame) (r : odict cell) (c : string) : cell :=
  if decide (c ∈ required_columns ∧ c ∉ columns df) then CStr ""
  else row_get r c.

(** The conversion applied to column [c]. *)
Definition cleaned (parse_number : string → option num) (c : string) (v : cell)
  : option cell :=
  if decide (c ∈ int_columns) then clean_int parse_number v
  else if decide (c = "pvalue") then clean_float parse_number v
  else Some v.

(** The zero of a cleaned numeric column: integer, or float for [pvalue]. *)
Definition zero_of (column : string) : cell :=
  if decide (column = "pvalue") then CNum (NFloat f0) else CNum (NInt 0).

Definition is_infinite (v : num) : Prop :=
  match v with NFloat (S754_infinity _) => True | _ => False end.

(** The threshold of key [key], when one is in force. *)
Definition threshold (filters : odict cell) (key : string) : option cell :=
  match od_get filters key with
  | Some v => if truthy v then Some v else None
  | None => None
  end.

(** The row passes every equality filter that is in force. *)
Definition passes_equalities (df : DataFrame) (filters : odict cell)
    (r : odict cell) : Prop :=
  ∀ column value,
    (column, value) ∈ filters → truthy value = true →
    column ∈ columns df → column ∉ numeric_keys →
    cell_eqb (row_get r column) value = true.

(** The row passes the threshold of key [key], if one is in force. *)
Definition passes_threshold (cmp : cell → cell → option bool)
    (filters : odict cell) (key column : string) (r : odict cell) : Prop :=
  ∀ v, threshold filters key = Some v → cmp (row_get r column) v = Some true.

(** Every cell of the column is a number. *)
Definition numeric_column (df : DataFrame) (column : string) : Prop :=
  column ∈ columns df
  ∧ ∀ r, r ∈ rows df → ∃ n, row_get r column = CNum n.

Definition numeric_threshold (filters : odict cell) (key : string) : Prop :=
  ∀ v, od_get filters key = Some v → ∃ n, v = CNum n.

(** A reader of decimal integers, to run the loader on examples. *)
Fixpoint parse_digits (acc : Z) (s : string) : option Z :=
  match s with
  | EmptyString => Some acc
  | String c s' =>
      let n := Z.of_nat (nat_of_ascii c) in
      if (48 <=? n)%Z && (n <=? 57)%Z then parse_digits (10 * acc + (n - 48)) s'
      else None
  end.

Definition parse_int (s : string) : option num :=
  match s with
  | EmptyString => None
  | _ => NInt <$> parse_digits 0 s
  end.

(** *** Sample table *)

Definition hit (chr start end_ pvalue length : cell) : odict cell :=
  [("chr", chr); ("start", start); ("end", end_); ("motif", CStr "MA1987.1");
   ("pvalue", pvalue); ("length", length)].

Definition f_1e_3 : float :=
  Eval vm_compute in SFdiv prec emax (float_of_int 1) (float_of_int 1000).

Definition sample_frame : DataFrame :=
  {| columns := ["chr"; "start"; "end"; "motif"; "pvalue"; "length"];
     rows := [hit (CStr "chr2") (CStr "100") (CStr "121")
                  (CNum (NFloat f_1e_3)) (CStr "21");
              hit (CStr "chr4") (CStr "n/a") (CStr "236")
                  (CNum (NFloat f_1e_3)) (CStr "21");
              hit (CStr "chr1") (CStr "300") (CStr "321")
                  (CStr "low") (CStr "?")] |}.

(** The dictionary that [main] builds while no widget was touched. *)
Definition default_filters : odict cell :=
  [("chr", CStr ""); ("motif", CStr ""); ("strand", CStr "");
   ("class", CStr ""); ("tefamily", CStr ""); ("gene", CStr "");
   ("species", CStr ""); ("pvalue_max", CNum (NFloat f0));
   ("length_min", CNum (NInt 0))].

Definition sample_table : DataFrame := load_csv_data parse_int sample_frame.

End AppPrevious.

(** ** utils/sidebar_filters.py *)

Module SidebarFilters.
Import Py Pandas.

(** The dictionary returned by [sidebar_filters]: its keys are fixed. *)
Record Filters := {
  apply : bool;
  chrom : list cell;
  motif : list cell;
  te : list cell;
  family : list cell;
  class : list cell;
  species : list cell;
  gene : list cell
}.

(** [if selection: df = df[df[column].isin(selection)]] *)
Definition isin_step (selection : list cell) (column : string)
    (filtered_df : DataFrame) : option DataFrame :=
  match selection with
  | [] => Some filtered_df
  | _ => if decide (column ∈ columns filtered_df)
         then Some (select (λ r, cell_isin (row_get r column) selection = true)
                      filtered_df)
         else None
  end.

Definition filter_dataframe (df : DataFrame) (filters : Filters)
  : option DataFrame :=
  filtered_df ← isin_step (chrom filters) "CHROM" df;
  filtered_df ← isin_step (motif filters) "MOTIF" filtered_df;
  filtered_df ← isin_step (te filters) "TE" filtered_df;
  filtered_df ← isin_step (family filters) "FAMILY" filtered_df;
  filtered_df ← isin_step (class filters) "CLASS" filtered_df;
  filtered_df ← isin_step (species filters) "SPECIES" filtered_df;
  isin_step (gene filters) "GENE" filtered_df.

(** The selections with the columns they apply to. *)
Definition selections (filters : Filters) : list (string * list cell) :=
  [("CHROM", chrom filters); ("MOTIF", motif filters); ("TE", te filters);
   ("FAMILY", family filters); ("CLASS", class filters);
   ("SPECIES", species filters); ("GENE", gene filters)].

(** The row passes every selection that is not empty. *)
Definition passes_selections (filters : Filters) (r : odict cell) : Prop :=
  ∀ column selection,
    (column, selection) ∈ selections filters → selection ≠ [] →
    cell_isin (row_get r column) selection = true.

Definition no_selection : Filters :=
  {| apply := true; chrom := []; motif := []; te := []; family := [];
     class := []; species := []; gene := [] |}.

End SidebarFilters.

(** ** utils/swarmplot.py *)

Module Swarmplot.
Import Py Pandas.

Definition wrap64 (z : Z) : Z := ((z + 2 ^ 63) mod 2 ^ 64 - 2 ^ 63)%Z.

(** [a + b] on numbers: [int64] addition wraps around. *)
Definition num_add (a b : num) : num :=
  match a, b with
  | NInt x, NInt y => NInt (wrap64 (x + y))
  | _, _ => NFloat (SFadd prec emax (to_float a) (to_float b))
  end.

(** [a / d], true division. *)
Definition num_div (a : num) (d : Z) : float :=
  SFdiv prec emax (to_float a) (float_of_int d).

(** [(start + end) / 2]; a string operand ends in a [TypeError]. *)
Definition midpoint (start end_ : cell) : option cell :=
  match start, end_ with
  | CNum a, CNum b => Some (CNum (NFloat (num_div (num_add a b) 2)))
  | _, _ => None
  end.

(** [[f"chr{i}" for i in range(1, 23)] + ["chrX", "chrY"]] *)
Definition chrom_order : list string :=
  ((λ i, "chr" +:+ pretty i) <$> seqZ 1 22) ++ ["chrX"; "chrY"].

(** [c in df["CHROM"].unique()] *)
Definition chrom_in (df : DataFrame) (c : string) : Prop :=
  existsb (λ r, cell_eqb (row_get r "CHROM") (CStr c)) (rows df) = true.

#[global] Instance chrom_in_dec df c : Decision (chrom_in df c).
Proof. unfold chrom_in. apply _. Defined.
#[global] Typeclasses Opaque chrom_in.

(** One value of [pd.Categorical(values, categories)]: a label outside the
    categories is undefined (NaN). *)
Definition categorical (categories : list string) (v : cell) : cell :=
  match v with
  | CStr s => if decide (s ∈ categories) then CStr s else nan
  | CNum _ => nan
  end.

(** [df[c] = f(row)] row by row; creates the column when it is new. *)
Definition assign (f : odict cell → option cell) (df : DataFrame) (c : string)
  : option DataFrame :=
  rs ← mapM (λ r, v ← f r; Some (od_set r c v)) (rows df);
  Some {| columns := if decide (c ∈ columns df) then columns df
                     else columns df ++ [c];
          rows := rs |}.

(** The strip chart: one point per row of the frame it was given. *)
Record Figure := {
  strip_x : list cell;
  strip_y : list cell;
  hover_data : list (odict cell);
  jitter : float;
  title : string;
  categoryarray : list string
}.

Definition f_0_3 : float :=
  Eval vm_compute in SFdiv prec emax (float_of_int 3) (float_of_int 10).

Definition plot_swarmplot (df : DataFrame) : option Figure :=
  if decide ("START" ∈ columns df ∧ "END" ∈ columns df) then
    df ← assign (λ r, midpoint (row_get r "START") (row_get r "END"))
           df "midpoint";
    if decide ("CHROM" ∈ columns df) then
      let chrom_present := filter (chrom_in df) chrom_order in
      df ← assign (λ r, Some (categorical chrom_present (row_get r "CHROM")))
             df "CHROM";
      Some {| strip_x := (λ r, row_get r "midpoint") <$> rows df;
              strip_y := (λ r, row_get r "CHROM") <$> rows df;
              hover_data := rows df;
              jitter := f_0_3;
              title := "Distribution of Midpoints by Chromosome";
              categoryarray := chrom_present |}
    else None
  else None.

(** *** Sample table *)

Definition locus (chrom : string) (start end_ : Z) : odict cell :=
  [("CHROM", CStr chrom); ("START", CNum (NInt start));
   ("END", CNum (NInt end_))].

Definition sample_loci : DataFrame :=
  {| columns := ["CHROM"; "START"; "END"];
     rows := [locus "chr2" 100 121; locus "chrUn_KI270742v1" 5 9;
              locus "chrX" 40 50; locus "chrM" 1 3] |}.

End Swarmplot.

(** ** app.py: readings of the chart and of the table *)

Module AppChart.
Import Py App.

(** The lists handed to the node trace: labels, coordinates, fill colours. *)
Definition node_labels (f : Figure) : list string :=
  match last (fig_data f) with
  | Some s => match sc_text s with TextMany l => l | TextOne _ => [] end
  | None => []
  end.

Definition node_xs (f : Figure) : list (option float) :=
  match last (fig_data f) with Some s => sc_x s | None => [] end.

Definition node_ys (f : Figure) : list (option float) :=
  match last (fig_data f) with Some s => sc_y s | None => [] end.

Definition node_fill_colors (f : Figure) : list string :=
  match last (fig_data f) with
  | Some s => match sc_marker s with
              | Some m => marker_color m
              | None => []
              end
  | None => []
  end.

(** The colour of a line trace. *)
Definition line_color_of (s : Scatter) : option string :=
  line_color <$> sc_line s.

(** The coefficient is neither above nor below zero: a zero or NaN. *)
Definition coef_neither (r : Row) : Prop :=
  fgt (coef r) f0 = false ∧ flt (coef r) f0 = false.

#[global] Instance coef_neither_dec r : Decision (coef_neither r).
Proof. unfold coef_neither. apply _. Defined.
#[global] Typeclasses Opaque coef_neither.

(** The pair of identifiers of each record, in table order. *)
Definition pairs (df : DataFrame) : list (string * string) :=
  (λ r, (KRAB_ZNF r, Gene r)) <$> df.

(** The border colour that goes with a category. *)
Definition category_color (category : string) : string :=
  if decide (category = "up-regulated") then custom_red else custom_blue.

(** The identifiers of the table in reading order: of each record the gene,
    then the TE. *)
Definition mentions (df : DataFrame) : list string :=
  df ≫= λ r, [KRAB_ZNF r; Gene r].

(** The list without its repetitions, every element where it occurs first. *)
Definition first_occurrences (l : list string) : list string :=
  foldl (λ acc x, if decide (x ∈ acc) then acc else acc ++ [x]) [] l.

End AppChart.

(** ** app_previous.py: the order of the chromosomes *)

Module NaturalSort.
Import Py Pandas AppPrevious.

(** *** [natural_sort_chromosomes], lines 102-114 *)

(** The tuple returned by [sort_key]: [(0, int)], [(1, str)] or [(2, str)]. *)
Inductive SortKey :=
  | KeyNumber (n : Z)
  | KeyLetter (value : string)
  | KeyName (name : string).

#[global] Instance SortKey_eq_dec : EqDecision SortKey.
Proof. solve_decision. Defined.

Definition key_tag (k : SortKey) : Z :=
  match k with KeyNumber _ => 0 | KeyLetter _ => 1 | KeyName _ => 2 end.

(** [a < b] on these tuples: the first components decide, then the second
    ones, which are of the same type when the first are equal. *)
Definition key_ltb (a b : SortKey) : bool :=
  match a, b with
  | KeyNumber m, KeyNumber n => (m <? n)%Z
  | KeyLetter s, KeyLetter t => String.ltb s t
  | KeyName s, KeyName t => String.ltb s t
  | _, _ => (key_tag a <? key_tag b)%Z
  end.

(** A decimal digit.  The names are taken to be ASCII text, where [\d] and
    [str.isdigit] mean [0] to [9]. *)
Definition is_digit (c : ascii) : bool :=
  let n := Z.of_nat (nat_of_ascii c) in (48 <=? n)%Z && (n <=? 57)%Z.

(** What a greedy [\d+] takes at the start of the text. *)
Fixpoint leading_digits (s : string) : string :=
  match s with
  | EmptyString => EmptyString
  | String c s' => if is_digit c then String c (leading_digits s')
                   else EmptyString
  end.

Fixpoint strip_prefix (p s : string) : option string :=
  match p, s with
  | EmptyString, _ => Some s
  | String a p', String b s' =>
      if decide (a = b) then strip_prefix p' s' else None
  | String _ _, EmptyString => None
  end.

(** Group 1 of [re.match(r'chr(\d+|[XYM])', s)]; [None] without match. *)
Definition chr_match (s : string) : option string :=
  rest ← strip_prefix "chr" s;
  match rest with
  | String c _ =>
      if is_digit c then Some (leading_digits rest)
      else if bool_decide (c ∈ ["X"; "Y"; "M"]%char) then Some (String c "")
      else None
  | EmptyString => None
  end.

(** [value.isdigit()] *)
Fixpoint all_digits (s : string) : bool :=
  match s with
  | EmptyString => true
  | String c s' => is_digit c && all_digits s'
  end.

Definition isdigit (s : string) : bool :=
  match s with EmptyString => false | _ => all_digits s end.

(** [sorted(l, key=key)]: a stable sort that compares the keys with [<]. *)
Section Sorted.
Context {A K : Type}.
Variable ltb : K → K → bool.
Variable key : A → K.

Fixpoint insert_sorted (x : A) (l : list A) : list A :=
  match l with
  | [] => [x]
  | y :: l' => if ltb (key y) (key x) then y :: insert_sorted x l'
               else x :: l
  end.

Definition sorted (l : list A) : list A := foldr insert_sorted [] l.
End Sorted.

Section Chromosomes.
Context {A : Type}.
(** [str(chr_name)], for the values that are sorted. *)
Variable str : A → string.

(** [int(value)] reads the digits; it cannot raise on a run of digits. *)
Definition sort_key (chr_name : A) : SortKey :=
  match chr_match (str chr_name) with
  | Some value =>
      if isdigit value then KeyNumber (default 0%Z (parse_digits 0 value))
      else KeyLetter value
  | None => KeyName (str chr_name)
  end.

Definition natural_sort_chromosomes (chromosomes : list A) : list A :=
  sorted key_ltb sort_key chromosomes.
End Chromosomes.

(** *** Vocabulary *)

(** The key of [a] is not above the key of [b]. *)
Definition key_le (a b : SortKey) : Prop := key_ltb b a = false.

(** The number read from a run of digits. *)
Definition number_of (s : string) : Z := default 0%Z (parse_digits 0 s).

End NaturalSort.

(** ** app_previous.py: the chromosome chart *)

Module ChromosomeChart.
Import Py Pandas AppPrevious NaturalSort.

(** *** [create_chromosome_chart], lines 135-175 *)

(** The figure: the annotation of the empty case, or the bar trace with its
    [x], its [y] and the [marker.color] list. *)
Inductive Chart :=
  | NoData (text : string)
  | Bars (x : list cell) (y : list Z) (color : list Z).

(** [df.empty]: one of the two axes has length 0. *)
Definition df_empty (df : DataFrame) : bool :=
  bool_decide (columns df = [] ∨ rows df = []).

(** [df[c]]; [KeyError] without the column. *)
Definition column (df : DataFrame) (c : string) : option (list cell) :=
  if decide (c ∈ columns df) then Some ((λ r, row_get r c) <$> rows df)
  else None.

(** [series[label]] on the result of [value_counts], a series of counts
    indexed by the labels; [KeyError] without the label. *)
Fixpoint series_get (series : list (cell * Z)) (label : cell) : option Z :=
  match series with
  | [] => None
  | (l, n) :: series' =>
      if cell_eqb l label then Some n else series_get series' label
  end.

Section Chart.
(** [str] of a number, and [Series.value_counts], of the libraries. *)
Variable str_num : num → string.
Variable value_counts : list cell → list (cell * Z).

Definition str_cell (c : cell) : string :=
  match c with CStr s => s | CNum v => str_num v end.

Definition create_chromosome_chart (df : DataFrame) : option Chart :=
  if df_empty df then Some (NoData "No data to display")
  else
    col ← column df "chr";
    let chr_counts := value_counts col in
    let sorted_chromosomes :=
      natural_sort_chromosomes str_cell (chr_counts.*1) in
    counts ← mapM (series_get chr_counts) sorted_chromosomes;
    Some (Bars sorted_chromosomes counts counts).
End Chart.

(** *** Vocabulary *)

(** What pandas guarantees of the index of [value_counts]: every label
    equals itself (NaN is dropped) and no two labels are equal. *)
Fixpoint distinct_labels (series : list (cell * Z)) : Prop :=
  match series with
  | [] => True
  | (l, _) :: series' =>
      cell_eqb l l = true
      ∧ Forall (λ p, cell_eqb l p.1 = false) series'
      ∧ distinct_labels series'
  end.

(** The values of the ['chr'] column. *)
Definition chr_column (df : DataFrame) : list cell :=
  (λ r, row_get r "chr") <$> rows df.

(** *** A counting function to run the chart on examples: the labels in the
    order of their first occurrence *)

Fixpoint count_up (series : list (cell * Z)) (c : cell) : list (cell * Z) :=
  match series with
  | [] => [(c, 1%Z)]
  | (l, n) :: series' =>
      if cell_eqb l c then (l, (n + 1)%Z) :: series'
      else (l, n) :: count_up series' c
  end.

Definition count_values (l : list cell) : list (cell * Z) :=
  foldl (λ series c, if is_nan c then series else count_up series c) [] l.

End ChromosomeChart.

(** ** app_big_dataframe.py *)

Module AppBigDataframe.
Import Py Pandas SidebarFilters Swarmplot.

(** Lines 18-25 of one run of the script, on the table [df] of [load_data]
    and the dictionary [filters] of the side bar.  [session] is
    [st.session_state.filtered_df], [None] while the key is absent; the
    result is the table stored under the key after the run, [None] standing
    for an exception of [filter_dataframe]. *)
Definition run (df : DataFrame) (session : option DataFrame)
    (filters : Filters) : option DataFrame :=
  let stored := match session with None => df | Some t => t end in
  if apply filters then filter_dataframe df filters else Some stored.

(** Lines 33-35: the strip plot of the stored table. *)
Definition view (filtered_df : DataFrame) : option Figure :=
  plot_swarmplot filtered_df.

(** The runs of one session, one per state of the side bar: the value of the
    key after the last run; [None] when a run raised. *)
Definition runs (df : DataFrame) (history : list Filters)
  : option (option DataFrame) :=
  foldl (λ session filters, s ← session; Some <$> run df s filters)
    (Some None) history.

(** The dictionaries of the runs in which the button was pressed. *)
Definition applied (history : list Filters) : list Filters :=
  filter (λ f, apply f = true) history.

(** *** Sample side-bar states *)

Definition pick_chrom (pressed : bool) (chromosomes : list string) : Filters :=
  {| apply := pressed; chrom := CStr <$> chromosomes; motif := []; te := [];
     family := []; class := []; species := []; gene := [] |}.

End AppBigDataframe.

(** * Theorems *)

Import Py.

(** ** Lists and ordered dictionaries *)

Lemma filter_all {A} (P : A → Prop) `{!∀ x, Decision (P x)} (l : list A) :
  (∀ x, x ∈ l → P x) → filter P l = l.
Proof.
  induction l as [|a l IH]; intros Hall; [done|].
  rewrite filter_cons_True by (apply Hall; left).
  f_equal. apply IH. intros x Hx. apply Hall. by right.
Qed.

(** ** app.py: row filter *)

Section RowFilter.
Import App.

Lemma coef_zero_not_positive r : coef_zero r → ¬ coef_positive r.
Proof.
  unfold coef_zero, coef_positive, fgt, SFeqb, SFltb.
  destruct (coef r) as [[]|[]| |[] m e]; cbn; congruence.
Qed.

Lemma coef_zero_not_negative r : coef_zero r → ¬ coef_negative r.
Proof.
  unfold coef_zero, coef_negative, flt, SFeqb, SFltb.
  destruct (coef r) as [[]|[]| |[] m e]; cbn; congruence.
Qed.

Lemma apply_filters_spec sign category df :
  apply_filters sign category df
  = filter (λ r, sign_pred sign r ∧ category_pred category r) df.
Proof.
  unfold apply_filters.
  assert (Hsign :
    (if decide (sign = "positive") then filter coef_positive df
     else if decide (sign = "negative") then filter coef_negative df
     else df) = filter (sign_pred sign) df).
  { repeat case_decide; subst.
    - apply list_filter_iff. intros r. unfold sign_pred, coef_positive.
      split; [intros Hr; split; [done | discriminate] | intros [Hr _]; auto].
    - apply list_filter_iff. intros r. unfold sign_pred, coef_negative.
      split; [intros Hr; split; [discriminate | done] | intros [_ Hr]; auto].
    - symmetry. apply filter_all. intros r _. by split. }
  rewrite Hsign. clear Hsign. case_decide as Hc.
  - rewrite list_filter_filter. apply list_filter_iff. intros r.
    unfold category_pred, exp_is. naive_solver.
  - apply list_filter_iff. intros r. unfold category_pred. naive_solver.
Qed.

(** C1. Row Filter contract: for the three sign settings and the three
    category settings, the filter returns exactly the records (in input
    order) that satisfy both predicates, sign=positive meaning
    [coef > 0], sign=negative meaning [coef < 0] and a category other than
    both meaning [exp] equal to it; a record with [coef == 0] survives only
    under sign=both; the output is a sub-list of the input, and both/both
    returns the input unchanged. *)
Theorem row_filter_contract (df : DataFrame) (sign category : string) :
  sign ∈ coef_direction_options →
  category ∈ exp_filter_options →
  let out := apply_filters sign category df in
  out = filter (λ r, sign_pred sign r ∧ category_pred category r) df
  ∧ (∀ r, r ∈ out ↔
       r ∈ df
       ∧ (sign = "positive" → fgt (coef r) f0 = true)
       ∧ (sign = "negative" → flt (coef r) f0 = true)
       ∧ (category ≠ "both" → exp r = category))
  ∧ (∀ r, r ∈ out → coef_zero r → sign = "both")
  ∧ sublist out df
  ∧ apply_filters "both" "both" df = df.
Proof.
  intros Hs Hc out. subst out. rewrite apply_filters_spec.
  split; [done|]. split; [|split; [|split]].
  - intros r. rewrite list_elem_of_filter. unfold sign_pred, category_pred.
    naive_solver.
  - intros r [[[Hp Hn] _] _]%list_elem_of_filter Hz.
    unfold coef_direction_options in Hs.
    apply elem_of_cons in Hs as [->|Hs]; [done|].
    apply elem_of_cons in Hs as [->|Hs].
    + destruct (coef_zero_not_positive r Hz). by apply Hp.
    + apply list_elem_of_singleton in Hs as ->.
      destruct (coef_zero_not_negative r Hz). by apply Hn.
  - apply sublist_filter.
  - reflexivity.
Qed.

Lemma row_filter_contract_witness :
  let df := [App.row_up; App.row_zero; App.row_down] in
  "positive" ∈ App.coef_direction_options
  ∧ "up-regulated" ∈ App.exp_filter_options
  ∧ App.apply_filters "positive" "up-regulated" df = [App.row_up]
  ∧ App.apply_filters "both" "both" df = df.
Proof.
  intros df.
  assert (H1 : "positive" ∈ App.coef_direction_options) by (right; left).
  assert (H2 : "up-regulated" ∈ App.exp_filter_options) by (right; left).
  destruct (row_filter_contract df "positive" "up-regulated" H1 H2)
    as (Hout & _ & _ & _ & Hboth).
  split; [exact H1|]. split; [exact H2|]. split; [|exact Hboth].
  rewrite Hout. vm_compute. reflexivity.
Defined.

End RowFilter.

(** ** Ordered dictionaries *)

Section OrderedDict.
Context {V : Type}.
Implicit Types (d : odict V) (k : string) (v : V).

Lemma od_get_set d k v k' :
  od_get (od_set d k v) k' = if decide (k = k') then Some v else od_get d k'.
Proof.
  induction d as [|[k0 v0] d IH]; simpl.
  - repeat case_decide; congruence.
  - destruct (decide (k0 = k)) as [->|Hne]; simpl.
    + repeat case_decide; congruence.
    + rewrite IH. repeat case_decide; congruence.
Qed.

Lemma od_get_None d k : od_get d k = None ↔ k ∉ od_keys d.
Proof.
  unfold od_keys. induction d as [|[k0 v0] d IH]; simpl.
  - split; [intros _; apply not_elem_of_nil | done].
  - rewrite not_elem_of_cons. case_decide; naive_solver.
Qed.

Lemma od_get_Some_keys d k v : od_get d k = Some v → k ∈ od_keys d.
Proof.
  intros H. destruct (decide (k ∈ od_keys d)) as [|Hn]; [done|].
  apply od_get_None in Hn. congruence.
Qed.

Lemma od_keys_get d k : k ∈ od_keys d → is_Some (od_get d k).
Proof.
  intros Hk. destruct (od_get d k) eqn:E; [eauto|].
  apply od_get_None in E. done.
Qed.

Lemma od_get_elem_of d k v : od_get d k = Some v → (k, v) ∈ d.
Proof.
  induction d as [|[k0 v0] d IH]; simpl; [done|].
  case_decide; [intros [= ->]; subst; left | intros; right; auto].
Qed.

Lemma od_elem_of_get d k v :
  NoDup (od_keys d) → (k, v) ∈ d → od_get d k = Some v.
Proof.
  unfold od_keys. induction d as [|[k0 v0] d IH]; simpl.
  - intros _ H. by apply elem_of_nil in H.
  - intros [Hk0 Hnd]%NoDup_cons [[= -> ->]|Hin]%elem_of_cons.
    + by rewrite decide_True.
    + rewrite decide_False; [auto|].
      intros ->. apply Hk0. apply list_elem_of_fmap. by exists (k, v).
Qed.

Lemma od_keys_set d k v :
  od_keys (od_set d k v)
  = if decide (k ∈ od_keys d) then od_keys d else od_keys d ++ [k].
Proof.
  unfold od_keys. induction d as [|[k0 v0] d IH].
  - rewrite decide_False; [done | apply not_elem_of_nil].
  - cbn [od_set]. destruct (decide (k0 = k)) as [->|Hne].
    + rewrite decide_True; [done | rewrite fmap_cons; left].
    + rewrite !fmap_cons, IH. cbn [fst]. destruct (decide (k ∈ d.*1)).
      * rewrite decide_True; [done | by right].
      * rewrite decide_False; [done|].
        rewrite not_elem_of_cons. naive_solver.
Qed.

Lemma od_keys_set_elem_of d k v k' :
  k' ∈ od_keys (od_set d k v) ↔ k' = k ∨ k' ∈ od_keys d.
Proof.
  rewrite od_keys_set. case_decide.
  - naive_solver.
  - rewrite elem_of_app, list_elem_of_singleton. naive_solver.
Qed.

Lemma od_keys_set_NoDup d k v :
  NoDup (od_keys d) → NoDup (od_keys (od_set d k v)).
Proof.
  intros Hnd. rewrite od_keys_set. case_decide; [done|].
  apply NoDup_app. split; [done|]. split; [|apply NoDup_singleton].
  intros x Hx ->%list_elem_of_singleton. done.
Qed.

End OrderedDict.

(** ** app.py: the graph operations *)

Section GraphOps.
Import App.
Implicit Types (G : Graph) (n u v a b : string) (w : float).

Lemma edge_weight_nbrs G u v : edge_weight G u v = od_get (nbrs G u) v.
Proof. unfold edge_weight, nbrs. by destruct (od_get (g_adj G) u). Qed.

Lemma nbrs_absent G n : n ∉ od_keys (g_adj G) → nbrs G n = [].
Proof. intros H%od_get_None. unfold nbrs. by rewrite H. Qed.

Lemma nbrs_elem_of G n ns :
  NoDup (od_keys (g_adj G)) → (n, ns) ∈ g_adj G → nbrs G n = ns.
Proof. intros Hnd Hin. unfold nbrs. by rewrite (od_elem_of_get _ _ _ Hnd Hin). Qed.

Lemma wf_empty_graph : wf_graph empty_graph.
Proof.
  split; cbn; [done | apply NoDup_nil_2 | intros; apply NoDup_nil_2 | done].
Qed.

(** *** [add_node] *)

Lemma nodes_add_node G n ty ex :
  nodes (add_node G n ty ex)
  = if decide (n ∈ nodes G) then nodes G else nodes G ++ [n].
Proof.
  unfold add_node, nodes.
  destruct (od_get (g_node G) n) eqn:E; cbn [g_node]; rewrite od_keys_set.
  - apply od_get_Some_keys in E. by rewrite !decide_True.
  - apply od_get_None in E. by rewrite !decide_False.
Qed.

Lemma attrs_add_node G n ty ex a :
  od_get (g_node (add_node G n ty ex)) a
  = if decide (n = a)
    then Some (update_attrs ty ex (default no_attrs (od_get (g_node G) n)))
    else od_get (g_node G) a.
Proof.
  unfold add_node.
  destruct (od_get (g_node G) n) eqn:E; cbn [g_node]; rewrite od_get_set;
    by case_decide.
Qed.

Lemma nbrs_add_node G n ty ex a :
  od_keys (g_adj G) = od_keys (g_node G) →
  nbrs (add_node G n ty ex) a = nbrs G a.
Proof.
  intros Hk. unfold add_node.
  destruct (od_get (g_node G) n) eqn:E; [done|].
  unfold nbrs; cbn [g_adj]. rewrite od_get_set. case_decide; [subst|done].
  apply od_get_None in E. rewrite <- Hk in E. apply od_get_None in E.
  by rewrite E.
Qed.

Lemma wf_add_node G n ty ex : wf_graph G → wf_graph (add_node G n ty ex).
Proof.
  intros [Hk Hnd Hnn Hsym]. split.
  - unfold add_node. destruct (od_get (g_node G) n) eqn:E; cbn [g_node g_adj].
    + rewrite od_keys_set, decide_True; [done|].
      by apply od_get_Some_keys in E.
    + rewrite !od_keys_set, Hk. done.
  - fold (nodes (add_node G n ty ex)). rewrite nodes_add_node.
    case_decide; [done|]. apply NoDup_app. split; [done|].
    split; [|apply NoDup_singleton].
    intros x Hx ->%list_elem_of_singleton. done.
  - intros u. by rewrite nbrs_add_node.
  - intros u v. by rewrite !nbrs_add_node.
Qed.

(** *** [add_edge] *)

Lemma nodes_touch_node G n :
  nodes (touch_node G n)
  = if decide (n ∈ nodes G) then nodes G else nodes G ++ [n].
Proof.
  unfold touch_node, od_mem, nodes.
  destruct (od_get (g_node G) n) eqn:E.
  - apply od_get_Some_keys in E. by rewrite decide_True.
  - cbn [g_node]. rewrite od_keys_set. done.
Qed.

Lemma attrs_touch_node G n a :
  od_get (g_node (touch_node G n)) a
  = if decide (n = a ∧ n ∉ nodes G) then Some no_attrs else od_get (g_node G) a.
Proof.
  unfold touch_node, od_mem, nodes.
  destruct (od_get (g_node G) n) eqn:E.
  - apply od_get_Some_keys in E. rewrite decide_False; [done | naive_solver].
  - cbn [g_node]. rewrite od_get_set. apply od_get_None in E.
    repeat case_decide; naive_solver.
Qed.

Lemma nbrs_touch_node G n a :
  od_keys (g_adj G) = od_keys (g_node G) →
  nbrs (touch_node G n) a = nbrs G a.
Proof.
  intros Hk. unfold touch_node, od_mem.
  destruct (od_get (g_node G) n) eqn:E; [done|].
  unfold nbrs; cbn [g_adj]. rewrite od_get_set. case_decide; [subst|done].
  apply od_get_None in E. rewrite <- Hk in E. apply od_get_None in E.
  by rewrite E.
Qed.

Lemma wf_touch_node G n : wf_graph G → wf_graph (touch_node G n).
Proof.
  intros [Hk Hnd Hnn Hsym]. split.
  - unfold touch_node, od_mem. destruct (od_get (g_node G) n) eqn:E; cbn [g_node g_adj].
    + done.
    + rewrite !od_keys_set, Hk. done.
  - fold (nodes (touch_node G n)). rewrite nodes_touch_node.
    case_decide; [done|]. apply NoDup_app. split; [done|].
    split; [|apply NoDup_singleton].
    intros x Hx ->%list_elem_of_singleton. done.
  - intros u. by rewrite nbrs_touch_node.
  - intros u v. by rewrite !nbrs_touch_node.
Qed.

Lemma nbrs_set_adj G u v w a :
  nbrs (set_adj G u v w) a
  = if decide (u = a) then od_set (nbrs G u) v w else nbrs G a.
Proof.
  unfold set_adj. unfold nbrs at 1. cbn [g_adj]. rewrite od_get_set.
  by case_decide.
Qed.

Lemma adj_keys_set_adj G u v w :
  u ∈ od_keys (g_adj G) → od_keys (g_adj (set_adj G u v w)) = od_keys (g_adj G).
Proof. intros Hu. unfold set_adj; cbn [g_adj]. by rewrite od_keys_set, decide_True. Qed.

Lemma nodes_add_edge G u v w :
  nodes (add_edge G u v w) = nodes (touch_node (touch_node G u) v).
Proof. done. Qed.

Lemma elem_of_nodes_touch G n a : a ∈ nodes (touch_node G n) ↔ a = n ∨ a ∈ nodes G.
Proof.
  rewrite nodes_touch_node. case_decide.
  - naive_solver.
  - rewrite elem_of_app, list_elem_of_singleton. naive_solver.
Qed.

Lemma elem_of_nodes_add_node G n ty ex a :
  a ∈ nodes (add_node G n ty ex) ↔ a = n ∨ a ∈ nodes G.
Proof.
  rewrite nodes_add_node. case_decide.
  - naive_solver.
  - rewrite elem_of_app, list_elem_of_singleton. naive_solver.
Qed.

Lemma elem_of_nodes_add_edge G u v w a :
  a ∈ nodes (add_edge G u v w) ↔ a = u ∨ a = v ∨ a ∈ nodes G.
Proof.
  rewrite nodes_add_edge, !elem_of_nodes_touch. naive_solver.
Qed.

Lemma attrs_add_edge G u v w a :
  a ∈ nodes G → od_get (g_node (add_edge G u v w)) a = od_get (g_node G) a.
Proof.
  intros Ha. unfold add_edge, set_adj; cbn [g_node].
  rewrite !attrs_touch_node.
  rewrite decide_False; [|intros [-> ?]; by rewrite elem_of_nodes_touch in *; naive_solver].
  rewrite decide_False; [done | naive_solver].
Qed.

Lemma nbrs_add_edge G u v w a :
  wf_graph G →
  nbrs (add_edge G u v w) a
  = if decide (v = a)
    then od_set (if decide (u = v) then od_set (nbrs G u) v w else nbrs G v) u w
    else if decide (u = a) then od_set (nbrs G u) v w else nbrs G a.
Proof.
  intros HG. pose proof (wf_touch_node G u HG) as HG1.
  unfold add_edge. rewrite !nbrs_set_adj.
  rewrite !nbrs_touch_node by (apply HG || apply HG1).
  repeat case_decide; congruence.
Qed.

Lemma edge_weight_add_edge G u v w a b :
  wf_graph G →
  edge_weight (add_edge G u v w) a b
  = if decide ((a = u ∧ b = v) ∨ (a = v ∧ b = u)) then Some w
    else edge_weight G a b.
Proof.
  intros HG. rewrite !edge_weight_nbrs, nbrs_add_edge by done.
  repeat (case_decide || rewrite od_get_set); naive_solver.
Qed.

Lemma wf_add_edge G u v w : wf_graph G → wf_graph (add_edge G u v w).
Proof.
  intros HG.
  pose proof (wf_touch_node _ v (wf_touch_node G u HG)) as HG2.
  assert (Hu : u ∈ nodes (touch_node (touch_node G u) v))
    by (rewrite !elem_of_nodes_touch; auto).
  assert (Hv : v ∈ nodes (touch_node (touch_node G u) v))
    by (rewrite !elem_of_nodes_touch; auto).
  split.
  - unfold add_edge. rewrite adj_keys_set_adj.
    + rewrite adj_keys_set_adj; [apply HG2 | by rewrite (wf_keys _ HG2)].
    + rewrite adj_keys_set_adj; by rewrite (wf_keys _ HG2).
  - apply HG2.
  - intros a. rewrite nbrs_add_edge by done.
    repeat case_decide; repeat apply od_keys_set_NoDup; apply HG.
  - intros a b. rewrite <- !edge_weight_nbrs, !edge_weight_add_edge by done.
    rewrite !edge_weight_nbrs, (wf_sym _ HG a b).
    apply decide_ext. naive_solver.
Qed.

End GraphOps.

(** ** app.py: the edge view [G.edges(data=True)] *)

Section EdgeView.
Import App.
Implicit Types (adj : odict (odict float)) (seen : list string).
Implicit Types (G : Graph) (u v : string) (w : float).

Lemma elem_of_edges_from_cons n ns adj seen u v w :
  (u, v, w) ∈ edges_from ((n, ns) :: adj) seen
  ↔ (u = n ∧ (v, w) ∈ ns ∧ v ∉ seen) ∨ (u, v, w) ∈ edges_from adj (n :: seen).
Proof.
  cbn [edges_from]. rewrite elem_of_app, list_elem_of_fmap.
  split.
  - intros [([v' w'] & [= -> -> ->] & [Hs Hin]%list_elem_of_filter)|H]; auto.
  - intros [(-> & Hin & Hs)|H]; [left|by right].
    exists (v, w). split; [done|]. by apply list_elem_of_filter.
Qed.

Lemma edges_from_sound adj seen u v w :
  (u, v, w) ∈ edges_from adj seen →
  ∃ ns, (u, ns) ∈ adj ∧ (v, w) ∈ ns ∧ v ∉ seen.
Proof.
  revert seen. induction adj as [|[n ns] adj IH]; intros seen.
  - intros H. by apply elem_of_nil in H.
  - rewrite elem_of_edges_from_cons. intros [(-> & Hin & Hs)|H].
    + exists ns. split; [left|done].
    + destruct (IH _ H) as (ns' & H1 & H2 & H3).
      exists ns'. split; [by right|]. split; [done|].
      rewrite not_elem_of_cons in H3. tauto.
Qed.

Lemma edges_from_antisym adj seen u v w w' :
  (u, v, w) ∈ edges_from adj seen → (v, u, w') ∈ edges_from adj seen → u = v.
Proof.
  revert seen. induction adj as [|[n ns] adj IH]; intros seen.
  - intros H. by apply elem_of_nil in H.
  - rewrite !elem_of_edges_from_cons.
    intros [(-> & _ & _)|H1] [(-> & _ & _)|H2]; [done| | |by eapply IH].
    + apply edges_from_sound in H2 as (_ & _ & _ & Hn).
      rewrite not_elem_of_cons in Hn. tauto.
    + apply edges_from_sound in H1 as (_ & _ & _ & Hn).
      rewrite not_elem_of_cons in Hn. tauto.
Qed.

Lemma edges_from_NoDup adj seen :
  NoDup (od_keys adj) →
  (∀ n ns, (n, ns) ∈ adj → NoDup (od_keys ns)) →
  NoDup ((edges_from adj seen).*1).
Proof.
  revert seen. unfold od_keys.
  induction adj as [|[n ns] adj IH]; intros seen Hnd Hin.
  - apply NoDup_nil_2.
  - cbn [edges_from]. rewrite fmap_app. apply NoDup_app.
    rewrite fmap_cons in Hnd. apply NoDup_cons in Hnd as [Hn Hnd].
    split; [|split].
    + assert (Hnodup : NoDup ((filter (λ p, p.1 ∉ seen) ns).*1)).
      { assert (Hsub : (filter (λ p, p.1 ∉ seen) ns).*1 `sublist_of` ns.*1)
          by apply fmap_sublist, sublist_filter.
        apply (sublist_NoDup _ (ns.*1)); [apply (Hin n ns); left | done]. }
      revert Hnodup. generalize (filter (λ p : string * float, p.1 ∉ seen) ns).
      intros l. induction l as [|[k w] l IHl]; cbn; [intros; apply NoDup_nil_2|].
      rewrite !NoDup_cons. intros [Hk Hl]. split; [|auto].
      rewrite list_elem_of_fmap. intros ([[u1 v1] w1] & [= <- <-] & Hy).
      apply list_elem_of_fmap in Hy as ([k' w'] & [= <- <-] & Hkw).
      apply Hk. apply list_elem_of_fmap. by exists (k, w1).
    + intros [u v] Hhd Htl.
      apply list_elem_of_fmap in Hhd as ([[u1 v1] w1] & [= -> ->] & Hhd).
      apply list_elem_of_fmap in Hhd as ([v2 w2] & [= -> -> ->] & _).
      apply list_elem_of_fmap in Htl as ([[u1 v1] w1] & [= <- <-] & Htl).
      apply edges_from_sound in Htl as (ns' & Hns' & _).
      apply Hn. apply list_elem_of_fmap. by exists (n, ns').
    + apply IH; [done|]. intros n' ns' Hn'. apply (Hin n' ns'). by right.
Qed.

Lemma edges_from_complete adj seen u v w w' nsu nsv :
  NoDup (od_keys adj) →
  (u, nsu) ∈ adj → (v, nsv) ∈ adj →
  (v, w) ∈ nsu → (u, w') ∈ nsv →
  u ∉ seen → v ∉ seen →
  (u, v, w) ∈ edges_from adj seen ∨ (v, u, w') ∈ edges_from adj seen.
Proof.
  revert seen. unfold od_keys.
  induction adj as [|[n ns] adj IH]; intros seen Hnd Hu Hv Hvw Huw Hus Hvs.
  - by apply elem_of_nil in Hu.
  - rewrite fmap_cons in Hnd. apply NoDup_cons in Hnd as [Hn Hnd].
    rewrite !elem_of_edges_from_cons.
    apply elem_of_cons in Hu as [[= -> ->]|Hu]; [by left; left|].
    apply elem_of_cons in Hv as [[= -> ->]|Hv]; [by right; left|].
    assert (u ≠ n).
    { intros ->. apply Hn. apply list_elem_of_fmap. by exists (n, nsu). }
    assert (v ≠ n).
    { intros ->. apply Hn. apply list_elem_of_fmap. by exists (n, nsv). }
    destruct (IH (n :: seen)) as [H1|H1]; try done;
      try (rewrite not_elem_of_cons; done); auto.
Qed.

Lemma edges_sound G u v w :
  wf_graph G → (u, v, w) ∈ edges G → edge_weight G u v = Some w.
Proof.
  intros HG (ns & Hns & Hvw & _)%edges_from_sound.
  assert (Hadj : NoDup (od_keys (g_adj G)))
    by (rewrite (wf_keys _ HG); apply HG).
  rewrite edge_weight_nbrs, (nbrs_elem_of _ _ _ Hadj Hns).
  apply od_elem_of_get; [|done].
  rewrite <- (nbrs_elem_of _ _ _ Hadj Hns). apply HG.
Qed.

Lemma edge_weight_nodes G u v w :
  wf_graph G → edge_weight G u v = Some w → u ∈ nodes G ∧ v ∈ nodes G.
Proof.
  intros HG Huv.
  assert (Hvu : edge_weight G v u = Some w)
    by (rewrite edge_weight_nbrs in *; by rewrite <- (wf_sym _ HG)).
  assert (Hsrc : ∀ a b, edge_weight G a b = Some w → a ∈ nodes G).
  { intros a b Hab. unfold nodes. rewrite <- (wf_keys _ HG).
    unfold edge_weight in Hab.
    destruct (od_get (g_adj G) a) eqn:E; [|done].
    by apply od_get_Some_keys in E. }
  eauto.
Qed.

Lemma edges_endpoints G u v w :
  wf_graph G → (u, v, w) ∈ edges G → u ∈ nodes G ∧ v ∈ nodes G.
Proof. intros HG H%edges_sound; [|done]. by eapply edge_weight_nodes. Qed.

Lemma edges_complete G u v w :
  wf_graph G → edge_weight G u v = Some w →
  (u, v, w) ∈ edges G ∨ (v, u, w) ∈ edges G.
Proof.
  intros HG Huv.
  assert (Hvu : edge_weight G v u = Some w)
    by (rewrite edge_weight_nbrs in *; by rewrite <- (wf_sym _ HG)).
  assert (Hadj : NoDup (od_keys (g_adj G)))
    by (rewrite (wf_keys _ HG); apply HG).
  unfold edge_weight in Huv, Hvu.
  destruct (od_get (g_adj G) u) as [nsu|] eqn:Eu; [|done].
  destruct (od_get (g_adj G) v) as [nsv|] eqn:Ev; [|done].
  cbn in Huv, Hvu.
  apply (edges_from_complete _ [] u v w w nsu nsv); try done;
    try (by apply od_get_elem_of); apply not_elem_of_nil.
Qed.

Lemma edges_simple G : wf_graph G → simple_edges (edges G).
Proof.
  intros HG. split.
  - apply edges_from_NoDup.
    + rewrite (wf_keys _ HG). apply HG.
    + intros n ns Hn. rewrite <- (nbrs_elem_of G n ns); [apply HG| |done].
      rewrite (wf_keys _ HG). apply HG.
  - intros u v w w'. apply edges_from_antisym.
Qed.

End EdgeView.

(** ** app.py: the graph builder *)

Section GraphBuilder.
Import App.
Implicit Types (G : Graph) (r : Row) (df : DataFrame) (n u v a b : string).

Lemma touch_node_present G n : n ∈ nodes G → touch_node G n = G.
Proof.
  intros [x Hx]%od_keys_get. unfold touch_node, od_mem. by rewrite Hx.
Qed.

Lemma g_node_add_row G r :
  g_node (add_row G r)
  = g_node (add_node (add_node G (KRAB_ZNF r) "gene" None)
              (Gene r) "te" (Some (exp r))).
Proof.
  unfold add_row, add_edge.
  rewrite !touch_node_present
    by (rewrite ?elem_of_nodes_touch, !elem_of_nodes_add_node; auto).
  done.
Qed.

Lemma elem_of_nodes_add_row G r n :
  n ∈ nodes (add_row G r) ↔ n = KRAB_ZNF r ∨ n = Gene r ∨ n ∈ nodes G.
Proof.
  unfold nodes at 1. rewrite g_node_add_row. fold (nodes (add_node
    (add_node G (KRAB_ZNF r) "gene" None) (Gene r) "te" (Some (exp r)))).
  rewrite !elem_of_nodes_add_node. naive_solver.
Qed.

Lemma attrs_add_row G r n :
  od_get (g_node (add_row G r)) n
  = if decide (n = Gene r)
    then Some {| attr_type := Some "te"; attr_exp := Some (exp r) |}
    else if decide (n = KRAB_ZNF r)
    then Some {| attr_type := Some "gene";
                 attr_exp := attr_exp (default no_attrs (od_get (g_node G) n)) |}
    else od_get (g_node G) n.
Proof.
  rewrite g_node_add_row, !attrs_add_node.
  repeat case_decide; subst; try done.
Qed.

Lemma node_type_add_row G r n :
  node_type (add_row G r) n
  = if decide (n = Gene r) then Some "te"
    else if decide (n = KRAB_ZNF r) then Some "gene"
    else node_type G n.
Proof.
  unfold node_type. rewrite attrs_add_row. by repeat case_decide.
Qed.

Lemma wf_add_row G r : wf_graph G → wf_graph (add_row G r).
Proof. intros HG. by apply wf_add_edge, wf_add_node, wf_add_node. Qed.

Lemma edge_weight_add_row G r a b :
  wf_graph G →
  edge_weight (add_row G r) a b
  = if decide (links r a b) then Some (coef r) else edge_weight G a b.
Proof.
  intros HG. unfold add_row.
  rewrite edge_weight_add_edge by by apply wf_add_node, wf_add_node.
  rewrite !edge_weight_nbrs, !nbrs_add_node;
    [|apply HG|by apply wf_add_node].
  apply decide_ext. unfold links. naive_solver.
Qed.

Lemma build_graph_snoc df r :
  build_graph (df ++ [r]) = add_row (build_graph df) r.
Proof. apply foldl_snoc. Qed.

Lemma build_graph_app df1 df2 :
  build_graph (df1 ++ df2) = foldl add_row (build_graph df1) df2.
Proof. apply foldl_app. Qed.

Lemma wf_build_graph df : wf_graph (build_graph df).
Proof.
  induction df as [|r df IH] using rev_ind; [apply wf_empty_graph|].
  rewrite build_graph_snoc. by apply wf_add_row.
Qed.

(** The nodes are the identifiers met in the records. *)
Lemma elem_of_nodes_build_graph df n :
  n ∈ nodes (build_graph df) ↔ n ∈ genes df ∨ n ∈ tes df.
Proof.
  unfold genes, tes. induction df as [|r df IH] using rev_ind.
  - cbn. rewrite !elem_of_nil. tauto.
  - rewrite build_graph_snoc, elem_of_nodes_add_row, IH, !fmap_app.
    rewrite !elem_of_app. cbn. rewrite !list_elem_of_singleton. tauto.
Qed.

(** A node's kind is the role of its last occurrence. *)
Lemma node_type_build_graph df n k :
  node_type (build_graph df) n = Some k →
  (k = "gene" ∧ n ∈ genes df) ∨ (k = "te" ∧ n ∈ tes df).
Proof.
  unfold genes, tes. revert k. induction df as [|r df IH] using rev_ind; intros k.
  - done.
  - rewrite build_graph_snoc, node_type_add_row, !fmap_app, !elem_of_app.
    cbn. rewrite !list_elem_of_singleton.
    repeat case_decide; [naive_solver..|].
    intros Hk. apply IH in Hk. tauto.
Qed.

Lemma node_type_gene df n :
  n ∈ genes df → n ∉ tes df → node_type (build_graph df) n = Some "gene".
Proof.
  unfold genes, tes. induction df as [|r df IH] using rev_ind.
  - intros H. by apply elem_of_nil in H.
  - rewrite build_graph_snoc, node_type_add_row, !fmap_app, !elem_of_app.
    cbn. rewrite !list_elem_of_singleton. intros Hg Ht.
    rewrite decide_False by tauto. case_decide; [done|].
    apply IH; tauto.
Qed.

Lemma node_type_te df n :
  n ∈ tes df → n ∉ genes df → node_type (build_graph df) n = Some "te".
Proof.
  unfold genes, tes. induction df as [|r df IH] using rev_ind.
  - intros H. by apply elem_of_nil in H.
  - rewrite build_graph_snoc, node_type_add_row, !fmap_app, !elem_of_app.
    cbn. rewrite !list_elem_of_singleton. intros Ht Hg.
    case_decide; [done|]. rewrite decide_False by tauto.
    apply IH; tauto.
Qed.

(** Every node carries a kind, and a TE node carries a category. *)
Lemma attrs_build_graph df n (attrs : NodeAttrs) :
  od_get (g_node (build_graph df)) n = Some attrs →
  attr_type attrs = Some "gene"
  ∨ (attr_type attrs = Some "te" ∧ is_Some (attr_exp attrs)).
Proof.
  revert attrs. induction df as [|r df IH] using rev_ind; intros attrs.
  - done.
  - rewrite build_graph_snoc, attrs_add_row.
    repeat case_decide; [intros [= <-]; cbn; eauto..|apply IH].
Qed.

(** Last writer wins: the weight between two identifiers is the coefficient
    of the last record that connects them. *)
Lemma edge_weight_last df1 r df2 u v :
  links r u v →
  (∀ r', r' ∈ df2 → ¬ links r' u v) →
  edge_weight (build_graph (df1 ++ r :: df2)) u v = Some (coef r).
Proof.
  intros Hr. induction df2 as [|r2 df2 IH] using rev_ind; intros Hno.
  - rewrite build_graph_snoc, edge_weight_add_row by apply wf_build_graph.
    by rewrite decide_True.
  - rewrite app_comm_cons, app_assoc, build_graph_snoc.
    rewrite edge_weight_add_row by apply wf_build_graph.
    rewrite decide_False.
    + apply IH. intros r' Hr'. apply Hno. rewrite elem_of_app. by left.
    + apply Hno. rewrite elem_of_app, list_elem_of_singleton. by right.
Qed.

(** Every node of a built graph has an incident edge. *)
Lemma node_has_edge df n :
  n ∈ nodes (build_graph df) →
  ∃ v w, edge_weight (build_graph df) n v = Some w.
Proof.
  induction df as [|r df IH] using rev_ind.
  - intros H. by apply elem_of_nil in H.
  - rewrite build_graph_snoc, elem_of_nodes_add_row. intros Hn.
    destruct (decide (n = KRAB_ZNF r)) as [->|Hg].
    { exists (Gene r), (coef r).
      rewrite edge_weight_add_row by apply wf_build_graph.
      rewrite decide_True; [done | by left]. }
    destruct (decide (n = Gene r)) as [->|Ht].
    { exists (KRAB_ZNF r), (coef r).
      rewrite edge_weight_add_row by apply wf_build_graph.
      rewrite decide_True; [done | by right]. }
    destruct IH as (v & w & Hvw); [tauto|].
    destruct (decide (links r n v)) as [Hl|Hl].
    + exists v, (coef r).
      rewrite edge_weight_add_row by apply wf_build_graph.
      by rewrite decide_True.
    + exists v, w.
      rewrite edge_weight_add_row by apply wf_build_graph.
      by rewrite decide_False.
Qed.

Lemma nodes_length_build_graph df :
  length (nodes (build_graph df)) = distinct (genes df ++ tes df).
Proof.
  unfold distinct. apply Permutation_length, NoDup_Permutation.
  - apply (wf_nodup _ (wf_build_graph df)).
  - apply NoDup_remove_dups.
  - intros n. rewrite elem_of_remove_dups, elem_of_app.
    apply elem_of_nodes_build_graph.
Qed.

Lemma distinct_app_disjoint (l k : list string) :
  (∀ x, x ∈ l → x ∉ k) → distinct (l ++ k) = distinct l + distinct k.
Proof.
  intros Hd. unfold distinct. rewrite <- length_app.
  apply Permutation_length, NoDup_Permutation.
  - apply NoDup_remove_dups.
  - apply NoDup_app. split; [apply NoDup_remove_dups|].
    split; [|apply NoDup_remove_dups].
    intros x. rewrite !elem_of_remove_dups. apply Hd.
  - intros x. rewrite elem_of_app, !elem_of_remove_dups, elem_of_app. done.
Qed.

End GraphBuilder.

(** ** app.py: statements about the graph builder *)

Section GraphBuilderClaims.
Import App.

(** C2, as stated, fails when an identifier is used in both roles: the
    records [TF1 - L1PA2] and [L1PA2 - HERVK] give three nodes although there
    are two distinct genes and two distinct TEs, and the edge [TF1 - L1PA2]
    then joins two nodes of kind gene.  And of two records that share a pair,
    the later one gives the weight only if no third record follows for the
    same pair. *)
Lemma graph_builder_counterexample :
  let df := [row_up; row_swap] in
  let G := build_graph df in
  length (nodes G) = 3
  ∧ distinct (genes df) + distinct (tes df) = 4
  ∧ length (nodes G) ≠ distinct (genes df) + distinct (tes df)
  ∧ ("TF1", "L1PA2", f_0_8) ∈ edges G
  ∧ node_type G "TF1" = Some "gene"
  ∧ node_type G "L1PA2" = Some "gene"
  ∧ node_type G "L1PA2" ≠ Some "te"
  ∧ edge_weight (build_graph [row_up; row_dup; row_up]) "TF1" "L1PA2"
    = Some (coef row_up)
  ∧ coef row_up ≠ coef row_dup.
Proof. vm_compute. repeat split; try discriminate. left. Qed.

(** C2 (amended). Graph Builder postconditions: for every record set, every
    edge's endpoints exist as nodes, the node count is the number of distinct
    identifiers, no two edges join the same two nodes, and when two records
    share a (gene, TE) pair and no later record connects the same two
    identifiers, the single edge between them carries the later record's
    coefficient.  When no identifier is used both as gene and as TE, every
    edge joins one gene node and one TE node and the node count is the number
    of distinct genes plus the number of distinct TEs. *)
Theorem graph_builder_postconditions (df : DataFrame) :
  let G := build_graph df in
  (∀ u v w, (u, v, w) ∈ edges G → u ∈ nodes G ∧ v ∈ nodes G)
  ∧ length (nodes G) = distinct (genes df ++ tes df)
  ∧ simple_edges (edges G)
  ∧ (∀ df1 r1 df2 r2 df3,
       df = df1 ++ r1 :: df2 ++ r2 :: df3 →
       KRAB_ZNF r1 = KRAB_ZNF r2 → Gene r1 = Gene r2 →
       (∀ r', r' ∈ df3 → ¬ links r' (KRAB_ZNF r2) (Gene r2)) →
       edge_weight G (KRAB_ZNF r2) (Gene r2) = Some (coef r2)
       ∧ ((KRAB_ZNF r2, Gene r2, coef r2) ∈ edges G
          ∨ (Gene r2, KRAB_ZNF r2, coef r2) ∈ edges G)
       ∧ (∀ u v w, (u, v, w) ∈ edges G → links r2 u v → w = coef r2))
  ∧ (disjoint_roles df →
       (∀ u v w, (u, v, w) ∈ edges G →
          (node_type G u = Some "gene" ∧ node_type G v = Some "te")
          ∨ (node_type G u = Some "te" ∧ node_type G v = Some "gene"))
       ∧ length (nodes G) = distinct (genes df) + distinct (tes df)).
Proof.
  intros G. pose proof (wf_build_graph df) as HG. fold G in HG.
  split; [|split; [|split; [|split]]].
  - intros u v w. by apply edges_endpoints.
  - apply nodes_length_build_graph.
  - by apply edges_simple.
  - intros df1 r1 df2 r2 df3 -> Hg Ht Hlast.
    assert (Hw : edge_weight G (KRAB_ZNF r2) (Gene r2) = Some (coef r2)).
    { subst G. rewrite app_comm_cons, app_assoc.
      apply edge_weight_last; [by left | done]. }
    split; [done|]. split; [by apply edges_complete|].
    intros u v w Hin Hl. apply edges_sound in Hin; [|done].
    destruct Hl as [[<- <-]|[<- <-]]; [congruence|].
    rewrite edge_weight_nbrs, <- (wf_sym _ HG), <- edge_weight_nbrs in Hin.
    congruence.
  - intros Hdis. split.
    + intros u v w Hin%edges_sound; [|done].
      assert (Hl : ∃ r, r ∈ df ∧ links r u v).
      { clear Hdis HG. subst G. revert Hin.
        induction df as [|r df' IH] using rev_ind; [done|].
        rewrite build_graph_snoc, edge_weight_add_row by apply wf_build_graph.
        case_decide as Hl.
        - intros _. exists r. split; [|done].
          rewrite elem_of_app, list_elem_of_singleton. by right.
        - intros (r' & Hr' & Hl')%IH. exists r'. split; [|done].
          rewrite elem_of_app. by left. }
      destruct Hl as (r & Hr & Hl).
      assert (Hgene : KRAB_ZNF r ∈ genes df)
        by (apply list_elem_of_fmap; eauto).
      assert (Hte : Gene r ∈ tes df) by (apply list_elem_of_fmap; eauto).
      assert (node_type G (KRAB_ZNF r) = Some "gene")
        by (apply node_type_gene; auto).
      assert (node_type G (Gene r) = Some "te").
      { apply node_type_te; [done|]. intros Hg. by apply (Hdis (Gene r)). }
      destruct Hl as [[<- <-]|[<- <-]]; auto.
    + subst G. rewrite nodes_length_build_graph.
      by apply distinct_app_disjoint.
Qed.

Lemma graph_builder_postconditions_witness :
  let df := [row_up; row_down; row_dup] in
  let G := build_graph df in
  disjoint_roles df
  ∧ length (nodes G) = distinct (genes df) + distinct (tes df)
  ∧ edge_weight G "TF1" "L1PA2" = Some f_0_5.
Proof.
  intros df G.
  assert (Hdis : disjoint_roles df).
  { apply (bool_decide_unpack _). vm_compute. exact I. }
  destruct (graph_builder_postconditions df) as (_ & _ & _ & Hlast & Hkinds).
  split; [exact Hdis|]. split; [apply (Hkinds Hdis)|].
  apply (Hlast [] row_up [row_down] row_dup []); try reflexivity.
  intros r' Hr'. by apply elem_of_nil in Hr'.
Defined.

(** C3, as stated, fails: [L1PA2] is a TE node after the first record and a
    gene node after the second one. *)
Lemma node_kind_counterexample :
  node_type (build_graph [row_up]) "L1PA2" = Some "te"
  ∧ node_type (build_graph ([row_up] ++ [row_swap])) "L1PA2" = Some "gene"
  ∧ node_type (build_graph ([row_up] ++ [row_swap])) "L1PA2"
    ≠ node_type (build_graph [row_up]) "L1PA2".
Proof. vm_compute. repeat split. discriminate. Qed.

Lemma disjoint_roles_app_l (df1 df2 : DataFrame) :
  disjoint_roles (df1 ++ df2) → disjoint_roles df1.
Proof.
  unfold disjoint_roles, genes, tes. intros H n Hn Ht.
  apply (H n); rewrite fmap_app, elem_of_app; by left.
Qed.

(** C3 (amended). Node-kind immutability: for every record set in which no
    identifier occurs both as a gene symbol and as a TE symbol, once a node's
    kind is set, processing any later records never changes it. *)
Theorem node_kind_immutable (df df1 df2 df3 : DataFrame) (n k : string) :
  df = df1 ++ df2 ++ df3 →
  disjoint_roles df →
  node_type (build_graph df1) n = Some k →
  node_type (build_graph (df1 ++ df2)) n = Some k.
Proof.
  intros -> Hdis Hk. rewrite app_assoc in Hdis.
  apply disjoint_roles_app_l in Hdis.
  assert (Hsub1 : ∀ x, x ∈ genes df1 → x ∈ genes (df1 ++ df2))
    by (intros x; unfold genes; rewrite fmap_app, elem_of_app; auto).
  assert (Hsub2 : ∀ x, x ∈ tes df1 → x ∈ tes (df1 ++ df2))
    by (intros x; unfold tes; rewrite fmap_app, elem_of_app; auto).
  apply node_type_build_graph in Hk as [[-> Hg]|[-> Ht]].
  - apply node_type_gene; auto.
  - apply node_type_te; auto. intros Hg. apply (Hdis n Hg). auto.
Qed.

Lemma node_kind_immutable_witness :
  disjoint_roles ([row_up] ++ [row_down; row_dup] ++ [row_zero])
  ∧ node_type (build_graph [row_up]) "TF1" = Some "gene"
  ∧ node_type (build_graph ([row_up] ++ [row_down; row_dup])) "TF1" = Some "gene".
Proof.
  assert (Hdis : disjoint_roles ([row_up] ++ [row_down; row_dup] ++ [row_zero])).
  { apply (bool_decide_unpack _). vm_compute. exact I. }
  assert (Hk : node_type (build_graph [row_up]) "TF1" = Some "gene")
    by reflexivity.
  split; [exact Hdis|]. split; [exact Hk|].
  exact (node_kind_immutable _ [row_up] [row_down; row_dup] [row_zero]
           "TF1" "gene" eq_refl Hdis Hk).
Defined.

End GraphBuilderClaims.

(** ** app.py: the renderer *)

Section Renderer.
Import App.
Implicit Types (G : Graph) (df : DataFrame) (pos : PosMap).

Lemma edge_scatter_drawn pos e s :
  edge_scatter pos e = Some s → edge_drawn pos e s ∧ is_line_trace s = true.
Proof.
  destruct e as [[u v] w]. unfold edge_scatter, edge_drawn.
  destruct (od_get pos u) as [[x0 y0]|]; [|done].
  destruct (od_get pos v) as [[x1 y1]|]; [|done].
  cbn. intros [= <-]. split; [|done].
  exists x0, y0, x1, y1. cbn. repeat split; try done.
  - by intros ->.
  - intros Hlt. destruct (fgt w f0) eqn:Hgt; [|done].
    exfalso. revert Hlt Hgt. unfold fgt, flt, SFltb, f0.
    destruct w as [[]|[]| |[] m e]; cbn; congruence.
Qed.

Lemma line_primitives_app (et : list Scatter) (pts : list NodePoint) :
  Forall (λ s, is_line_trace s = true) et →
  line_primitives {| fig_data := et ++ [node_trace pts] |} = et.
Proof.
  unfold line_primitives. cbn [fig_data]. induction 1 as [|s et Hs _ IH].
  - done.
  - cbn. rewrite Hs. f_equal. apply IH.
Qed.

Lemma marker_count_app (et : list Scatter) (pts : list NodePoint) :
  Forall (λ s, is_line_trace s = true) et →
  marker_count {| fig_data := et ++ [node_trace pts] |} = length pts.
Proof.
  unfold marker_count. cbn [fig_data]. induction 1 as [|s et Hs _ IH].
  - cbn. rewrite length_fmap. lia.
  - cbn. rewrite Hs. apply IH.
Qed.

(** With a position for every node, the renderer of a built graph returns a
    figure: one trace per edge followed by the node trace. *)
Lemma render_built df pos :
  covers pos (build_graph df) →
  ∃ et pts,
    render (build_graph df) pos = Some {| fig_data := et ++ [node_trace pts] |}
    ∧ Forall2 (λ e s, edge_scatter pos e = Some s) (edges (build_graph df)) et
    ∧ Forall2 (λ n p, node_point (build_graph df) pos n = Some p)
        (nodes (build_graph df)) pts.
Proof.
  intros Hcov. set (G := build_graph df) in *.
  pose proof (wf_build_graph df) as HG. fold G in HG.
  assert (Het : is_Some (edge_trace G pos)).
  { apply mapM_is_Some, Forall_forall. intros [[u v] w] Hin.
    apply edges_endpoints in Hin as [Hu Hv]; [|done].
    destruct (Hcov u Hu) as [[x0 y0] Hpu], (Hcov v Hv) as [[x1 y1] Hpv].
    cbn. unfold edge_scatter. rewrite Hpu, Hpv. by eexists. }
  assert (Hpts : is_Some (node_points G pos)).
  { apply mapM_is_Some, Forall_forall. intros n Hn.
    destruct (Hcov n Hn) as [[x y] Hp].
    destruct (od_keys_get _ _ Hn) as [a Ha].
    cbn. unfold node_point. rewrite Hp, Ha. cbn.
    destruct (attrs_build_graph df n a Ha) as [->|[-> _]]; by eexists. }
  destruct Het as [et Het], Hpts as [pts Hpts].
  exists et, pts. unfold render. rewrite Het, Hpts. split; [done|].
  split; by apply mapM_Some.
Qed.

End Renderer.

(** ** Two-decimal formatting *)

Section Format.

Lemma round_half_even_nearest (num den : Z) :
  (0 ≤ num)%Z → (0 < den)%Z →
  (0 ≤ round_half_even num den
   ∧ 2 * Z.abs (num - round_half_even num den * den) ≤ den)%Z.
Proof.
  intros Hnum Hden. unfold round_half_even.
  pose proof (Z.div_mod num den ltac:(lia)) as Hdm.
  pose proof (Z.mod_pos_bound num den Hden) as Hmod.
  assert (0 ≤ num / den)%Z by (apply Z.div_pos; lia).
  repeat case_match; rewrite ?Z.ltb_lt, ?Z.ltb_ge in *; split; try lia; nia.
Qed.

Lemma hundredths_nearest s m e :
  (0 ≤ hundredths m e)%Z
  ∧ App.nearest_hundredth (S754_finite s m e) (hundredths m e).
Proof.
  unfold hundredths, App.nearest_hundredth.
  destruct (0 <=? e)%Z eqn:He.
  - apply Z.leb_le in He. split; [|lia].
    assert (0 ≤ 2 ^ e)%Z by (apply Z.pow_nonneg; lia). nia.
  - apply Z.leb_gt in He.
    assert (0 < 2 ^ (- e))%Z by (apply Z.pow_pos_nonneg; lia).
    destruct (round_half_even_nearest (Z.pos m * 100) (2 ^ (- e)))
      as [H1 H2]; [lia | done |].
    split; [done|]. replace (100 * Z.pos m)%Z with (Z.pos m * 100)%Z by lia.
    done.
Qed.

Lemma pretty_digit_length (d : Z) :
  (0 ≤ d ≤ 9)%Z → String.length (pretty d) = 1.
Proof.
  intros Hd.
  assert (d = 0 ∨ d = 1 ∨ d = 2 ∨ d = 3 ∨ d = 4 ∨ d = 5 ∨ d = 6 ∨ d = 7
          ∨ d = 8 ∨ d = 9)%Z as Hcases by lia.
  repeat destruct Hcases as [->|Hcases]; subst; reflexivity.
Qed.

Lemma fixed2_two_decimals (neg : bool) (n : Z) :
  (0 ≤ n)%Z → App.two_decimals (fixed2 neg n) n.
Proof.
  intros Hn. exists neg, (n / 100)%Z, ((n / 10) mod 10)%Z, (n mod 10)%Z.
  pose proof (Z.mod_pos_bound (n / 10) 10 ltac:(lia)).
  pose proof (Z.mod_pos_bound n 10 ltac:(lia)).
  split; [apply Z.div_pos; lia|]. split; [lia|]. split; [lia|].
  split; [done|].
  split; [apply pretty_digit_length; lia|].
  split; [apply pretty_digit_length; lia|].
  pose proof (Z.div_mod n 10 ltac:(lia)).
  pose proof (Z.div_mod (n / 10) 10 ltac:(lia)).
  replace (n / 100)%Z with (n / 10 / 10)%Z by (rewrite Z.div_div by lia; done).
  lia.
Qed.

(** A finite float is written with exactly two decimals, those of the
    nearest hundredth. *)
Lemma format_2f_finite (x : float) :
  is_finite x = true →
  ∃ n, App.two_decimals (format_2f x) n ∧ App.nearest_hundredth x n.
Proof.
  destruct x as [s|s| |s m e]; try done; intros _.
  - exists 0%Z. split; [by apply fixed2_two_decimals | done].
  - exists (hundredths m e). destruct (hundredths_nearest s m e).
    split; [by apply fixed2_two_decimals | done].
Qed.

Lemma has_char_app c (s1 s2 : string) :
  App.has_char c (s1 +:+ s2) = App.has_char c s1 || App.has_char c s2.
Proof.
  induction s1 as [|c' s1 IH]; [done|].
  change (String c' s1 +:+ s2) with (String c' (s1 +:+ s2)).
  cbn [App.has_char]. by case_decide.
Qed.

Lemma two_decimals_has_point (s : string) (n : Z) :
  App.two_decimals s n → App.has_char "."%char s = true.
Proof.
  intros (neg & ip & d1 & d2 & _ & _ & _ & -> & _).
  rewrite !has_char_app. cbn. by rewrite !orb_true_r.
Qed.

End Format.

(** ** app.py: statements about the renderer *)

Section RendererClaims.
Import App.
Implicit Types (df : DataFrame) (pos : PosMap).

Lemma custom_colors_differ : custom_red ≠ custom_blue.
Proof. discriminate. Qed.

(** C4, as stated, fails: a TE node whose category is neither of the two
    expected values gets the colour of the down-regulated category, not the
    one of the up-regulated category; so does a node without category. *)
Lemma te_border_counterexample :
  node_border_colors <$> chart layout_fails layout_origin [row_other]
    = Some ["black"; custom_blue]
  ∧ node_border_colors <$> chart layout_fails layout_origin [row_up]
    = Some ["black"; custom_red]
  ∧ node_border_colors <$> chart layout_fails layout_origin [row_down]
    = Some ["black"; custom_blue]
  ∧ border_color {| attr_type := Some "te"; attr_exp := None |} = custom_blue
  ∧ custom_blue ≠ custom_red.
Proof. vm_compute. repeat split. discriminate. Qed.

(** C4 (amended). TE node border colour rule: for every rendered graph, each
    TE node carries a category, and its border colour is one of two fixed
    colours selected by that category: the colour of the up-regulated
    category when the category is up-regulated, and the colour of the
    down-regulated category for every other value. *)
Theorem te_border_color (df : DataFrame) (pos : PosMap) :
  covers pos (build_graph df) →
  let G := build_graph df in
  ∃ fig,
    render G pos = Some fig
    ∧ length (node_border_colors fig) = length (nodes G)
    ∧ (∀ i n, nodes G !! i = Some n → node_type G n = Some "te" →
         ∃ e, od_get (g_node G) n ≫= attr_exp = Some e
              ∧ node_border_colors fig !! i
                = Some (if decide (e = "up-regulated") then custom_red
                        else custom_blue))
    ∧ custom_red ≠ custom_blue.
Proof.
  intros Hcov G. destruct (render_built df pos Hcov) as (et & pts & Hr & _ & Hpts).
  fold G in Hr, Hpts. eexists. split; [exact Hr|].
  assert (Hcolors : node_border_colors {| fig_data := et ++ [node_trace pts] |}
                    = np_border <$> pts).
  { unfold node_border_colors. cbn [fig_data]. by rewrite last_snoc. }
  rewrite Hcolors. split; [|split; [|apply custom_colors_differ]].
  - rewrite length_fmap. symmetry. by eapply Forall2_length.
  - intros i n Hi Hty.
    destruct (Forall2_lookup_l _ _ _ _ _ Hpts Hi) as (p & Hp & Hnp).
    unfold node_type in Hty. unfold node_point in Hnp.
    destruct (od_get pos n) as [[x y]|]; [|done].
    destruct (od_get (g_node G) n) as [a|] eqn:Ha; [|done].
    cbn in Hty, Hnp. rewrite Hty in Hnp. cbn in Hnp.
    rewrite decide_False in Hnp by discriminate. injection Hnp as <-.
    destruct (attrs_build_graph df n a Ha) as [Hg|[_ [e He]]]; [congruence|].
    exists e. split; [done|].
    rewrite list_lookup_fmap, Hp. cbn. unfold border_color. by rewrite He.
Qed.

Lemma covers_origin (G : Graph) :
  covers ((λ n, (n, (f0, f0))) <$> nodes G) G.
Proof.
  intros n Hn. apply od_keys_get. unfold od_keys.
  rewrite <- list_fmap_compose. by rewrite list_fmap_id.
Qed.

Lemma te_border_color_witness :
  let pos := (λ n, (n, (f0, f0))) <$> nodes (build_graph [row_up; row_down]) in
  covers pos (build_graph [row_up; row_down])
  ∧ node_border_colors <$> render (build_graph [row_up; row_down]) pos
    = Some ["black"; custom_red; custom_blue].
Proof.
  intros pos. split; [apply covers_origin|].
  destruct (te_border_color [row_up; row_down] pos (covers_origin _))
    as (fig & Hfig & _).
  rewrite Hfig. vm_compute in Hfig. injection Hfig as <-. reflexivity.
Defined.

(** C6, as stated, fails for a coefficient that is not a number: an empty
    [coef] cell is read as NaN, and the label of its edge ends in [nan],
    which has no decimals. *)
Lemma edge_label_counterexample :
  let G := build_graph [row_nan] in
  let pos := [("TF1", (f0, f0)); ("L1PA2", (f0, f0))] in
  edges G = [("TF1", "L1PA2", S754_nan)]
  ∧ fmap (M := list) sc_text <$> edge_trace G pos
    = Some [TextOne "TF1 ↔ L1PA2<br>coef=nan"]
  ∧ format_2f S754_nan = "nan"
  ∧ ∀ n, ¬ two_decimals (format_2f S754_nan) n.
Proof.
  repeat split; try reflexivity.
  intros n Hn%two_decimals_has_point. discriminate.
Qed.

(** C6 (amended). Edge rendering rule: for every edge of the built graph the
    renderer emits exactly one line-segment primitive between the two endpoint
    positions, red when the weight is positive and blue when it is negative,
    with a hover label made of both endpoint identities and the coefficient;
    when the weight is a finite number the coefficient is written with
    exactly two decimals, those of the nearest hundredth. *)
Theorem edge_rendering (df : DataFrame) (pos : PosMap) :
  covers pos (build_graph df) →
  let G := build_graph df in
  ∃ fig,
    render G pos = Some fig
    ∧ Forall2 (edge_drawn pos) (edges G) (line_primitives fig)
    ∧ (∀ u v w, (u, v, w) ∈ edges G → is_finite w = true →
         ∃ n, two_decimals (format_2f w) n ∧ nearest_hundredth w n)
    ∧ custom_red ≠ custom_blue.
Proof.
  intros Hcov G. destruct (render_built df pos Hcov) as (et & pts & Hr & Het & _).
  fold G in Hr, Het. eexists. split; [exact Hr|].
  split; [|split; [|apply custom_colors_differ]].
  - rewrite line_primitives_app.
    + eapply Forall2_impl; [exact Het|].
      intros e s Hes. by apply edge_scatter_drawn in Hes as [? _].
    + apply Forall_forall. intros s Hs.
      apply list_elem_of_lookup in Hs as [i Hi].
      destruct (Forall2_lookup_r _ _ _ _ _ Het Hi) as (e & _ & Hes).
      by apply edge_scatter_drawn in Hes as [_ ?].
  - intros u v w _ Hfin. by apply format_2f_finite.
Qed.

Lemma edge_rendering_witness :
  let pos := (λ n, (n, (f0, f0))) <$> nodes (build_graph [row_up; row_down]) in
  covers pos (build_graph [row_up; row_down])
  ∧ fmap (M := list) sc_text
      <$> (line_primitives <$> render (build_graph [row_up; row_down]) pos)
    = Some [TextOne "TF1 ↔ L1PA2<br>coef=0.80";
            TextOne "TF1 ↔ AluSx<br>coef=-0.30"].
Proof.
  intros pos. split; [apply covers_origin|].
  destruct (edge_rendering [row_up; row_down] pos (covers_origin _))
    as (fig & Hfig & _).
  rewrite Hfig. vm_compute in Hfig. injection Hfig as <-. reflexivity.
Defined.

Lemma build_graph_no_nodes df : nodes (build_graph df) = [] → df = [].
Proof.
  destruct df as [|r df] using rev_ind; [done|].
  intros Hn. exfalso.
  assert (Hin : KRAB_ZNF r ∈ nodes (build_graph (df ++ [r])))
    by (rewrite build_graph_snoc, elem_of_nodes_add_row; auto).
  rewrite Hn in Hin. by apply elem_of_nil in Hin.
Qed.

(** C7. Empty-graph rendering: when the built graph is empty, the renderer
    returns a figure, for any position map, that holds no line-segment
    primitive and no marker. *)
Theorem empty_graph_rendering (df : DataFrame) (pos : PosMap) :
  nodes (build_graph df) = [] →
  edges (build_graph df) = []
  ∧ ∃ fig,
      render (build_graph df) pos = Some fig
      ∧ line_primitives fig = []
      ∧ marker_count fig = 0.
Proof.
  intros ->%build_graph_no_nodes. split; [done|].
  eexists. split; [reflexivity|]. done.
Qed.

Lemma empty_graph_rendering_witness :
  nodes (build_graph []) = []
  ∧ ∃ fig, render (build_graph []) [] = Some fig ∧ marker_count fig = 0.
Proof.
  split; [reflexivity|].
  destruct (empty_graph_rendering [] [] eq_refl) as (_ & fig & Hr & _ & Hm).
  by exists fig.
Defined.

(** The worked example of the specification: two records, three nodes, two
    edges, the positive edge red and the negative one blue, the border of
    [AluSx] in the colour of the down-regulated category; under
    sign=positive only [TF1 - L1PA2] remains. *)
Example end_to_end_any :
  let df := apply_filters "both" "both" [row_up; row_down] in
  let G := build_graph df in
  nodes G = ["TF1"; "L1PA2"; "AluSx"]
  ∧ edges G = [("TF1", "L1PA2", f_0_8); ("TF1", "AluSx", f_m0_3)]
  ∧ fmap (M := list) sc_line
      <$> (line_primitives <$> chart layout_fails layout_origin df)
    = Some [Some {| line_width := 2; line_color := custom_red |};
            Some {| line_width := 2; line_color := custom_blue |}]
  ∧ node_border_colors <$> chart layout_fails layout_origin df
    = Some ["black"; custom_red; custom_blue].
Proof. vm_compute. repeat split. Qed.

Example end_to_end_positive :
  let df := apply_filters "positive" "both" [row_up; row_down] in
  let G := build_graph df in
  df = [row_up]
  ∧ nodes G = ["TF1"; "L1PA2"]
  ∧ edges G = [("TF1", "L1PA2", f_0_8)]
  ∧ "AluSx" ∉ nodes G.
Proof.
  vm_compute. repeat split.
  intros H. repeat (apply elem_of_cons in H as [H|H]; [discriminate|]).
  by apply elem_of_nil in H.
Qed.

End RendererClaims.

(** ** app.py: the layout call *)

Section LayoutClaims.
Import App.
Implicit Types (G : Graph) (df : DataFrame) (pos : PosMap).

Lemma elem_of_nodes_foldl_add_edge (es : list (string * string * float))
    (G0 : Graph) (n : string) :
  n ∈ nodes (foldl (λ Gp '(u, v, w), add_edge Gp u v (SFabs w)) G0 es)
  ↔ n ∈ nodes G0 ∨ ∃ u v w, (u, v, w) ∈ es ∧ (n = u ∨ n = v).
Proof.
  induction es as [|[[u v] w] es IH] using rev_ind.
  - cbn. split; [auto|]. intros [?|(? & ? & ? & []%elem_of_nil & _)]. done.
  - rewrite foldl_snoc, elem_of_nodes_add_edge, IH. split.
    + intros [->|[->|[?|(u' & v' & w' & Hin & Hn)]]]; auto; right.
      * exists u, v, w. rewrite elem_of_app, list_elem_of_singleton. auto.
      * exists u, v, w. rewrite elem_of_app, list_elem_of_singleton. auto.
      * exists u', v', w'. rewrite elem_of_app. auto.
    + intros [?|(u' & v' & w' & Hin & Hn)]; [auto|].
      rewrite elem_of_app, list_elem_of_singleton in Hin.
      destruct Hin as [Hin|[= -> -> ->]]; [|tauto].
      right; right; right. by exists u', v', w'.
Qed.

Lemma wf_foldl_add_edge (es : list (string * string * float)) (G0 : Graph) :
  wf_graph G0 →
  wf_graph (foldl (λ Gp '(u, v, w), add_edge Gp u v (SFabs w)) G0 es).
Proof.
  intros HG. induction es as [|[[u v] w] es IH] using rev_ind; [done|].
  rewrite foldl_snoc. by apply wf_add_edge.
Qed.

(** The layout graph has the nodes of the built graph. *)
Lemma elem_of_nodes_pos_weight df (n : string) :
  n ∈ nodes (build_pos_weight (build_graph df)) ↔ n ∈ nodes (build_graph df).
Proof.
  pose proof (wf_build_graph df) as HG.
  unfold build_pos_weight. rewrite elem_of_nodes_foldl_add_edge. split.
  - intros [[]%elem_of_nil|(u & v & w & Hin & Hn)].
    apply edges_endpoints in Hin as [Hu Hv]; [|done].
    by destruct Hn as [->| ->].
  - intros (v & w & Hvw)%node_has_edge. right.
    apply edges_complete in Hvw as [Hin|Hin]; [| |done].
    + exists n, v, w. auto.
    + exists v, n, w. auto.
Qed.

Lemma nodes_length_pos_weight df :
  length (nodes (build_pos_weight (build_graph df)))
  = length (nodes (build_graph df)).
Proof.
  apply Permutation_length, NoDup_Permutation.
  - apply (wf_nodup _ (wf_foldl_add_edge _ _ wf_empty_graph)).
  - apply (wf_nodup _ (wf_build_graph df)).
  - apply elem_of_nodes_pos_weight.
Qed.

Lemma build_graph_no_edges df : edges (build_graph df) = [] → df = [].
Proof.
  destruct df as [|r df] using rev_ind; [done|].
  intros He. exfalso.
  assert (Hw : edge_weight (build_graph (df ++ [r])) (KRAB_ZNF r) (Gene r)
               = Some (coef r)).
  { rewrite build_graph_snoc, edge_weight_add_row by apply wf_build_graph.
    rewrite decide_True; [done | by left]. }
  apply edges_complete in Hw; [|apply wf_build_graph].
  rewrite He in Hw. destruct Hw as [[]%elem_of_nil|[]%elem_of_nil].
Qed.

(** The layout functions of networkx and what is assumed of them. *)
Variable kamada_kawai_layout : Graph → option PosMap.
Variable spring_layout : Graph → Z → option PosMap.

Hypothesis kamada_kawai_positions : positions_nodes kamada_kawai_layout.
Hypothesis spring_positions :
  ∀ seed, positions_nodes (λ g, spring_layout g seed).
Hypothesis spring_small : handles_small spring_layout.

(** Whenever the layout step returns, every node of the built graph has a
    position. *)
Lemma compute_pos_covers df pos :
  compute_pos kamada_kawai_layout spring_layout
    (build_pos_weight (build_graph df)) = Some pos →
  covers pos (build_graph df)
  ∧ ∀ n, n ∈ od_keys pos ↔ n ∈ nodes (build_graph df).
Proof.
  intros Hpos.
  assert (Hkeys : ∀ n, n ∈ od_keys pos ↔ n ∈ nodes (build_graph df)).
  { intros n. rewrite <- elem_of_nodes_pos_weight.
    unfold compute_pos in Hpos.
    destruct (kamada_kawai_layout _) as [p|] eqn:Hkk.
    - injection Hpos as ->. by apply kamada_kawai_positions.
    - by apply (spring_positions 42). }
  split; [|done]. intros n Hn. apply od_keys_get. by apply Hkeys.
Qed.

(** C5. Layout robustness and fallback, on the contract of the two networkx
    functions assumed above (a layout that returns gives positions for
    exactly the nodes of its graph; [spring_layout] returns on graphs with at
    most one node): for a built graph with no edge or with exactly one node,
    the layout step returns a position for every node (an empty map for the
    empty graph); and whenever the primary layout raises, the positions are
    those of [spring_layout] with seed 42 on the same graph. *)
Theorem layout_fallback (df : DataFrame) :
  let G := build_graph df in
  let G_pos_weight := build_pos_weight G in
  (edges G = [] ∨ length (nodes G) = 1 →
     ∃ pos,
       compute_pos kamada_kawai_layout spring_layout G_pos_weight = Some pos
       ∧ covers pos G
       ∧ (nodes G = [] → pos = []))
  ∧ (kamada_kawai_layout G_pos_weight = None →
       compute_pos kamada_kawai_layout spring_layout G_pos_weight
       = spring_layout G_pos_weight 42).
Proof.
  intros G Gp. split.
  - intros Hsmall.
    assert (Hlen : length (nodes Gp) ≤ 1).
    { subst Gp G. rewrite nodes_length_pos_weight.
      destruct Hsmall as [->%build_graph_no_edges| ->]; cbn; lia. }
    assert (Hsome : is_Some (compute_pos kamada_kawai_layout spring_layout Gp)).
    { unfold compute_pos. destruct (kamada_kawai_layout Gp); [by eexists|].
      by apply spring_small. }
    destruct Hsome as [pos Hpos]. exists pos. split; [done|].
    destruct (compute_pos_covers df pos Hpos) as [Hcov Hkeys].
    split; [done|]. intros Hnil. fold G in Hkeys. rewrite Hnil in Hkeys.
    destruct pos as [|[n xy] pos]; [done|].
    exfalso. apply (elem_of_nil n), Hkeys. left.
  - intros Hkk. unfold compute_pos. by rewrite Hkk.
Qed.

End LayoutClaims.

Lemma layout_origin_positions seed :
  App.positions_nodes (λ g, App.layout_origin g seed).
Proof.
  intros g pos [= <-] n. unfold od_keys.
  rewrite <- list_fmap_compose. by rewrite list_fmap_id.
Qed.

Lemma layout_fallback_witness :
  let G := App.build_graph [App.row_self] in
  let G_pos_weight := App.build_pos_weight G in
  App.positions_nodes App.layout_fails
  ∧ (∀ seed, App.positions_nodes (λ g, App.layout_origin g seed))
  ∧ App.handles_small App.layout_origin
  ∧ length (App.nodes G) = 1
  ∧ App.layout_fails G_pos_weight = None
  ∧ App.compute_pos App.layout_fails App.layout_origin G_pos_weight
    = Some [("ZNF91", (f0, f0))]
  ∧ ∃ pos,
      App.compute_pos App.layout_fails App.layout_origin G_pos_weight = Some pos
      ∧ App.covers pos G.
Proof.
  intros G Gp.
  assert (H1 : App.positions_nodes App.layout_fails) by (intros g pos [=]).
  assert (H3 : App.handles_small App.layout_origin)
    by (intros g seed _; by eexists).
  destruct (layout_fallback App.layout_fails App.layout_origin H1
              layout_origin_positions H3 [App.row_self]) as [Hsmall Hfall].
  split; [exact H1|]. split; [exact layout_origin_positions|].
  split; [exact H3|]. split; [reflexivity|]. split; [reflexivity|].
  split.
  - fold G Gp in Hfall. rewrite (Hfall eq_refl). reflexivity.
  - destruct (Hsmall (or_intror eq_refl)) as (pos & Hpos & Hcov & _).
    by exists pos.
Defined.

(** ** pandas frames *)

Section Frames.
Import Pandas.
Implicit Types (df : DataFrame) (r : odict cell) (c : string) (v : cell).

Lemma row_get_set r c v c' :
  row_get (od_set r c v) c' = if decide (c = c') then v else row_get r c'.
Proof. unfold row_get. rewrite od_get_set. by case_decide. Qed.

Lemma row_get_set_eq r c v : row_get (od_set r c v) c = v.
Proof. by rewrite row_get_set, decide_True. Qed.

Lemma row_get_set_ne r c v c' :
  c ≠ c' → row_get (od_set r c v) c' = row_get r c'.
Proof. intros Hne. by rewrite row_get_set, decide_False. Qed.

Lemma map_column_Some (f : cell → option cell) df c df' :
  map_column f df c = Some df' →
  c ∈ columns df
  ∧ columns df' = columns df
  ∧ Forall2 (λ r r', ∃ v, f (row_get r c) = Some v ∧ r' = od_set r c v)
      (rows df) (rows df').
Proof.
  unfold map_column. case_decide as Hc; [|done].
  destruct (mapM _ (rows df)) as [rs|] eqn:Hrs; [|done].
  cbn. intros [= <-]. split; [done|]. split; [done|]. cbn.
  apply mapM_Some in Hrs. eapply Forall2_impl; [exact Hrs|].
  cbn. intros r r' Hr. destruct (f (row_get r c)) as [v|]; [|done].
  cbn in Hr. injection Hr as <-. by exists v.
Qed.

Lemma map_column_is_Some (f : cell → option cell) df c :
  c ∈ columns df →
  (∀ r, r ∈ rows df → is_Some (f (row_get r c))) →
  is_Some (map_column f df c).
Proof.
  intros Hc Hf. unfold map_column. rewrite decide_True by done.
  assert (Hm : is_Some (mapM (λ r, v ← f (row_get r c); Some (od_set r c v))
                          (rows df))).
  { apply mapM_is_Some, Forall_forall. intros r Hr.
    destruct (Hf r Hr) as [v Hv]. cbn. rewrite Hv. by eexists. }
  destruct Hm as [rs ->]. by eexists.
Qed.

Lemma select_cmp_Some (cmp : cell → cell → option bool) df c v df' :
  select_cmp cmp df c v = Some df' →
  c ∈ columns df
  ∧ df' = select (λ r, cmp (row_get r c) v = Some true) df.
Proof.
  unfold select_cmp. case_decide; [|done].
  destruct (mapM _ (rows df)); [|done]. cbn. by intros [= <-].
Qed.

Lemma select_cmp_is_Some (cmp : cell → cell → option bool) df c v :
  c ∈ columns df →
  (∀ r, r ∈ rows df → is_Some (cmp (row_get r c) v)) →
  is_Some (select_cmp cmp df c v).
Proof.
  intros Hc Hcmp. unfold select_cmp. rewrite decide_True by done.
  assert (Hm : is_Some (mapM (λ r, cmp (row_get r c) v) (rows df)))
    by (apply mapM_is_Some, Forall_forall; intros r Hr; by apply Hcmp).
  destruct Hm as [mask ->]. by eexists.
Qed.

End Frames.

(** ** app_previous.py: the loader *)

Section LoaderClaims.
Import Pandas AppPrevious.
Variable parse_number : string → option num.
Implicit Types (df : DataFrame) (r : odict cell) (c : string).

Local Abbreviation to_numeric := (to_numeric parse_number).
Local Abbreviation clean_int := (clean_int parse_number).
Local Abbreviation clean_float := (clean_float parse_number).

Lemma ensure_columns_fold (l : list string) df :
  let df' := foldl (λ df col, if decide (col ∈ columns df) then df
                              else set_column df col (CStr "")) df l in
  (∀ c, c ∈ columns df' ↔ c ∈ columns df ∨ c ∈ l)
  ∧ Forall2 (λ r r', ∀ c, row_get r' c
                          = if decide (c ∈ l ∧ c ∉ columns df) then CStr ""
                            else row_get r c)
      (rows df) (rows df').
Proof.
  induction l as [|col l IH] using rev_ind; cbn zeta.
  - cbn. split.
    + intros c. rewrite elem_of_nil. tauto.
    + apply Forall_Forall2_diag, Forall_forall. intros r _ c.
      rewrite decide_False; [done|]. rewrite elem_of_nil. tauto.
  - rewrite foldl_snoc. cbn zeta in IH. destruct IH as [Hcols Hrows].
    set (df1 := foldl _ df l) in *.
    case_decide as Hin.
    + split.
      * intros c. rewrite Hcols, elem_of_app, list_elem_of_singleton.
        apply Hcols in Hin. naive_solver.
      * eapply Forall2_impl; [exact Hrows|]. intros r r' Hr c. cbn beta.
        rewrite Hr. apply Hcols in Hin.
        repeat case_decide; try done;
          rewrite elem_of_app, list_elem_of_singleton in *; naive_solver.
    + split.
      * intros c. unfold set_column; cbn [columns].
        rewrite decide_False by done.
        rewrite !elem_of_app, Hcols, list_elem_of_singleton. tauto.
      * unfold set_column; cbn [rows]. apply Forall2_fmap_r.
        eapply Forall2_impl; [exact Hrows|]. intros r r' Hr c. cbn beta.
        rewrite row_get_set, Hr. rewrite Hcols in Hin.
        repeat case_decide; try done;
          rewrite elem_of_app, list_elem_of_singleton in *; naive_solver.
Qed.

Lemma ensure_columns_spec df :
  (∀ c, c ∈ columns (ensure_columns df) ↔ c ∈ columns df ∨ c ∈ required_columns)
  ∧ Forall2 (λ r r', ∀ c, row_get r' c = synthesized df r c)
      (rows df) (rows (ensure_columns df)).
Proof. apply ensure_columns_fold. Qed.

Lemma load_csv_data_rows df out :
  load_csv_data_try parse_number df = Some out →
  (∀ c, c ∈ columns out ↔ c ∈ columns df ∨ c ∈ required_columns)
  ∧ ∀ r', r' ∈ rows out →
      essential r'
      ∧ ∃ r, r ∈ rows df
             ∧ ∀ c, cleaned parse_number c (synthesized df r c)
                    = Some (row_get r' c).
Proof.
  unfold load_csv_data_try.
  destruct (ensure_columns_spec df) as [Hcols0 Hrows0].
  destruct (map_column _ (ensure_columns df) "start") as [df1|] eqn:E1;
    [cbn [mbind option_bind]|done].
  destruct (map_column clean_int df1 "end") as [df2|] eqn:E2;
    [cbn [mbind option_bind]|done].
  destruct (map_column clean_float df2 "pvalue") as [df3|] eqn:E3;
    [cbn [mbind option_bind]|done].
  destruct (map_column clean_int df3 "length") as [df4|] eqn:E4;
    [cbn [mbind option_bind]|done].
  intros [= <-].
  apply map_column_Some in E1 as (_ & Hc1 & Hr1).
  apply map_column_Some in E2 as (_ & Hc2 & Hr2).
  apply map_column_Some in E3 as (_ & Hc3 & Hr3).
  apply map_column_Some in E4 as (_ & Hc4 & Hr4).
  split.
  - intros c. cbn. by rewrite Hc4, Hc3, Hc2, Hc1.
  - intros r' [Hess Hin]%list_elem_of_filter. split; [done|].
    apply list_elem_of_lookup in Hin as [i Hi].
    destruct (Forall2_lookup_r _ _ _ _ _ Hr4 Hi) as (r3 & Hi3 & v4 & Hv4 & ->).
    destruct (Forall2_lookup_r _ _ _ _ _ Hr3 Hi3) as (r2 & Hi2 & v3 & Hv3 & ->).
    destruct (Forall2_lookup_r _ _ _ _ _ Hr2 Hi2) as (r1 & Hi1 & v2 & Hv2 & ->).
    destruct (Forall2_lookup_r _ _ _ _ _ Hr1 Hi1) as (r0 & Hi0 & v1 & Hv1 & ->).
    destruct (Forall2_lookup_r _ _ _ _ _ Hrows0 Hi0) as (r & Hir & Hsyn).
    exists r. split; [by eapply list_elem_of_lookup_2|].
    rewrite !row_get_set_ne in Hv4 by discriminate.
    rewrite !row_get_set_ne in Hv3 by discriminate.
    rewrite !row_get_set_ne in Hv2 by discriminate.
    rewrite Hsyn in Hv1, Hv2, Hv3, Hv4.
    intros c. rewrite !row_get_set, Hsyn. unfold cleaned, int_columns.
    repeat case_decide; subst; try done;
      repeat match goal with
             | H : _ ∈ _ :: _ |- _ => apply elem_of_cons in H as [H|H]
             | H : _ ∈ [] |- _ => by apply elem_of_nil in H
             | H : _ ∉ _ |- _ => exfalso; apply H; by repeat constructor
             end; congruence.
Qed.

Lemma clean_int_is_Some (v : cell) :
  ¬ is_infinite (to_numeric v) → is_Some (clean_int v).
Proof.
  unfold AppPrevious.clean_int. intros Hinf.
  destruct (to_numeric v) as [z|[s|s| |s m e]]; cbn in *;
    first [by destruct Hinf | eexists; reflexivity].
Qed.

Lemma clean_non_parseable c (v : cell) :
  c ∈ numeric_columns → non_parseable parse_number v →
  cleaned parse_number c v = Some (zero_of c).
Proof.
  intros Hc Hv.
  assert (Hnan : to_numeric v = NFloat S754_nan).
  { destruct v as [s|[z|[]]]; cbn in *; try done. by rewrite Hv. }
  unfold numeric_columns in Hc. rewrite !elem_of_cons, elem_of_nil in Hc.
  destruct Hc as [->|[->|[->|[->|[]]]]];
    unfold cleaned, AppPrevious.clean_int, AppPrevious.clean_float;
    rewrite Hnan; reflexivity.
Qed.

Lemma load_csv_data_accepts df :
  (∀ r c, r ∈ rows df → c ∈ int_columns →
     ¬ is_infinite (to_numeric (synthesized df r c))) →
  is_Some (load_csv_data_try parse_number df).
Proof.
  intros Hfin. unfold load_csv_data_try.
  destruct (ensure_columns_spec df) as [Hcols0 Hrows0].
  assert (Hreq : ∀ c, c ∈ required_columns → c ∈ columns (ensure_columns df))
    by (intros c Hc; apply Hcols0; by right).
  assert (Hint : ∀ c, c ∈ int_columns → c ∈ required_columns).
  { intros c. unfold int_columns, required_columns.
    rewrite !elem_of_cons, elem_of_nil.
    intros [->|[->|[->|[]]]]; tauto. }
  destruct (map_column_is_Some clean_int (ensure_columns df) "start")
    as [df1 E1].
  { apply Hreq. by repeat constructor. }
  { intros r1 [i Hi]%list_elem_of_lookup.
    destruct (Forall2_lookup_r _ _ _ _ _ Hrows0 Hi) as (r & Hir & Hsyn).
    rewrite Hsyn. apply clean_int_is_Some, Hfin;
      [by eapply list_elem_of_lookup_2 | by repeat constructor]. }
  rewrite E1; cbn [mbind option_bind].
  apply map_column_Some in E1 as (_ & Hc1 & Hr1).
  destruct (map_column_is_Some clean_int df1 "end") as [df2 E2].
  { rewrite Hc1. apply Hreq. by repeat constructor. }
  { intros r2 [i Hi]%list_elem_of_lookup.
    destruct (Forall2_lookup_r _ _ _ _ _ Hr1 Hi) as (r1 & Hi1 & v1 & _ & ->).
    destruct (Forall2_lookup_r _ _ _ _ _ Hrows0 Hi1) as (r & Hir & Hsyn).
    rewrite row_get_set_ne by discriminate.
    rewrite Hsyn. apply clean_int_is_Some, Hfin;
      [by eapply list_elem_of_lookup_2 | by repeat constructor]. }
  rewrite E2; cbn [mbind option_bind].
  apply map_column_Some in E2 as (_ & Hc2 & Hr2).
  destruct (map_column_is_Some clean_float df2 "pvalue") as [df3 E3].
  { rewrite Hc2, Hc1. apply Hreq. by repeat constructor. }
  { intros r3 _. by eexists. }
  rewrite E3; cbn [mbind option_bind].
  apply map_column_Some in E3 as (_ & Hc3 & Hr3).
  destruct (map_column_is_Some clean_int df3 "length") as [df4 E4].
  { rewrite Hc3, Hc2, Hc1. apply Hreq. by repeat constructor. }
  { intros r4 [i Hi]%list_elem_of_lookup.
    destruct (Forall2_lookup_r _ _ _ _ _ Hr3 Hi) as (r3 & Hi3 & v3 & _ & ->).
    destruct (Forall2_lookup_r _ _ _ _ _ Hr2 Hi3) as (r2 & Hi2 & v2 & _ & ->).
    destruct (Forall2_lookup_r _ _ _ _ _ Hr1 Hi2) as (r1 & Hi1 & v1 & _ & ->).
    destruct (Forall2_lookup_r _ _ _ _ _ Hrows0 Hi1) as (r & Hir & Hsyn).
    rewrite !row_get_set_ne by discriminate.
    rewrite Hsyn. apply clean_int_is_Some, Hfin;
      [by eapply list_elem_of_lookup_2 | by repeat constructor]. }
  rewrite E4; cbn [mbind option_bind]. by eexists.
Qed.


End LoaderClaims.


(** ** app_previous.py and utils/sidebar_filters.py: the table filters *)

Section TableFilters.
Import Pandas AppPrevious SidebarFilters.
Implicit Types (df : DataFrame) (r : odict cell) (filters : odict cell).

Lemma filter_step_spec df (item : string * cell) :
  columns (filter_step df item) = columns df
  ∧ rows (filter_step df item) `sublist_of` rows df
  ∧ ∀ r, r ∈ rows (filter_step df item)
         ↔ r ∈ rows df
           ∧ (truthy item.2 = true → item.1 ∈ columns df →
              item.1 ∉ numeric_keys →
              cell_eqb (row_get r item.1) item.2 = true).
Proof.
  destruct item as [column value]. unfold filter_step. cbn [fst snd].
  destruct (truthy value); cbn [andb]; [|naive_solver].
  case_bool_decide as Hc; [|naive_solver].
  case_bool_decide as Hk; [naive_solver|].
  cbn [select columns rows]. split; [done|]. split; [apply sublist_filter|].
  intros r. rewrite list_elem_of_filter. naive_solver.
Qed.

Lemma foldl_filter_step_spec df filters :
  columns (foldl filter_step df filters) = columns df
  ∧ rows (foldl filter_step df filters) `sublist_of` rows df
  ∧ ∀ r, r ∈ rows (foldl filter_step df filters)
         ↔ r ∈ rows df ∧ passes_equalities df filters r.
Proof.
  unfold passes_equalities.
  induction filters as [|[column value] filters IH] using rev_ind.
  - cbn. split; [done|]. split; [done|]. intros r.
    split; [|tauto]. intros Hr. split; [done|].
    intros ? ? []%elem_of_nil.
  - rewrite foldl_snoc. destruct IH as (Hcols & Hsub & Hrows).
    destruct (filter_step_spec (foldl filter_step df filters) (column, value))
      as (Hcols' & Hsub' & Hrows').
    split; [congruence|]. split; [by etrans|].
    intros r. rewrite Hrows', Hrows, Hcols. cbn [fst snd]. split.
    + intros [[Hr Hall] Hlast]. split; [done|].
      intros c v [Hin|[= -> ->]%list_elem_of_singleton]%elem_of_app; auto.
    + intros [Hr Hall]. split; [split; [done|]|].
      * intros c v Hin. apply Hall. rewrite elem_of_app. by left.
      * apply Hall. rewrite elem_of_app, list_elem_of_singleton. by right.
Qed.

Lemma threshold_step_spec cmp filters key column df out :
  threshold_step cmp filters key column df = Some out →
  columns out = columns df
  ∧ rows out `sublist_of` rows df
  ∧ ∀ r, r ∈ rows out
         ↔ r ∈ rows df ∧ passes_threshold cmp filters key column r.
Proof.
  unfold threshold_step, passes_threshold, threshold.
  destruct (od_get filters key) as [v|]; [|intros [= <-]; naive_solver].
  destruct (truthy v); [|intros [= <-]; naive_solver].
  intros [_ ->]%select_cmp_Some. cbn [select columns rows].
  split; [done|]. split; [apply sublist_filter|].
  intros r. rewrite list_elem_of_filter. naive_solver.
Qed.

Lemma threshold_step_is_Some cmp filters key column df :
  (∀ v, threshold filters key = Some v →
        column ∈ columns df
        ∧ ∀ r, r ∈ rows df → is_Some (cmp (row_get r column) v)) →
  is_Some (threshold_step cmp filters key column df).
Proof.
  unfold threshold_step, threshold.
  destruct (od_get filters key) as [v|]; [|by eexists].
  destruct (truthy v); [|by eexists].
  intros Hv. destruct (Hv v eq_refl) as [Hc Hcmp].
  by apply select_cmp_is_Some.
Qed.

Lemma isin_step_spec (selection : list cell) column df out :
  isin_step selection column df = Some out →
  columns out = columns df
  ∧ rows out `sublist_of` rows df
  ∧ ∀ r, r ∈ rows out
         ↔ r ∈ rows df
           ∧ (selection ≠ [] → cell_isin (row_get r column) selection = true).
Proof.
  unfold isin_step. destruct selection as [|v selection].
  - intros [= <-]. naive_solver.
  - case_decide; [|done]. intros [= <-]. cbn [select columns rows].
    split; [done|]. split; [apply sublist_filter|].
    intros r. rewrite list_elem_of_filter. naive_solver.
Qed.

Lemma isin_step_is_Some (selection : list cell) column df :
  column ∈ columns df → is_Some (isin_step selection column df).
Proof.
  intros Hc. unfold isin_step. destruct selection; [by eexists|].
  rewrite decide_True by done. by eexists.
Qed.

(** C9, as stated, fails: with the maximum p-value left at its default 0 (and
    every other widget untouched) [filter_data] returns the whole table,
    although it holds a row whose p-value is above 0. *)
Lemma table_filter_counterexample :
  filter_data sample_table default_filters = Some sample_table
  ∧ od_get default_filters "pvalue_max" = Some (CNum (NFloat f0))
  ∧ ∃ r, r ∈ rows sample_table
         ∧ cell_leb (row_get r "pvalue") (CNum (NFloat f0)) = Some false.
Proof.
  split; [reflexivity|]. split; [reflexivity|].
  eexists. split; [left|]. reflexivity.
Qed.

(** C9 (amended). Tabular dashboard filter contract: the output of
    [filter_data] holds exactly the input rows that equal the chosen value in
    every column with a non-empty choice and that satisfy pvalue <= maximum
    and length >= minimum, each threshold being applied only when it is not
    zero; the output of [filter_dataframe] holds exactly the input rows whose
    cell belongs to the selection in every column with a non-empty selection,
    without numeric threshold.  Both keep the columns and return a sub-list of
    the input rows, and both return when the columns they read exist (and,
    for the thresholds, hold numbers). *)
Theorem table_filter_contract (df : DataFrame) (filters : odict cell)
    (selection : Filters) :
  (∀ out, filter_data df filters = Some out →
     columns out = columns df
     ∧ rows out `sublist_of` rows df
     ∧ ∀ r, r ∈ rows out
            ↔ r ∈ rows df
              ∧ passes_equalities df filters r
              ∧ passes_threshold cell_leb filters "pvalue_max" "pvalue" r
              ∧ passes_threshold cell_geb filters "length_min" "length" r)
  ∧ (numeric_column df "pvalue" → numeric_column df "length" →
     numeric_threshold filters "pvalue_max" →
     numeric_threshold filters "length_min" →
     is_Some (filter_data df filters))
  ∧ (∀ out, filter_dataframe df selection = Some out →
       columns out = columns df
       ∧ rows out `sublist_of` rows df
       ∧ ∀ r, r ∈ rows out ↔ r ∈ rows df ∧ passes_selections selection r)
  ∧ ((∀ c, c ∈ (selections selection).*1 → c ∈ columns df) →
     is_Some (filter_dataframe df selection)).
Proof.
  destruct (foldl_filter_step_spec df filters) as (Hc0 & Hs0 & Hr0).
  split; [|split; [|split]].
  - intros out. unfold filter_data.
    destruct (threshold_step cell_leb _ _ _ _) as [df1|] eqn:E1; [|done].
    cbn [mbind option_bind]. intros E2.
    apply threshold_step_spec in E1 as (Hc1 & Hs1 & Hr1).
    apply threshold_step_spec in E2 as (Hc2 & Hs2 & Hr2).
    split; [congruence|]. split; [by repeat (etrans; [eassumption|])|].
    intros r. rewrite Hr2, Hr1, Hr0. tauto.
  - intros [Hpc Hpn] [Hlc Hln] Hpt Hlt. unfold filter_data.
    assert (Hthr : ∀ key v, numeric_threshold filters key →
                            threshold filters key = Some v → ∃ n, v = CNum n).
    { intros key v Hnum. unfold threshold.
      destruct (od_get filters key) as [v'|] eqn:E; [|done].
      destruct (truthy v'); [|done]. intros [= ->]. by apply Hnum. }
    destruct (threshold_step_is_Some cell_leb filters "pvalue_max" "pvalue"
                (foldl filter_step df filters)) as [df1 E1].
    { intros v [n ->]%Hthr; [|done]. split; [by rewrite Hc0|].
      intros r Hr. apply Hr0 in Hr as [Hr _].
      destruct (Hpn r Hr) as [m ->]. by eexists. }
    rewrite E1. cbn [mbind option_bind].
    apply threshold_step_spec in E1 as (Hc1 & Hs1 & Hr1).
    apply threshold_step_is_Some.
    intros v [n ->]%Hthr; [|done]. split; [by rewrite Hc1, Hc0|].
    intros r Hr. apply Hr1 in Hr as [Hr _]. apply Hr0 in Hr as [Hr _].
    destruct (Hln r Hr) as [m ->]. by eexists.
  - intros out. unfold filter_dataframe.
    destruct (isin_step (chrom selection) _ _) as [d1|] eqn:E1;
      [cbn [mbind option_bind]|done].
    destruct (isin_step (motif selection) _ _) as [d2|] eqn:E2;
      [cbn [mbind option_bind]|done].
    destruct (isin_step (te selection) _ _) as [d3|] eqn:E3;
      [cbn [mbind option_bind]|done].
    destruct (isin_step (family selection) _ _) as [d4|] eqn:E4;
      [cbn [mbind option_bind]|done].
    destruct (isin_step (class selection) _ _) as [d5|] eqn:E5;
      [cbn [mbind option_bind]|done].
    destruct (isin_step (species selection) _ _) as [d6|] eqn:E6;
      [cbn [mbind option_bind]|done].
    intros E7.
    apply isin_step_spec in E1 as (C1 & S1 & R1).
    apply isin_step_spec in E2 as (C2 & S2 & R2).
    apply isin_step_spec in E3 as (C3 & S3 & R3).
    apply isin_step_spec in E4 as (C4 & S4 & R4).
    apply isin_step_spec in E5 as (C5 & S5 & R5).
    apply isin_step_spec in E6 as (C6 & S6 & R6).
    apply isin_step_spec in E7 as (C7 & S7 & R7).
    split; [congruence|]. split; [by repeat (etrans; [eassumption|])|].
    intros r. rewrite R7, R6, R5, R4, R3, R2, R1.
    unfold passes_selections, selections. split.
    + intros (((((((Hr & H1) & H2) & H3) & H4) & H5) & H6) & H7).
      split; [done|]. intros c sel Hin.
      repeat (apply elem_of_cons in Hin as [[= -> ->]|Hin]; [done|]).
      by apply elem_of_nil in Hin.
    + intros [Hr Hall].
      repeat split; try done; intros Hne; apply Hall; try done;
        by repeat constructor.
  - intros Hcols. unfold filter_dataframe.
    assert (Hin : ∀ c, c ∈ ["CHROM"; "MOTIF"; "TE"; "FAMILY"; "CLASS";
                            "SPECIES"; "GENE"] → c ∈ columns df)
      by (intros c Hc; by apply Hcols).
    destruct (isin_step_is_Some (chrom selection) "CHROM" df) as [d1 E1];
      [apply Hin; by repeat constructor|].
    rewrite E1; cbn [mbind option_bind].
    apply isin_step_spec in E1 as (C1 & _).
    destruct (isin_step_is_Some (motif selection) "MOTIF" d1) as [d2 E2];
      [rewrite C1; apply Hin; by repeat constructor|].
    rewrite E2; cbn [mbind option_bind].
    apply isin_step_spec in E2 as (C2 & _). rewrite C1 in C2.
    destruct (isin_step_is_Some (te selection) "TE" d2) as [d3 E3];
      [rewrite C2; apply Hin; by repeat constructor|].
    rewrite E3; cbn [mbind option_bind].
    apply isin_step_spec in E3 as (C3 & _). rewrite C2 in C3.
    destruct (isin_step_is_Some (family selection) "FAMILY" d3) as [d4 E4];
      [rewrite C3; apply Hin; by repeat constructor|].
    rewrite E4; cbn [mbind option_bind].
    apply isin_step_spec in E4 as (C4 & _). rewrite C3 in C4.
    destruct (isin_step_is_Some (class selection) "CLASS" d4) as [d5 E5];
      [rewrite C4; apply Hin; by repeat constructor|].
    rewrite E5; cbn [mbind option_bind].
    apply isin_step_spec in E5 as (C5 & _). rewrite C4 in C5.
    destruct (isin_step_is_Some (species selection) "SPECIES" d5) as [d6 E6];
      [rewrite C5; apply Hin; by repeat constructor|].
    rewrite E6; cbn [mbind option_bind].
    apply isin_step_spec in E6 as (C6 & _). rewrite C5 in C6.
    apply isin_step_is_Some. rewrite C6. apply Hin. by repeat constructor.
Qed.

End TableFilters.

Lemma table_filter_contract_witness :
  let filters := [("chr", Pandas.CStr "chr2");
                  ("pvalue_max", Pandas.CNum (Pandas.NFloat App.f_0_5));
                  ("length_min", Pandas.CNum (Pandas.NInt 10))] in
  ∃ out,
    AppPrevious.filter_data AppPrevious.sample_table filters = Some out
    ∧ Pandas.rows out `sublist_of` Pandas.rows AppPrevious.sample_table
    ∧ (λ r, Pandas.row_get r "chr") <$> Pandas.rows out = [Pandas.CStr "chr2"].
Proof.
  intros filters.
  destruct (AppPrevious.filter_data AppPrevious.sample_table filters)
    as [out|] eqn:Hout; [|by vm_compute in Hout].
  exists out. split; [done|].
  destruct (table_filter_contract AppPrevious.sample_table filters
              SidebarFilters.no_selection) as (Hdata & _).
  split; [by apply Hdata|].
  vm_compute in Hout. injection Hout as <-. reflexivity.
Defined.

(** ** utils/swarmplot.py *)

Section StripPlot.
Import Pandas Swarmplot.
Implicit Types (df : DataFrame) (r : odict cell).

Lemma assign_Some (f : odict cell → option cell) df (c : string) df' :
  assign f df c = Some df' →
  (∀ c', c' ∈ columns df → c' ∈ columns df')
  ∧ Forall2 (λ r r', ∃ v, f r = Some v ∧ r' = od_set r c v)
      (rows df) (rows df').
Proof.
  unfold assign. destruct (mapM _ (rows df)) as [rs|] eqn:Hrs; [|done].
  cbn. intros [= <-]. cbn. split.
  - intros c' Hc'. case_decide; [done|]. rewrite elem_of_app. by left.
  - apply mapM_Some in Hrs. eapply Forall2_impl; [exact Hrs|].
    intros r r' Hr. cbn beta in Hr. destruct (f r) as [v|]; [|done].
    cbn in Hr. injection Hr as <-. by exists v.
Qed.

Lemma assign_is_Some (f : odict cell → option cell) df (c : string) :
  (∀ r, r ∈ rows df → is_Some (f r)) → is_Some (assign f df c).
Proof.
  intros Hf. unfold assign.
  assert (Hm : is_Some (mapM (λ r, v ← f r; Some (od_set r c v)) (rows df))).
  { apply mapM_is_Some, Forall_forall. intros r Hr.
    destruct (Hf r Hr) as [v Hv]. cbn. rewrite Hv. by eexists. }
  destruct Hm as [rs ->]. by eexists.
Qed.

Lemma chrom_in_spec df (c : string) :
  chrom_in df c ↔ ∃ r, r ∈ rows df ∧ row_get r "CHROM" = CStr c.
Proof.
  unfold chrom_in. rewrite existsb_exists. split.
  - intros (r & Hr%list_elem_of_In & Heq). exists r. split; [done|].
    destruct (row_get r "CHROM") as [s|n]; [|done].
    cbn in Heq. by apply bool_decide_eq_true in Heq as ->.
  - intros (r & Hr & Heq). exists r. split; [by apply list_elem_of_In|].
    rewrite Heq. cbn. by apply bool_decide_eq_true.
Qed.

Lemma chrom_order_explicit :
  chrom_order
  = ["chr1"; "chr2"; "chr3"; "chr4"; "chr5"; "chr6"; "chr7"; "chr8"; "chr9";
     "chr10"; "chr11"; "chr12"; "chr13"; "chr14"; "chr15"; "chr16"; "chr17";
     "chr18"; "chr19"; "chr20"; "chr21"; "chr22"; "chrX"; "chrY"].
Proof. reflexivity. Qed.



End StripPlot.

(** * Further properties of the code *)

(** ** app.py: the layout graph *)

Section LayoutGraph.
Import App AppChart.
Implicit Types (G : Graph) (df : DataFrame) (u v : string) (w : float).

Lemma SFabs_not_negative w : flt (SFabs w) f0 = false.
Proof. by destruct w as [[]|[]| |[] m e]. Qed.

Lemma edge_weight_foldl_other (es : list (string * string * float)) G u v :
  wf_graph G →
  (∀ a b w, (a, b, w) ∈ es → ¬ ((u = a ∧ v = b) ∨ (u = b ∧ v = a))) →
  edge_weight (foldl (λ Gp '(a, b, w), add_edge Gp a b (SFabs w)) G es) u v
  = edge_weight G u v.
Proof.
  intros HG. induction es as [|[[a b] w] es IH] using rev_ind; intros Hno.
  - done.
  - rewrite foldl_snoc, edge_weight_add_edge by by apply wf_foldl_add_edge.
    rewrite decide_False.
    + apply IH. intros a' b' w' Hin. apply (Hno a' b' w').
      rewrite elem_of_app. by left.
    + apply (Hno a b w). rewrite elem_of_app, list_elem_of_singleton. by right.
Qed.

Lemma edge_weight_foldl_same (es : list (string * string * float)) G u v w :
  wf_graph G →
  (∃ a b, (a, b, w) ∈ es ∧ ((u = a ∧ v = b) ∨ (u = b ∧ v = a))) →
  (∀ a b w', (a, b, w') ∈ es → (u = a ∧ v = b) ∨ (u = b ∧ v = a) → w' = w) →
  edge_weight (foldl (λ Gp '(a, b, w), add_edge Gp a b (SFabs w)) G es) u v
  = Some (SFabs w).
Proof.
  intros HG. induction es as [|[[a b] w'] es IH] using rev_ind;
    intros (a0 & b0 & Hin & Huv) Hsame.
  - by apply elem_of_nil in Hin.
  - rewrite foldl_snoc, edge_weight_add_edge by by apply wf_foldl_add_edge.
    case_decide as Hlast.
    + rewrite (Hsame a b w'); [done| |done].
      rewrite elem_of_app, list_elem_of_singleton. by right.
    + apply IH.
      * rewrite elem_of_app, list_elem_of_singleton in Hin.
        destruct Hin as [Hin|[= -> -> ->]]; [|done]. by exists a0, b0.
      * intros a' b' w'' Hin'. apply (Hsame a' b' w'').
        rewrite elem_of_app. by left.
Qed.

(** X1. The graph handed to the layout has the nodes of the built graph and
    the same edges, each with the absolute value of its weight; none of its
    weights is negative. *)
Theorem layout_graph_topology (df : DataFrame) :
  let G := build_graph df in
  let G_pos_weight := build_pos_weight G in
  (∀ n, n ∈ nodes G_pos_weight ↔ n ∈ nodes G)
  ∧ (∀ u v, edge_weight G_pos_weight u v = SFabs <$> edge_weight G u v)
  ∧ (∀ u v w, edge_weight G_pos_weight u v = Some w → flt w f0 = false).
Proof.
  intros G Gp. pose proof (wf_build_graph df) as HG. fold G in HG.
  assert (Hw : ∀ u v, edge_weight Gp u v = SFabs <$> edge_weight G u v).
  { intros u v. subst Gp. unfold build_pos_weight.
    destruct (edge_weight G u v) as [w|] eqn:Huv; cbn.
    - apply edge_weight_foldl_same; [apply wf_empty_graph| |].
      + apply edges_complete in Huv as [Hin|Hin]; [| |done].
        * exists u, v. auto.
        * exists v, u. auto.
      + intros a b w' Hin Hm. apply edges_sound in Hin; [|done].
        destruct Hm as [[-> ->]|[-> ->]]; [congruence|].
        rewrite edge_weight_nbrs, <- (wf_sym _ HG), <- edge_weight_nbrs in Hin.
        congruence.
    - rewrite edge_weight_foldl_other; [done|apply wf_empty_graph|].
      intros a b w Hin Hm. apply edges_sound in Hin; [|done].
      destruct Hm as [[-> ->]|[-> ->]]; [congruence|].
      rewrite edge_weight_nbrs, <- (wf_sym _ HG), <- edge_weight_nbrs in Hin.
      congruence. }
  split; [apply elem_of_nodes_pos_weight|]. split; [done|].
  intros u v w. rewrite Hw. destruct (edge_weight G u v) as [w0|]; [|done].
  intros [= <-]. apply SFabs_not_negative.
Qed.

End LayoutGraph.

(** ** app.py: the graph and the table shown under it *)

Section GraphAndTable.
Import App AppChart.
Implicit Types (G : Graph) (df : DataFrame) (r : Row) (u v : string) (w : float).

Lemma links_sym r u v : links r u v → links r v u.
Proof. unfold links. tauto. Qed.

(** The weight between two identifiers comes from the last record that
    connects them. *)
Lemma edge_weight_build_inv df u v w :
  edge_weight (build_graph df) u v = Some w →
  ∃ df1 r df2,
    df = df1 ++ r :: df2 ∧ links r u v
    ∧ (∀ r', r' ∈ df2 → ¬ links r' u v) ∧ w = coef r.
Proof.
  induction df as [|r df IH] using rev_ind; [done|].
  rewrite build_graph_snoc, edge_weight_add_row by apply wf_build_graph.
  case_decide as Hl.
  - intros [= <-]. exists df, r, []. split; [done|]. split; [done|].
    split; [|done]. intros r' Hr'. by apply elem_of_nil in Hr'.
  - intros (df1 & r0 & df2 & -> & Hl0 & Hno & ->)%IH.
    exists df1, r0, (df2 ++ [r]). split; [by rewrite <- app_assoc|].
    split; [done|]. split; [|done].
    intros r' [Hr'| ->%list_elem_of_singleton]%elem_of_app; auto.
Qed.

Lemma edge_weight_of_row df r :
  r ∈ df → is_Some (edge_weight (build_graph df) (KRAB_ZNF r) (Gene r)).
Proof.
  induction df as [|r0 df IH] using rev_ind.
  - intros Hr. by apply elem_of_nil in Hr.
  - rewrite build_graph_snoc, edge_weight_add_row by apply wf_build_graph.
    intros [Hr| ->%list_elem_of_singleton]%elem_of_app.
    + case_decide; [by eexists | auto].
    + rewrite decide_True; [by eexists | by left].
Qed.

Lemma edge_pair_of_row df u v w :
  (u, v, w) ∈ edges (build_graph df) →
  (u, v) ∈ pairs df ∨ (v, u) ∈ pairs df.
Proof.
  intros Hin. apply edges_sound in Hin; [|apply wf_build_graph].
  apply edge_weight_build_inv in Hin as (df1 & r & df2 & -> & Hl & _).
  assert (Hr : (KRAB_ZNF r, Gene r) ∈ pairs (df1 ++ r :: df2)).
  { apply list_elem_of_fmap. exists r. split; [done|].
    rewrite elem_of_app, elem_of_cons. auto. }
  destruct Hl as [[<- <-]|[<- <-]]; auto.
Qed.

(** X2. The graph shows the table: every edge comes from a record, with the
    coefficient of the last record that connects its two endpoints; every
    record of the table has an edge between its two identifiers; and there
    are at most as many edges as records. *)
Theorem graph_shows_table (df : DataFrame) :
  let G := build_graph df in
  (∀ u v w, (u, v, w) ∈ edges G →
     ∃ df1 r df2,
       df = df1 ++ r :: df2 ∧ links r u v
       ∧ (∀ r', r' ∈ df2 → ¬ links r' u v) ∧ w = coef r)
  ∧ (∀ r, r ∈ df →
       ∃ w, (KRAB_ZNF r, Gene r, w) ∈ edges G
            ∨ (Gene r, KRAB_ZNF r, w) ∈ edges G)
  ∧ length (edges G) ≤ length df.
Proof.
  intros G. pose proof (wf_build_graph df) as HG. fold G in HG.
  split; [|split].
  - intros u v w Hin. apply edge_weight_build_inv. by apply edges_sound.
  - intros r [w Hw]%edge_weight_of_row. exists w. by apply edges_complete.
  - destruct (edges_simple G HG) as [Hnd Hanti].
    set (norm := λ p : string * string,
           if decide (p ∈ pairs df) then p else (p.2, p.1)).
    assert (Hlen : length (edges G) = length (norm <$> (edges G).*1))
      by by rewrite !length_fmap.
    rewrite Hlen. replace (length df) with (length (pairs df))
      by apply length_fmap.
    apply submseteq_length, NoDup_submseteq.
    + apply NoDup_fmap_2_strong; [|done].
      intros [u1 v1] [u2 v2] H1 H2. unfold norm.
      apply list_elem_of_fmap in H1 as ([[a1 b1] w1] & [= <- <-] & H1).
      apply list_elem_of_fmap in H2 as ([[a2 b2] w2] & [= <- <-] & H2).
      repeat case_decide; cbn; intros [= -> ->]; try done.
      * by rewrite (Hanti _ _ _ _ H1 H2).
      * by rewrite (Hanti _ _ _ _ H1 H2).
    + intros p ([u v] & -> & Hp)%list_elem_of_fmap.
      apply list_elem_of_fmap in Hp as ([[a b] w] & [= <- <-] & Hp).
      unfold norm. case_decide as Hin; [done|]. cbn.
      by destruct (edge_pair_of_row df u v w Hp).
Qed.

End GraphAndTable.

(** ** app.py: the node trace *)

Section NodeTrace.
Import App AppChart.
Implicit Types (G : Graph) (df : DataFrame) (pos : PosMap) (n : string).

Lemma node_point_label G pos n p : node_point G pos n = Some p → np_text p = n.
Proof.
  unfold node_point.
  destruct (od_get pos n) as [[x y]|]; [|done].
  destruct (od_get (g_node G) n) as [a|]; [|done]. cbn.
  destruct (attr_type a) as [ty|]; [|done]. cbn.
  case_decide; by intros [= <-].
Qed.

Lemma node_point_position G pos n p :
  node_point G pos n = Some p → od_get pos n = Some (np_x p, np_y p).
Proof.
  unfold node_point.
  destruct (od_get pos n) as [[x y]|]; [|done].
  destruct (od_get (g_node G) n) as [a|]; [|done]. cbn.
  destruct (attr_type a) as [ty|]; [|done]. cbn.
  case_decide; by intros [= <-].
Qed.

Lemma node_point_gene G pos n p :
  node_point G pos n = Some p → node_type G n = Some "gene" →
  np_color p = "orange" ∧ np_border p = "black".
Proof.
  unfold node_point, node_type.
  destruct (od_get pos n) as [[x y]|]; [|done].
  destruct (od_get (g_node G) n) as [a|]; [|done]. cbn.
  intros Hp Hty. rewrite Hty in Hp. cbn in Hp.
  rewrite decide_True in Hp by done. by injection Hp as <-.
Qed.

Lemma node_point_te G pos n p :
  node_point G pos n = Some p → node_type G n = Some "te" →
  np_color p = "lightgreen"
  ∧ ∃ a, od_get (g_node G) n = Some a ∧ np_border p = border_color a.
Proof.
  unfold node_point, node_type.
  destruct (od_get pos n) as [[x y]|]; [|done].
  destruct (od_get (g_node G) n) as [a|]; [|done]. cbn.
  intros Hp Hty. rewrite Hty in Hp. cbn in Hp.
  rewrite decide_False in Hp by discriminate. injection Hp as <-.
  split; [done|]. by exists a.
Qed.

(** X3. With a position for every node, the node trace has one marker per
    node of the graph, in node order and without repetition: its labels are
    the node identifiers, its coordinates the positions of the nodes; a gene
    marker is orange with a black border and a TE marker is light green. *)
Theorem node_trace_markers (df : DataFrame) (pos : PosMap) :
  covers pos (build_graph df) →
  let G := build_graph df in
  ∃ fig,
    render G pos = Some fig
    ∧ node_labels fig = nodes G
    ∧ NoDup (node_labels fig)
    ∧ Forall2 (λ n xy, od_get pos n = Some xy) (nodes G)
        (zip (default f0 <$> node_xs fig) (default f0 <$> node_ys fig))
    ∧ Forall is_Some (node_xs fig) ∧ Forall is_Some (node_ys fig)
    ∧ (∀ i n, nodes G !! i = Some n → node_type G n = Some "gene" →
         node_fill_colors fig !! i = Some "orange"
         ∧ node_border_colors fig !! i = Some "black")
    ∧ (∀ i n, nodes G !! i = Some n → node_type G n = Some "te" →
         node_fill_colors fig !! i = Some "lightgreen").
Proof.
  intros Hcov G.
  destruct (render_built df pos Hcov) as (et & pts & Hr & _ & Hpts).
  fold G in Hr, Hpts. eexists. split; [exact Hr|].
  unfold node_labels, node_xs, node_ys, node_fill_colors, node_border_colors.
  cbn [fig_data]. rewrite last_snoc. cbn.
  assert (Hlabels : np_text <$> pts = nodes G).
  { clear Hr. induction Hpts as [|n p ns ps Hp _ IH]; [done|].
    cbn. by rewrite (node_point_label _ _ _ _ Hp), IH. }
  split; [done|]. split.
  { rewrite Hlabels. apply (wf_nodup _ (wf_build_graph df)). }
  split.
  { clear Hr Hlabels. induction Hpts as [|n p ns ps Hp _ IH]; [constructor|].
    cbn. constructor; [|exact IH]. by apply node_point_position in Hp. }
  split; [apply Forall_fmap, Forall_forall; intros p _; by eexists|].
  split; [apply Forall_fmap, Forall_forall; intros p _; by eexists|].
  split.
  - intros i n Hi Hty.
    destruct (Forall2_lookup_l _ _ _ _ _ Hpts Hi) as (p & Hp & Hnp).
    destruct (node_point_gene _ _ _ _ Hnp Hty) as [Hc Hb].
    rewrite !list_lookup_fmap, Hp. cbn. by rewrite Hc, Hb.
  - intros i n Hi Hty.
    destruct (Forall2_lookup_l _ _ _ _ _ Hpts Hi) as (p & Hp & Hnp).
    destruct (node_point_te _ _ _ _ Hnp Hty) as [Hc _].
    rewrite !list_lookup_fmap, Hp. cbn. by rewrite Hc.
Qed.

Lemma node_trace_markers_witness :
  let df := [row_up; row_down] in
  let pos := (λ n, (n, (f0, f0))) <$> nodes (build_graph df) in
  covers pos (build_graph df)
  ∧ node_labels <$> render (build_graph df) pos = Some ["TF1"; "L1PA2"; "AluSx"]
  ∧ node_fill_colors <$> render (build_graph df) pos
    = Some ["orange"; "lightgreen"; "lightgreen"].
Proof.
  intros df pos. split; [apply covers_origin|].
  destruct (node_trace_markers df pos (covers_origin _)) as (fig & Hfig & _).
  rewrite Hfig. vm_compute in Hfig. injection Hfig as <-. split; reflexivity.
Defined.

End NodeTrace.

(** ** app.py: the filters seen in the chart *)

Section FiltersInChart.
Import App AppChart.
Implicit Types (G : Graph) (df : DataFrame) (pos : PosMap) (n : string).

Lemma flt_not_fgt (x : float) : flt x f0 = true → fgt x f0 = false.
Proof.
  unfold fgt, flt, SFltb, f0.
  destruct x as [[]|[]| |[] m e]; cbn; congruence.
Qed.

(** The category attribute of a node is the category of a record that has
    the node in its TE column. *)
Lemma attr_exp_build_graph df n (attrs : NodeAttrs) e :
  od_get (g_node (build_graph df)) n = Some attrs → attr_exp attrs = Some e →
  ∃ r, r ∈ df ∧ Gene r = n ∧ exp r = e.
Proof.
  revert attrs. induction df as [|r df IH] using rev_ind; intros attrs; [done|].
  rewrite build_graph_snoc, attrs_add_row.
  assert (Hold : ∀ a0, od_get (g_node (build_graph df)) n = Some a0 →
            attr_exp a0 = Some e → ∃ r0, r0 ∈ df ++ [r] ∧ Gene r0 = n ∧ exp r0 = e).
  { intros a0 Ha0 He0. destruct (IH a0 Ha0 He0) as (r0 & Hr0 & Hg & He).
    exists r0. rewrite elem_of_app. auto. }
  repeat case_decide.
  - intros [= <-] [= <-]. exists r. rewrite elem_of_app, list_elem_of_singleton. auto.
  - intros [= <-]. cbn.
    destruct (od_get (g_node (build_graph df)) n) as [a0|] eqn:Ha0; [|done].
    cbn. by apply Hold.
  - apply Hold.
Qed.

Lemma edge_scatter_color pos u v w s :
  edge_scatter pos (u, v, w) = Some s →
  line_color_of s = Some (if fgt w f0 then custom_red else custom_blue).
Proof.
  unfold edge_scatter.
  destruct (od_get pos u) as [[x0 y0]|]; [|done].
  destruct (od_get pos v) as [[x1 y1]|]; [|done].
  cbn. by intros [= <-].
Qed.

(** X4. The filters show in the chart.  When the table was filtered with
    sign positive every line of the chart is red, and with sign negative
    every line is blue; when it was filtered by a category, the border of
    every TE marker has the colour of that category. *)
Theorem chart_colors_follow_filters
    (df : DataFrame) (sign category : string) (pos : PosMap) :
  let G := build_graph (apply_filters sign category df) in
  covers pos G →
  ∃ fig,
    render G pos = Some fig
    ∧ (sign = "positive" →
         Forall (λ s, line_color_of s = Some custom_red) (line_primitives fig))
    ∧ (sign = "negative" →
         Forall (λ s, line_color_of s = Some custom_blue) (line_primitives fig))
    ∧ (category ≠ "both" →
         ∀ i n, nodes G !! i = Some n → node_type G n = Some "te" →
           node_border_colors fig !! i = Some (category_color category)).
Proof.
  intros G Hcov. set (fdf := apply_filters sign category df) in *.
  assert (Hrows : ∀ r, r ∈ fdf → sign_pred sign r ∧ category_pred category r).
  { intros r. unfold fdf. rewrite apply_filters_spec, list_elem_of_filter. tauto. }
  destruct (render_built fdf pos Hcov) as (et & pts & Hr & Het & Hpts).
  fold G in Hr, Het, Hpts. eexists. split; [exact Hr|].
  assert (Hline : Forall (λ s, is_line_trace s = true) et).
  { apply Forall_forall. intros s Hs.
    apply list_elem_of_lookup in Hs as [i Hi].
    destruct (Forall2_lookup_r _ _ _ _ _ Het Hi) as (e0 & _ & He0).
    by apply edge_scatter_drawn in He0 as [_ ?]. }
  assert (Hcolor : ∀ s, s ∈ et → ∃ r, r ∈ fdf ∧
            line_color_of s = Some (if fgt (coef r) f0 then custom_red else custom_blue)).
  { intros s Hs. apply list_elem_of_lookup in Hs as [i Hi].
    destruct (Forall2_lookup_r _ _ _ _ _ Het Hi) as ([[u v] w] & He0 & Hs).
    apply list_elem_of_lookup_2 in He0.
    apply edges_sound in He0; [|apply wf_build_graph].
    apply edge_weight_build_inv in He0 as (df1 & r & df2 & Hdf & _ & _ & ->).
    exists r. split; [|by eapply edge_scatter_color].
    rewrite Hdf, elem_of_app, elem_of_cons. auto. }
  rewrite line_primitives_app by done.
  split; [|split].
  - intros ->. apply Forall_forall. intros s (r & Hr' & ->)%Hcolor.
    destruct (Hrows r Hr') as [[Hp _] _]. by rewrite Hp.
  - intros ->. apply Forall_forall. intros s (r & Hr' & ->)%Hcolor.
    destruct (Hrows r Hr') as [[_ Hn] _]. by rewrite flt_not_fgt by auto.
  - intros Hcat i n Hi Hty.
    unfold node_border_colors. cbn [fig_data]. rewrite last_snoc. cbn.
    destruct (Forall2_lookup_l _ _ _ _ _ Hpts Hi) as (p & Hp & Hnp).
    destruct (node_point_te _ _ _ _ Hnp Hty) as [_ (a & Ha & Hb)].
    rewrite list_lookup_fmap, Hp. cbn. rewrite Hb. f_equal.
    destruct (attrs_build_graph fdf n a Ha) as [Hg|[_ [e He]]].
    { unfold node_type in Hty. fold G in Ha. rewrite Ha in Hty. cbn in Hty.
      congruence. }
    destruct (attr_exp_build_graph fdf n a e Ha He) as (r & Hr' & _ & <-).
    destruct (Hrows r Hr') as [_ Hc]. unfold border_color, category_color.
    rewrite He. by rewrite (Hc Hcat).
Qed.

Lemma chart_colors_follow_filters_witness :
  let df := [row_up; row_zero; row_down; row_nan] in
  let G := build_graph (apply_filters "negative" "down-regulated" df) in
  let pos := (λ n, (n, (f0, f0))) <$> nodes G in
  covers pos G
  ∧ (λ f, line_color_of <$> line_primitives f) <$> render G pos
    = Some [Some custom_blue]
  ∧ node_border_colors <$> render G pos = Some ["black"; custom_blue].
Proof.
  intros df G pos. split; [apply covers_origin|].
  destruct (chart_colors_follow_filters df "negative" "down-regulated" pos
              (covers_origin _)) as (fig & Hfig & _).
  fold G in Hfig. rewrite Hfig. vm_compute in Hfig. injection Hfig as <-.
  split; reflexivity.
Defined.

(** X5. The two filters are independent and settle at once: filtering by
    sign and by category in one step, or one after the other in either
    order, gives the same table, and filtering a second time with the same
    settings changes nothing.  The rows kept under positive and under
    negative are disjoint, and together with the rows whose coefficient is a
    zero or not a number they make up the rows kept under both. *)
Theorem row_filter_partition (df : DataFrame) (sign category : string) :
  apply_filters sign category df
    = apply_filters sign "both" (apply_filters "both" category df)
  ∧ apply_filters sign category df
    = apply_filters "both" category (apply_filters sign "both" df)
  ∧ apply_filters sign category (apply_filters sign category df)
    = apply_filters sign category df
  ∧ (∀ r, r ∈ apply_filters "positive" category df →
          r ∉ apply_filters "negative" category df)
  ∧ length (apply_filters "both" category df)
    = length (apply_filters "positive" category df)
      + length (apply_filters "negative" category df)
      + length (filter coef_neither (apply_filters "both" category df)).
Proof.
  rewrite !apply_filters_spec.
  split; [|split; [|split; [|split]]].
  - rewrite list_filter_filter. apply list_filter_iff. intros r.
    unfold sign_pred, category_pred. naive_solver.
  - rewrite list_filter_filter. apply list_filter_iff. intros r.
    unfold sign_pred, category_pred. naive_solver.
  - rewrite list_filter_filter. apply list_filter_iff. tauto.
  - intros r [[[Hp _] _] _]%list_elem_of_filter [[[_ Hn] _] _]%list_elem_of_filter.
    specialize (Hp eq_refl). specialize (Hn eq_refl).
    apply flt_not_fgt in Hn. congruence.
  - rewrite list_filter_filter. induction df as [|r df IH]; [done|].
    assert (Hcases :
      (fgt (coef r) f0 = true ∧ flt (coef r) f0 = false)
      ∨ (fgt (coef r) f0 = false ∧ flt (coef r) f0 = true)
      ∨ (fgt (coef r) f0 = false ∧ flt (coef r) f0 = false)).
    { destruct (flt (coef r) f0) eqn:Hn; [right; left; by rewrite flt_not_fgt|].
      destruct (fgt (coef r) f0); auto. }
    destruct (decide (category_pred category r)) as [Hc|Hc].
    + rewrite (filter_cons_True (λ r, sign_pred "both" r ∧ _)) by (by split).
      destruct Hcases as [[Hp Hn]|[[Hp Hn]|[Hp Hn]]].
      * rewrite (filter_cons_True (λ r, sign_pred "positive" r ∧ _))
          by (by repeat split).
        rewrite (filter_cons_False (λ r, sign_pred "negative" r ∧ _))
          by (intros [[_ H] _]; specialize (H eq_refl); congruence).
        rewrite (filter_cons_False (λ r, coef_neither r ∧ _))
          by (intros [[H _] _]; congruence).
        cbn. lia.
      * rewrite (filter_cons_False (λ r, sign_pred "positive" r ∧ _))
          by (intros [[H _] _]; specialize (H eq_refl); congruence).
        rewrite (filter_cons_True (λ r, sign_pred "negative" r ∧ _))
          by (by repeat split).
        rewrite (filter_cons_False (λ r, coef_neither r ∧ _))
          by (intros [[_ H] _]; congruence).
        cbn. lia.
      * rewrite (filter_cons_False (λ r, sign_pred "positive" r ∧ _))
          by (intros [[H _] _]; specialize (H eq_refl); congruence).
        rewrite (filter_cons_False (λ r, sign_pred "negative" r ∧ _))
          by (intros [[_ H] _]; specialize (H eq_refl); congruence).
        rewrite (filter_cons_True (λ r, coef_neither r ∧ _))
          by (by repeat split).
        cbn. lia.
    + rewrite !filter_cons_False by tauto. exact IH.
Qed.

End FiltersInChart.

(** ** app.py: from the table to the chart *)

Section WholeChart.
Import App AppChart.

Variable kamada_kawai_layout : Graph → option PosMap.
Variable spring_layout : Graph → Z → option PosMap.

Hypothesis kamada_kawai_positions : positions_nodes kamada_kawai_layout.
Hypothesis spring_positions :
  ∀ seed, positions_nodes (λ g, spring_layout g seed).

(** X6. On the contract of the two networkx layouts (a layout that returns
    gives positions for exactly the nodes of its graph), the script fails to
    draw only when both layouts raise; otherwise the chart has one line per
    edge of the graph and one marker per node, labelled by the nodes in
    order. *)
Theorem chart_fails_only_with_layout (df : DataFrame) :
  let G := build_graph df in
  let G_pos_weight := build_pos_weight G in
  (chart kamada_kawai_layout spring_layout df = None
     ↔ kamada_kawai_layout G_pos_weight = None
       ∧ spring_layout G_pos_weight 42 = None)
  ∧ (∀ fig, chart kamada_kawai_layout spring_layout df = Some fig →
       length (line_primitives fig) = length (edges G)
       ∧ marker_count fig = length (nodes G)
       ∧ node_labels fig = nodes G).
Proof.
  intros G Gp.
  assert (Hdraw : ∀ pos,
    compute_pos kamada_kawai_layout spring_layout Gp = Some pos →
    ∃ fig, render G pos = Some fig
      ∧ length (line_primitives fig) = length (edges G)
      ∧ marker_count fig = length (nodes G)
      ∧ node_labels fig = nodes G).
  { intros pos Hpos.
    assert (Hcov : covers pos G).
    { intros n Hn. apply od_keys_get.
      assert (Hkeys : n ∈ od_keys pos ↔ n ∈ nodes Gp).
      { unfold compute_pos in Hpos.
        destruct (kamada_kawai_layout Gp) as [p|] eqn:Hkk.
        - injection Hpos as ->. by apply kamada_kawai_positions.
        - by apply (spring_positions 42). }
      apply Hkeys. unfold Gp, G. by apply elem_of_nodes_pos_weight. }
    destruct (render_built df pos Hcov) as (et & pts & Hr & Het & Hpts).
    fold G in Hr, Het, Hpts. eexists. split; [exact Hr|].
    assert (Hline : Forall (λ s, is_line_trace s = true) et).
    { apply Forall_forall. intros s Hs.
      apply list_elem_of_lookup in Hs as [i Hi].
      destruct (Forall2_lookup_r _ _ _ _ _ Het Hi) as (e0 & _ & He0).
      by apply edge_scatter_drawn in He0 as [_ ?]. }
    rewrite line_primitives_app, marker_count_app by done.
    split; [symmetry; by eapply Forall2_length|].
    split; [symmetry; by eapply Forall2_length|].
    unfold node_labels. cbn [fig_data]. rewrite last_snoc. cbn.
    clear Hr. induction Hpts as [|n p ns ps Hp _ IH]; [done|].
    cbn. by rewrite (node_point_label _ _ _ _ Hp), IH. }
  unfold chart. fold G Gp. split.
  - destruct (compute_pos kamada_kawai_layout spring_layout Gp) as [pos|] eqn:Hpos.
    + destruct (Hdraw pos eq_refl) as (fig & Hr & _).
      change (Some pos ≫= (λ pos, render G pos)) with (render G pos). rewrite Hr.
      unfold compute_pos in Hpos.
      destruct (kamada_kawai_layout Gp); split; try done.
      * by intros [? _].
      * intros [_ ?]. congruence.
    + cbn. unfold compute_pos in Hpos.
      by destruct (kamada_kawai_layout Gp).
  - intros fig.
    destruct (compute_pos kamada_kawai_layout spring_layout Gp) as [pos|] eqn:Hpos;
      [|done].
    destruct (Hdraw pos eq_refl) as (fig' & Hr & Hfig').
    change (Some pos ≫= (λ pos, render G pos)) with (render G pos). rewrite Hr.
    by intros [= <-].
Qed.

End WholeChart.

Lemma chart_fails_only_with_layout_witness :
  App.positions_nodes App.layout_fails
  ∧ (∀ seed, App.positions_nodes (λ g, App.layout_origin g seed))
  ∧ AppChart.node_labels <$>
      App.chart App.layout_fails App.layout_origin [App.row_up; App.row_down]
    = Some ["TF1"; "L1PA2"; "AluSx"]
  ∧ (App.chart App.layout_fails (λ _ _, None) [App.row_up] = None).
Proof.
  assert (H1 : App.positions_nodes App.layout_fails) by (intros g pos [=]).
  assert (H2 : ∀ seed : Z, App.positions_nodes (λ g, (λ _ _, None) g seed))
    by (intros seed g pos [=]).
  split; [exact H1|]. split; [exact layout_origin_positions|]. split.
  - destruct (chart_fails_only_with_layout App.layout_fails App.layout_origin H1
                layout_origin_positions [App.row_up; App.row_down]) as [_ Hfig].
    destruct (App.chart App.layout_fails App.layout_origin
                [App.row_up; App.row_down]) as [fig|] eqn:Hc;
      [|by vm_compute in Hc].
    cbn. f_equal. by destruct (Hfig fig eq_refl) as (_ & _ & ->).
  - by apply (chart_fails_only_with_layout App.layout_fails (λ _ _, None) H1 H2
                [App.row_up]).
Defined.

(** ** app_previous.py: the order of the chromosomes *)

Section NaturalSortOrder.
Import Pandas AppPrevious NaturalSort.

Lemma string_ltb_leb (s t : string) : String.ltb s t = negb (String.leb t s).
Proof.
  unfold String.ltb, String.leb. rewrite (String.compare_antisym s t).
  by destruct (String.compare t s).
Qed.

Lemma ascii_compare_trans (x y z : ascii) :
  Ascii.compare x y = Lt → Ascii.compare y z = Lt → Ascii.compare x z = Lt.
Proof.
  unfold Ascii.compare. rewrite !N.compare_lt_iff. apply N.lt_trans.
Qed.

Lemma string_leb_trans (a b c : string) :
  String.leb a b = true → String.leb b c = true → String.leb a c = true.
Proof.
  unfold String.leb. revert b c.
  induction a as [|x a IH]; intros [|y b] [|z c]; cbn; try done.
  destruct (Ascii.compare x y) eqn:Exy; [| |done].
  - apply Ascii.compare_eq_iff in Exy as ->.
    destruct (Ascii.compare y z); [apply IH|done..].
  - destruct (Ascii.compare y z) eqn:Eyz; [| |done].
    + apply Ascii.compare_eq_iff in Eyz as ->. by rewrite Exy.
    + by rewrite (ascii_compare_trans _ _ _ Exy Eyz).
Qed.

Lemma string_leb_refl (a : string) : String.leb a a = true.
Proof. by destruct (String.leb_total a a). Qed.

Lemma key_ltb_irrefl (k : SortKey) : key_ltb k k = false.
Proof.
  destruct k as [n|s|s]; cbn.
  - apply Z.ltb_irrefl.
  - by rewrite string_ltb_leb, string_leb_refl.
  - by rewrite string_ltb_leb, string_leb_refl.
Qed.

Lemma key_ltb_asym (a b : SortKey) : key_ltb a b = true → key_ltb b a = false.
Proof.
  destruct a as [m|s|s], b as [n|t|t]; cbn; try done;
    rewrite ?string_ltb_leb, ?negb_true_iff, ?negb_false_iff.
  - intros H%Z.ltb_lt. apply Z.ltb_ge. lia.
  - intros H. by destruct (String.leb_total s t) as [?|?]; [|congruence].
  - intros H. by destruct (String.leb_total s t) as [?|?]; [|congruence].
Qed.

Lemma key_le_trans (a b c : SortKey) : key_le a b → key_le b c → key_le a c.
Proof.
  unfold key_le.
  destruct a as [m|s|s], b as [n|t|t], c as [p|u|u]; cbn; try done;
    rewrite ?string_ltb_leb, ?negb_false_iff.
  - rewrite !Z.ltb_ge. lia.
  - apply string_leb_trans.
  - apply string_leb_trans.
Qed.

(** Two keys that are ordered neither way are the same key. *)
Lemma key_le_antisym (a b : SortKey) : key_le a b → key_le b a → a = b.
Proof.
  unfold key_le.
  destruct a as [m|s|s], b as [n|t|t]; cbn; try done;
    rewrite ?string_ltb_leb, ?negb_false_iff.
  - rewrite !Z.ltb_ge. intros. f_equal. lia.
  - intros H1 H2. f_equal. by apply String.leb_antisym.
  - intros H1 H2. f_equal. by apply String.leb_antisym.
Qed.

Lemma all_digits_parse (s : string) (acc : Z) :
  all_digits s = true → is_Some (parse_digits acc s).
Proof.
  revert acc. induction s as [|c s IH]; intros acc Hall; [by eexists|].
  cbn [all_digits] in Hall. apply andb_true_iff in Hall as [Hc Hs].
  change (parse_digits acc (String c s))
    with (if is_digit c
          then parse_digits (10 * acc + (Z.of_nat (nat_of_ascii c) - 48)) s
          else None).
  rewrite Hc. by apply IH.
Qed.

Lemma leading_digits_all (s : string) : all_digits (leading_digits s) = true.
Proof.
  induction s as [|c s IH]; cbn; [done|].
  destruct (is_digit c) eqn:Hc; cbn; [by rewrite Hc|done].
Qed.

Lemma StronglySorted_lookup_lt {B} (R : B → B → Prop) (l : list B) i j a b :
  StronglySorted R l → l !! i = Some a → l !! j = Some b → i < j → R a b.
Proof.
  intros Hl. revert i j. induction Hl as [|x l Hl IH Hx]; intros i j; [done|].
  destruct i as [|i], j as [|j]; cbn; try lia.
  - intros [= <-] Hj _. rewrite Forall_forall in Hx. apply Hx.
    by eapply list_elem_of_lookup_2.
  - intros Hi Hj Hij. apply (IH i j); [done..|lia].
Qed.

Context {A : Type}.
Variable str : A → string.
Implicit Types (x y : A) (l : list A).

Local Abbreviation sort_key := (sort_key str).
Local Abbreviation insert_sorted := (insert_sorted key_ltb sort_key).
Local Abbreviation le := (λ x y, key_le (sort_key x) (sort_key y)).

Lemma insert_sorted_perm x l : insert_sorted x l ≡ₚ x :: l.
Proof.
  induction l as [|y l IH]; cbn; [done|].
  destruct (key_ltb _ _); [|done]. rewrite IH. apply Permutation_swap.
Qed.

Lemma insert_sorted_sorted x l :
  StronglySorted le l → StronglySorted le (insert_sorted x l).
Proof.
  induction 1 as [|y l Hl IH Hy]; cbn; [by repeat constructor|].
  destruct (key_ltb (sort_key y) (sort_key x)) eqn:Hlt.
  - constructor; [done|].
    rewrite insert_sorted_perm. constructor; [|done].
    by apply key_ltb_asym.
  - constructor; [by constructor|]. constructor; [done|].
    eapply Forall_impl; [exact Hy|]. intros z Hz. cbn beta in *.
    by eapply key_le_trans.
Qed.

Lemma insert_sorted_stable x l (k : SortKey) :
  filter (λ a, sort_key a = k) (insert_sorted x l)
  = filter (λ a, sort_key a = k) (x :: l).
Proof.
  induction l as [|y l IH]; cbn [NaturalSort.insert_sorted]; [done|].
  destruct (key_ltb (sort_key y) (sort_key x)) eqn:Hlt; [|done].
  assert (Hne : sort_key y ≠ sort_key x)
    by (intros Heq; rewrite Heq, key_ltb_irrefl in Hlt; done).
  destruct (decide (sort_key x = k)) as [Hx|Hx].
  - rewrite (filter_cons_False _ y) by congruence. rewrite IH.
    rewrite !(filter_cons_True _ x) by done.
    by rewrite (filter_cons_False _ y) by congruence.
  - rewrite (filter_cons_False _ x (y :: l)) by done.
    destruct (decide (sort_key y = k)) as [Hy|Hy].
    + rewrite !(filter_cons_True _ y) by done.
      by rewrite IH, (filter_cons_False _ x) by done.
    + rewrite !(filter_cons_False _ y) by done.
      by rewrite IH, (filter_cons_False _ x) by done.
Qed.

Lemma natural_sort_perm l : natural_sort_chromosomes str l ≡ₚ l.
Proof.
  unfold natural_sort_chromosomes, sorted.
  induction l as [|x l IH]; cbn; [done|].
  by rewrite insert_sorted_perm, IH.
Qed.

Lemma natural_sort_sorted l :
  StronglySorted le (natural_sort_chromosomes str l).
Proof.
  unfold natural_sort_chromosomes, sorted.
  induction l as [|x l IH]; cbn; [constructor|].
  by apply insert_sorted_sorted.
Qed.


Example natural_sort_example :
  natural_sort_chromosomes id
    ["chr10"; "chrX"; "scaffold_7"; "chr2"; "chrM"; "chr1_random"; "nan";
     "chr1"; "chrUn"; "chr02"]
  = ["chr1_random"; "chr1"; "chr2"; "chr02"; "chr10"; "chrM"; "chrX";
     "chrUn"; "nan"; "scaffold_7"].
Proof. reflexivity. Qed.

End NaturalSortOrder.

(** ** app_previous.py: the loaded table *)

Section LoadedTable.
Import Pandas AppPrevious.
Variable parse_number : string → option num.
Implicit Types (df : DataFrame) (r : odict cell) (c : string).

Lemma od_set_same {V} (d : odict V) (k : string) (v : V) :
  od_get d k = Some v → od_set d k v = d.
Proof.
  induction d as [|[k0 v0] d IH]; cbn; [done|].
  case_decide as Hk; [by intros [= ->]; subst|].
  intros Hd. by rewrite IH.
Qed.

Lemma frame_eta df : {| columns := columns df; rows := rows df |} = df.
Proof. by destruct df. Qed.

Lemma select_all (P : odict cell → Prop) `{!∀ r, Decision (P r)} df :
  (∀ r, r ∈ rows df → P r) → select P df = df.
Proof.
  intros Hall. unfold select. rewrite filter_all by done. apply frame_eta.
Qed.

Lemma map_column_fix (f : cell → option cell) df c :
  c ∈ columns df →
  (∀ r, r ∈ rows df → ∃ v, od_get r c = Some v ∧ f v = Some v) →
  map_column f df c = Some df.
Proof.
  intros Hc Hfix. unfold map_column. rewrite decide_True by done.
  assert (Hrows : mapM (λ r, v ← f (row_get r c); Some (od_set r c v)) (rows df)
                  = Some (rows df)).
  { apply mapM_Some, Forall_Forall2_diag, Forall_forall. intros r Hr.
    destruct (Hfix r Hr) as (v & Hv & Hf).
    unfold row_get. rewrite Hv. cbn. rewrite Hf. cbn.
    by rewrite (od_set_same _ _ _ Hv). }
  rewrite Hrows. cbn. by rewrite frame_eta.
Qed.

Lemma ensure_columns_present df :
  (∀ c, c ∈ required_columns → c ∈ columns df) → ensure_columns df = df.
Proof.
  unfold ensure_columns. induction required_columns as [|c l IH]; [done|].
  intros Hreq. cbn. rewrite decide_True by (apply Hreq; by left).
  apply IH. intros c' Hc'. apply Hreq. by right.
Qed.

Lemma fillna0_not_nan (v : num) : is_nan (CNum (fillna0 v)) = false.
Proof. by destruct v as [z|[]]. Qed.

Lemma row_get_present r c (v : cell) :
  row_get r c = v → is_nan v = false → od_get r c = Some v.
Proof.
  unfold row_get. destruct (od_get r c) as [v'|]; cbn; [by intros ->|].
  by intros <-.
Qed.

(** The numeric columns of a loaded table hold numbers: integers in
    [start], [end] and [length], and no NaN in [pvalue]. *)
Lemma loaded_cells df out r :
  load_csv_data_try parse_number df = Some out → r ∈ rows out →
  (∀ c, c ∈ int_columns → ∃ z, od_get r c = Some (CNum (NInt z)))
  ∧ ∃ v, od_get r "pvalue" = Some (CNum v) ∧ is_nan (CNum v) = false.
Proof.
  intros Hout Hr.
  destruct (load_csv_data_rows parse_number df out Hout) as [_ Hrows].
  destruct (Hrows r Hr) as (_ & r0 & _ & Hclean). split.
  - intros c Hc. specialize (Hclean c). unfold cleaned in Hclean.
    rewrite decide_True in Hclean by done.
    unfold clean_int in Hclean.
    destruct (astype_int _) as [z|]; [|done]. cbn in Hclean.
    injection Hclean as Hclean. exists z.
    by apply row_get_present.
  - specialize (Hclean "pvalue"). unfold cleaned in Hclean.
    rewrite decide_False in Hclean.
    2:{ unfold int_columns. rewrite !elem_of_cons, elem_of_nil.
        by intros [?|[?|[?|[]]]]. }
    rewrite decide_True in Hclean by done.
    unfold clean_float in Hclean. injection Hclean as Hclean.
    eexists. split; [|apply fillna0_not_nan].
    apply row_get_present; [done|apply fillna0_not_nan].
Qed.

Lemma filter_data_numeric df (filters : odict cell) :
  numeric_column df "pvalue" → numeric_column df "length" →
  numeric_threshold filters "pvalue_max" →
  numeric_threshold filters "length_min" →
  is_Some (filter_data df filters).
Proof.
  destruct (foldl_filter_step_spec df filters) as (Hc0 & Hs0 & Hr0).
  intros [Hpc Hpn] [Hlc Hln] Hpt Hlt. unfold filter_data.
  assert (Hthr : ∀ key v, numeric_threshold filters key →
                          threshold filters key = Some v → ∃ n, v = CNum n).
  { intros key v Hnum. unfold threshold.
    destruct (od_get filters key) as [v'|] eqn:E; [|done].
    destruct (truthy v'); [|done]. intros [= ->]. by apply Hnum. }
  destruct (threshold_step_is_Some cell_leb filters "pvalue_max" "pvalue"
              (foldl filter_step df filters)) as [df1 E1].
  { intros v [n ->]%Hthr; [|done]. split; [by rewrite Hc0|].
    intros r Hr. apply Hr0 in Hr as [Hr _].
    destruct (Hpn r Hr) as [m ->]. by eexists. }
  rewrite E1. cbn [mbind option_bind].
  apply threshold_step_spec in E1 as (Hc1 & Hs1 & Hr1).
  apply threshold_step_is_Some.
  intros v [n ->]%Hthr; [|done]. split; [by rewrite Hc1, Hc0|].
  intros r Hr. apply Hr1 in Hr as [Hr _]. apply Hr0 in Hr as [Hr _].
  destruct (Hln r Hr) as [m ->]. by eexists.
Qed.

(** X8. A table that the loader returned is clean: [start], [end] and
    [length] hold integers and [pvalue] holds numbers, none of them NaN;
    loading it again returns it unchanged; and [filter_data] never fails on
    it when the two thresholds are numbers, as those of the number inputs
    are. *)
Theorem loaded_table_clean (df out : DataFrame) (filters : odict cell) :
  load_csv_data_try parse_number df = Some out →
  (∀ r c, r ∈ rows out → c ∈ int_columns →
     ∃ z, od_get r c = Some (CNum (NInt z)))
  ∧ (∀ r, r ∈ rows out →
       ∃ v, od_get r "pvalue" = Some (CNum v) ∧ is_nan (CNum v) = false)
  ∧ load_csv_data_try parse_number out = Some out
  ∧ (numeric_threshold filters "pvalue_max" →
     numeric_threshold filters "length_min" →
     is_Some (filter_data out filters)).
Proof.
  intros Hout.
  destruct (load_csv_data_rows parse_number df out Hout) as [Hcols Hrows].
  assert (Hreq : ∀ c, c ∈ required_columns → c ∈ columns out)
    by (intros c Hc; apply Hcols; by right).
  assert (Hint : ∀ r c, r ∈ rows out → c ∈ int_columns →
                        ∃ z, od_get r c = Some (CNum (NInt z))).
  { intros r c Hr. by apply (loaded_cells df out r Hout Hr). }
  assert (Hpv : ∀ r, r ∈ rows out →
                     ∃ v, od_get r "pvalue" = Some (CNum v)
                          ∧ is_nan (CNum v) = false).
  { intros r Hr. by apply (loaded_cells df out r Hout Hr). }
  assert (Hfix_int : ∀ c, c ∈ int_columns →
            map_column (clean_int parse_number) out c = Some out).
  { intros c Hc. apply map_column_fix.
    - apply Hreq. revert Hc. unfold int_columns, required_columns.
      rewrite !elem_of_cons, elem_of_nil. intros [->|[->|[->|[]]]]; tauto.
    - intros r Hr. destruct (Hint r c Hr Hc) as [z Hz].
      by exists (CNum (NInt z)). }
  split; [done|]. split; [done|]. split.
  - unfold load_csv_data_try. rewrite ensure_columns_present by done.
    rewrite Hfix_int by (by repeat constructor). cbn [mbind option_bind].
    rewrite Hfix_int by (by repeat constructor). cbn [mbind option_bind].
    rewrite (map_column_fix (clean_float parse_number) out "pvalue").
    + cbn [mbind option_bind].
      rewrite Hfix_int by (by repeat constructor). cbn [mbind option_bind].
      f_equal. apply select_all. intros r Hr. by apply Hrows.
    + apply Hreq. by repeat constructor.
    + intros r Hr. destruct (Hpv r Hr) as (v & Hv & Hnan).
      exists (CNum v). split; [done|]. unfold clean_float. cbn.
      by destruct v as [z|[]].
  - apply filter_data_numeric.
    + split; [apply Hreq; by repeat constructor|].
      intros r Hr. destruct (Hpv r Hr) as (v & Hv & _).
      exists v. unfold row_get. by rewrite Hv.
    + split; [apply Hreq; by repeat constructor|].
      intros r Hr. destruct (Hint r "length" Hr) as [z Hz];
        [by repeat constructor|].
      exists (NInt z). unfold row_get. by rewrite Hz.
Qed.

End LoadedTable.

Lemma loaded_table_clean_witness :
  AppPrevious.load_csv_data_try AppPrevious.parse_int AppPrevious.sample_frame
    = Some AppPrevious.sample_table
  ∧ AppPrevious.load_csv_data_try AppPrevious.parse_int AppPrevious.sample_table
    = Some AppPrevious.sample_table
  ∧ is_Some (AppPrevious.filter_data AppPrevious.sample_table
               AppPrevious.default_filters).
Proof.
  assert (Hout : AppPrevious.load_csv_data_try AppPrevious.parse_int
                   AppPrevious.sample_frame = Some AppPrevious.sample_table)
    by reflexivity.
  destruct (loaded_table_clean AppPrevious.parse_int AppPrevious.sample_frame
              AppPrevious.sample_table AppPrevious.default_filters Hout)
    as (_ & _ & Hagain & Hfilter).
  split; [exact Hout|]. split; [exact Hagain|].
  apply Hfilter; intros v [= <-]; by eexists.
Defined.

(** ** app_previous.py and utils/sidebar_filters.py: filters that do nothing
    and filters that fail *)

Section IdleFilters.
Import Pandas AppPrevious SidebarFilters.
Implicit Types (df : DataFrame) (r : odict cell).

Lemma filter_step_idle df (column : string) (value : cell) :
  (truthy value = true → column ∈ columns df → column ∈ numeric_keys) →
  filter_step df (column, value) = df.
Proof.
  intros Hidle. unfold filter_step.
  destruct (truthy value); cbn [andb]; [|done].
  case_bool_decide as Hc; [|done].
  by rewrite bool_decide_eq_true_2 by auto.
Qed.

Lemma foldl_filter_step_idle df (filters : odict cell) :
  (∀ column value, (column, value) ∈ filters → truthy value = true →
     column ∈ columns df → column ∈ numeric_keys) →
  foldl filter_step df filters = df.
Proof.
  induction filters as [|[column value] filters IH] using rev_ind; [done|].
  intros Hidle. rewrite foldl_snoc, IH.
  - apply filter_step_idle. apply Hidle.
    rewrite elem_of_app, list_elem_of_singleton. by right.
  - intros c v Hin. apply Hidle. rewrite elem_of_app. by left.
Qed.

(** X9. [filter_data] returns the table as it is, whatever its columns and
    cells, when every entry of the filter dictionary is empty or zero, names
    no column of the table, or is one of the two threshold keys, and both
    thresholds are zero or absent: so the dictionary of untouched widgets
    shows the whole table, and an equality filter on a column that the table
    lacks is ignored. *)
Theorem filter_data_untouched (df : DataFrame) (filters : odict cell) :
  (∀ column value, (column, value) ∈ filters → truthy value = true →
     column ∈ columns df → column ∈ numeric_keys) →
  threshold filters "pvalue_max" = None →
  threshold filters "length_min" = None →
  filter_data df filters = Some df.
Proof.
  intros Hidle Hp Hl. unfold filter_data.
  rewrite foldl_filter_step_idle by done.
  unfold threshold_step. unfold threshold in Hp, Hl.
  destruct (od_get filters "pvalue_max") as [v|];
    [destruct (truthy v); [done|]|]; cbn [mbind option_bind];
    (destruct (od_get filters "length_min") as [v'|];
      [by destruct (truthy v')|done]).
Qed.

Lemma filter_data_untouched_witness :
  filter_data sample_table (default_filters ++ [("locus", CStr "7q31")])
  = Some sample_table.
Proof.
  apply filter_data_untouched; [|reflexivity..].
  intros column value Hin Htrue Hcol. exfalso.
  apply elem_of_app in Hin as [Hin|Hin].
  - unfold default_filters in Hin.
    repeat (apply elem_of_cons in Hin as [Hin|Hin];
            [injection Hin as -> ->; by vm_compute in Htrue|]).
    by apply elem_of_nil in Hin.
  - apply list_elem_of_singleton in Hin. injection Hin as -> ->.
    vm_compute in Hcol.
    repeat (apply elem_of_cons in Hcol as [Hcol|Hcol]; [discriminate Hcol|]).
    by apply elem_of_nil in Hcol.
Defined.

Lemma isin_step_columns (selection : list cell) (column : string) df out :
  isin_step selection column df = Some out → columns out = columns df.
Proof.
  unfold isin_step. destruct selection; [by intros [= <-]|].
  case_decide; [|done]. by intros [= <-].
Qed.

Lemma isin_fold_raises (l : list (string * list cell)) df :
  foldl (λ acc '(column, selection), acc ≫= isin_step selection column)
    (Some df) l = None
  ↔ ∃ column selection,
      (column, selection) ∈ l ∧ selection ≠ [] ∧ column ∉ columns df.
Proof.
  induction l as [|[c sel] l IH] using rev_ind.
  - cbn. split; [done|]. intros (? & ? & []%elem_of_nil & _).
  - rewrite foldl_snoc.
    destruct (foldl _ (Some df) l) as [d|] eqn:Hd; cbn [mbind option_bind].
    + assert (Hcols : columns d = columns df).
      { clear IH. revert d Hd.
        induction l as [|[c' sel'] l IHl] using rev_ind; intros d;
          [by intros [= <-]|].
        rewrite foldl_snoc.
        destruct (foldl _ (Some df) l) as [d'|]; [|done]. cbn.
        intros Hstep%isin_step_columns. rewrite Hstep. by apply IHl. }
      assert (Hnone : ¬ ∃ column selection,
                (column, selection) ∈ l ∧ selection ≠ [] ∧ column ∉ columns df)
        by (intros Hex; apply IH in Hex; done).
      unfold isin_step. destruct sel as [|v sel].
      * split; [done|]. intros (c0 & s0 & Hin & Hne & Hc0).
        apply elem_of_app in Hin as [Hin|[= -> ->]%list_elem_of_singleton];
          [|done]. destruct Hnone. by exists c0, s0.
      * case_decide as Hc.
        -- split; [done|]. intros (c0 & s0 & Hin & Hne & Hc0).
           apply elem_of_app in Hin as [Hin|[= -> ->]%list_elem_of_singleton].
           ++ destruct Hnone. by exists c0, s0.
           ++ by rewrite Hcols in Hc.
        -- split; [|done]. intros _. exists c, (v :: sel).
           rewrite elem_of_app, list_elem_of_singleton, <- Hcols. auto.
    + split; [|done]. intros _.
      destruct (proj1 IH eq_refl) as (c0 & s0 & Hin & Hne & Hc0).
      exists c0, s0. rewrite elem_of_app. auto.
Qed.

(** X10. [filter_dataframe] fails exactly when a selection that is not empty
    is for a column that the table lacks; the column of an empty selection
    is not read.  With no selection at all it returns the table as it is. *)
Theorem filter_dataframe_raises (df : DataFrame) (filters : Filters) :
  (filter_dataframe df filters = None
   ↔ ∃ column selection,
       (column, selection) ∈ selections filters
       ∧ selection ≠ [] ∧ column ∉ columns df)
  ∧ ((∀ column selection,
        (column, selection) ∈ selections filters → selection = []) →
     filter_dataframe df filters = Some df).
Proof.
  split.
  - rewrite <- isin_fold_raises. unfold filter_dataframe, selections. cbn.
    destruct (isin_step (chrom filters) "CHROM" df); [|done]. cbn.
    destruct (isin_step (motif filters) "MOTIF" _); [|done]. cbn.
    destruct (isin_step (te filters) "TE" _); [|done]. cbn.
    destruct (isin_step (family filters) "FAMILY" _); [|done]. cbn.
    destruct (isin_step (class filters) "CLASS" _); [|done]. cbn.
    destruct (isin_step (species filters) "SPECIES" _); done.
  - intros Hnone. unfold filter_dataframe.
    rewrite (Hnone "CHROM" (chrom filters)) by (by repeat constructor).
    rewrite (Hnone "MOTIF" (motif filters)) by (by repeat constructor).
    rewrite (Hnone "TE" (te filters)) by (by repeat constructor).
    rewrite (Hnone "FAMILY" (family filters)) by (by repeat constructor).
    rewrite (Hnone "CLASS" (class filters)) by (by repeat constructor).
    rewrite (Hnone "SPECIES" (species filters)) by (by repeat constructor).
    by rewrite (Hnone "GENE" (gene filters)) by (by repeat constructor).
Qed.

End IdleFilters.

(** ** app_big_dataframe.py: the stored table and its plot *)

Section StoredTable.
Import Pandas SidebarFilters Swarmplot AppBigDataframe.
Implicit Types (df : DataFrame) (r : odict cell) (filters : Filters).

Lemma filter_dataframe_fold df filters :
  filter_dataframe df filters
  = foldl (λ acc '(column, selection), acc ≫= isin_step selection column)
      (Some df) (selections filters).
Proof.
  unfold filter_dataframe, selections. cbn.
  destruct (isin_step (chrom filters) "CHROM" df); [|done]. cbn.
  destruct (isin_step (motif filters) "MOTIF" _); [|done]. cbn.
  destruct (isin_step (te filters) "TE" _); [|done]. cbn.
  destruct (isin_step (family filters) "FAMILY" _); [|done]. cbn.
  destruct (isin_step (class filters) "CLASS" _); [|done]. cbn.
  destruct (isin_step (species filters) "SPECIES" _); done.
Qed.

Lemma isin_fold_Some (l : list (string * list cell)) df out :
  foldl (λ acc '(column, selection), acc ≫= isin_step selection column)
    (Some df) l = Some out →
  columns out = columns df ∧ rows out `sublist_of` rows df.
Proof.
  revert out. induction l as [|[c sel] l IH] using rev_ind; intros out.
  - by intros [= <-].
  - rewrite foldl_snoc. destruct (foldl _ (Some df) l) as [d|]; [|done].
    cbn. intros (Hc & Hs & _)%isin_step_spec.
    destruct (IH d eq_refl) as [Hc' Hs']. split; [congruence|by etrans].
Qed.

Lemma filter_dataframe_sublist df filters out :
  filter_dataframe df filters = Some out →
  columns out = columns df ∧ rows out `sublist_of` rows df.
Proof. rewrite filter_dataframe_fold. apply isin_fold_Some. Qed.

Lemma runs_snoc df (history : list Filters) filters :
  runs df (history ++ [filters])
  = s ← runs df history; Some <$> run df s filters.
Proof. unfold runs. by rewrite foldl_snoc. Qed.

Lemma runs_started df (history : list Filters) :
  runs df history = Some None → history = [].
Proof.
  destruct history as [|f history _] using rev_ind; [done|].
  rewrite runs_snoc. destruct (runs df history) as [s|]; [|done].
  cbn. by destruct (run df s f).
Qed.

(** X11. The table that the script stores and shows is the full table until
    the button is pressed for the first time; from then on it is the full
    table filtered by the selections of the last run in which the button was
    pressed: a change of the selections without the button changes nothing,
    and a filter is never applied to the result of an earlier filter.  The
    stored table has the columns of the full table and a sub-list of its
    rows. *)
Theorem session_shows_last_applied
    (df : DataFrame) (history : list Filters) (shown : DataFrame) :
  runs df history = Some (Some shown) →
  match last (applied history) with
  | Some filters => filter_dataframe df filters = Some shown
  | None => shown = df
  end
  ∧ columns shown = columns df
  ∧ rows shown `sublist_of` rows df.
Proof.
  intros Hruns.
  assert (Hlast : match last (applied history) with
                  | Some filters => filter_dataframe df filters = Some shown
                  | None => shown = df
                  end).
  { revert shown Hruns.
    induction history as [|f history IH] using rev_ind; intros shown; [done|].
    rewrite runs_snoc. unfold applied. rewrite filter_app.
    unfold run. destruct (apply f) eqn:Hf.
    - rewrite filter_cons_True by done. rewrite filter_nil, last_snoc.
      destruct (runs df history) as [s|]; [|done].
      cbn [mbind option_bind].
      destruct (filter_dataframe df f); [|done]. by intros [= <-].
    - rewrite filter_cons_False by (by rewrite Hf).
      rewrite filter_nil, app_nil_r.
      destruct (runs df history) as [s|] eqn:Hs; [|done].
      cbn [mbind option_bind fmap option_fmap option_map]. intros [= <-].
      destruct s as [t|]; [by apply IH|].
      apply runs_started in Hs as ->. done. }
  split; [done|].
  destruct (last (applied history)) as [f|].
  - by apply filter_dataframe_sublist in Hlast.
  - by subst.
Qed.

Lemma session_shows_last_applied_witness :
  let history := [pick_chrom false ["chrX"]; pick_chrom true ["chr2"; "chrM"];
                  pick_chrom false ["chrX"]] in
  ∃ shown,
    runs sample_loci history = Some (Some shown)
    ∧ filter_dataframe sample_loci (pick_chrom true ["chr2"; "chrM"])
      = Some shown
    ∧ (λ r, row_get r "CHROM") <$> rows shown = [CStr "chr2"; CStr "chrM"].
Proof.
  intros history.
  destruct (runs sample_loci history) as [[shown|]|] eqn:Hruns;
    [|by vm_compute in Hruns..].
  exists shown. split; [done|].
  destruct (session_shows_last_applied sample_loci history shown Hruns)
    as [Hlast _].
  split; [exact Hlast|].
  vm_compute in Hruns. injection Hruns as <-. reflexivity.
Defined.

Lemma Forall2_sublist_l {B C} (P : B → C → Prop) (l l' : list B) (k : list C) :
  Forall2 P l k → l' `sublist_of` l →
  ∃ k', Forall2 P l' k' ∧ k' `sublist_of` k.
Proof.
  intros Hlk Hsub. revert k Hlk.
  induction Hsub as [|x l1 l2 Hsub IH|x l1 l2 Hsub IH]; intros k Hlk.
  - exists []. split; [constructor|apply sublist_nil_l].
  - apply Forall2_cons_inv_l in Hlk as (y & k0 & Hxy & Hk0 & ->).
    destruct (IH k0 Hk0) as (k' & Hk' & Hsub').
    exists (y :: k'). split; [by constructor|by constructor].
  - apply Forall2_cons_inv_l in Hlk as (y & k0 & Hxy & Hk0 & ->).
    destruct (IH k0 Hk0) as (k' & Hk' & Hsub').
    exists k'. split; [done|by constructor].
Qed.

Lemma filter_sublist_impl {B} (P Q : B → Prop)
    `{!∀ x, Decision (P x)} `{!∀ x, Decision (Q x)} (l : list B) :
  (∀ x, P x → Q x) → filter P l `sublist_of` filter Q l.
Proof.
  intros HPQ. induction l as [|x l IH]; [done|].
  destruct (decide (P x)) as [HP|HP].
  - rewrite !filter_cons_True by auto. by constructor.
  - rewrite (filter_cons_False P) by done.
    destruct (decide (Q x)).
    + rewrite filter_cons_True by done. by constructor.
    + by rewrite filter_cons_False by done.
Qed.

Lemma fmap_eq_lookup {B C D} (f : B → D) (g : C → D) (l : list B) (k : list C) :
  length l = length k →
  (∀ i a b, l !! i = Some a → k !! i = Some b → f a = g b) →
  f <$> l = g <$> k.
Proof.
  revert k. induction l as [|a l IH]; intros [|b k]; cbn; try done.
  intros [= Hlen] Hall. f_equal.
  - by apply (Hall 0).
  - apply IH; [done|]. intros i. apply (Hall (S i)).
Qed.

(** What [plot_swarmplot] returns, list by list. *)
Lemma plot_swarmplot_lists df fig :
  plot_swarmplot df = Some fig →
  Forall2 (λ r x, midpoint (row_get r "START") (row_get r "END") = Some x)
    (rows df) (strip_x fig)
  ∧ strip_y fig = (λ r, categorical chrom_order (row_get r "CHROM")) <$> rows df
  ∧ categoryarray fig = filter (chrom_in df) chrom_order.
Proof.
  unfold plot_swarmplot. case_decide as Hse; [|done].
  destruct (assign _ df "midpoint") as [df1|] eqn:E1; [|done].
  cbn [mbind option_bind]. case_decide as Hc; [|done].
  destruct (assign _ df1 "CHROM") as [df2|] eqn:E2; [|done].
  cbn [mbind option_bind]. intros [= <-]. cbn [categoryarray strip_x strip_y].
  apply assign_Some in E1 as [_ Hr1]. apply assign_Some in E2 as [_ Hr2].
  assert (Hin : ∀ c, chrom_in df1 c ↔ chrom_in df c).
  { intros c. rewrite !chrom_in_spec. split.
    - intros (r1 & [i Hi]%list_elem_of_lookup & Hc1).
      destruct (Forall2_lookup_r _ _ _ _ _ Hr1 Hi) as (r & Hir & v & _ & ->).
      rewrite row_get_set_ne in Hc1 by discriminate.
      exists r. split; [by eapply list_elem_of_lookup_2 | done].
    - intros (r & [i Hi]%list_elem_of_lookup & Hc0).
      destruct (Forall2_lookup_l _ _ _ _ _ Hr1 Hi) as (r1 & Hi1 & v & _ & ->).
      exists (od_set r "midpoint" v).
      split; [by eapply list_elem_of_lookup_2|].
      by rewrite row_get_set_ne by discriminate. }
  assert (Hlen : length (rows df2) = length (rows df)).
  { rewrite <- (Forall2_length _ _ _ Hr2). symmetry. by eapply Forall2_length. }
  assert (Hrow : ∀ i r r2, rows df !! i = Some r → rows df2 !! i = Some r2 →
            midpoint (row_get r "START") (row_get r "END")
              = Some (row_get r2 "midpoint")
            ∧ row_get r2 "CHROM" = categorical chrom_order (row_get r "CHROM")).
  { intros i r r2 Hi Hi2.
    destruct (Forall2_lookup_l _ _ _ _ _ Hr1 Hi) as (r1 & Hi1 & v1 & Hv1 & ->).
    destruct (Forall2_lookup_l _ _ _ _ _ Hr2 Hi1) as (r2' & Hi2' & v2 & Hv2 & ->).
    rewrite Hi2 in Hi2'. injection Hi2' as ->.
    rewrite row_get_set_ne in Hv2 by discriminate. injection Hv2 as <-.
    rewrite (row_get_set_ne _ "CHROM" _ "midpoint") by discriminate.
    rewrite !row_get_set_eq. split; [done|].
    destruct (row_get r "CHROM") as [s|n] eqn:Hs; [|done]. cbn.
    apply decide_ext. rewrite list_elem_of_filter, Hin, chrom_in_spec.
    split; [tauto|]. intros Hs'. split; [|done].
    exists r. split; [by eapply list_elem_of_lookup_2 | done]. }
  split; [|split].
  - apply Forall2_fmap_r, Forall2_same_length_lookup_2; [done|].
    intros i r r2 Hi Hi2. by apply (Hrow i r r2).
  - symmetry. apply fmap_eq_lookup; [done|].
    intros i r r2 Hi Hi2. symmetry. by apply (Hrow i r r2).
  - by apply list_filter_iff.
Qed.

Lemma plot_swarmplot_returns df (xs : list cell) :
  "START" ∈ columns df → "END" ∈ columns df → "CHROM" ∈ columns df →
  Forall2 (λ r x, midpoint (row_get r "START") (row_get r "END") = Some x)
    (rows df) xs →
  is_Some (plot_swarmplot df).
Proof.
  intros Hs He Hc Hxs. unfold plot_swarmplot. rewrite decide_True by done.
  destruct (assign_is_Some
              (λ r, midpoint (row_get r "START") (row_get r "END"))
              df "midpoint") as [df1 E1].
  { intros r [i Hi]%list_elem_of_lookup.
    destruct (Forall2_lookup_l _ _ _ _ _ Hxs Hi) as (x & _ & Hx). by eexists. }
  rewrite E1. cbn [mbind option_bind].
  apply assign_Some in E1 as [Hcols1 _].
  rewrite decide_True by auto.
  destruct (assign_is_Some
              (λ r, Some (categorical (filter (chrom_in df1) chrom_order)
                            (row_get r "CHROM")))
              df1 "CHROM") as [df2 E2]; [by eexists|].
  rewrite E2. by eexists.
Qed.

Lemma plot_swarmplot_columns df fig :
  plot_swarmplot df = Some fig →
  "START" ∈ columns df ∧ "END" ∈ columns df ∧ "CHROM" ∈ columns df.
Proof.
  unfold plot_swarmplot. case_decide as Hse; [|done].
  destruct (assign _ df "midpoint") as [df1|] eqn:E1; [|done].
  cbn [mbind option_bind]. case_decide as Hc; [|done]. intros _.
  split; [tauto|]. split; [tauto|].
  unfold assign in E1. destruct (mapM _ (rows df)); [|done].
  injection E1 as <-. cbn in Hc. case_decide; [done|].
  apply elem_of_app in Hc as [Hc|Hc%list_elem_of_singleton]; done.
Qed.

(** X12. Filtering never breaks the plot: when the strip plot of the full
    table is built, so is the plot of every table that [filter_dataframe]
    returns for it, and the points of that plot, its labels and the
    chromosomes on its axis are sub-lists of those of the full plot, one point
    per row that was kept. *)
Theorem filtered_plot
    (df out : DataFrame) (filters : Filters) (fig : Figure) :
  view df = Some fig →
  filter_dataframe df filters = Some out →
  ∃ fig',
    view out = Some fig'
    ∧ length (strip_x fig') = length (rows out)
    ∧ strip_x fig' `sublist_of` strip_x fig
    ∧ strip_y fig' `sublist_of` strip_y fig
    ∧ categoryarray fig' `sublist_of` categoryarray fig.
Proof.
  unfold view. intros Hfig [Hcols Hsub]%filter_dataframe_sublist.
  destruct (plot_swarmplot_columns df fig Hfig) as (Hs & He & Hc).
  destruct (plot_swarmplot_lists df fig Hfig) as (Hx & Hy & Hcat).
  destruct (Forall2_sublist_l _ _ _ _ Hx Hsub) as (xs & Hxs & Hsubx).
  destruct (plot_swarmplot_returns out xs) as [fig' Hfig'];
    [by rewrite Hcols..|done|].
  exists fig'. split; [done|].
  destruct (plot_swarmplot_lists out fig' Hfig') as (Hx' & Hy' & Hcat').
  assert (Hsame : strip_x fig' = xs).
  { clear -Hx' Hxs. revert Hx'. generalize (strip_x fig').
    induction Hxs as [|r x rs xs Hr _ IH]; intros k Hk.
    - by apply Forall2_nil_inv_l in Hk.
    - apply Forall2_cons_inv_l in Hk as (y & k0 & Hy & Hk0 & ->).
      f_equal; [congruence|by apply IH]. }
  split; [symmetry; by eapply Forall2_length|].
  split; [by rewrite Hsame|].
  split; [rewrite Hy, Hy'; by apply fmap_sublist|].
  rewrite Hcat, Hcat'. apply filter_sublist_impl.
  intros c. rewrite !chrom_in_spec. intros (r & Hr & Hrc).
  exists r. split; [by eapply elem_of_sublist|done].
Qed.

Lemma filtered_plot_witness :
  ∃ fig fig' out,
    view sample_loci = Some fig
    ∧ filter_dataframe sample_loci (pick_chrom true ["chrX"; "chrM"]) = Some out
    ∧ view out = Some fig'
    ∧ categoryarray fig = ["chr2"; "chrX"]
    ∧ categoryarray fig' = ["chrX"]
    ∧ strip_y fig' = [CStr "chrX"; nan].
Proof.
  destruct (view sample_loci) as [fig|] eqn:Hfig; [|by vm_compute in Hfig].
  destruct (filter_dataframe sample_loci (pick_chrom true ["chrX"; "chrM"]))
    as [out|] eqn:Hout; [|by vm_compute in Hout].
  destruct (filtered_plot sample_loci out _ fig Hfig Hout) as (fig' & Hfig' & _).
  exists fig, fig', out. split; [done|]. split; [done|]. split; [done|].
  vm_compute in Hfig. injection Hfig as <-.
  vm_compute in Hout. injection Hout as <-.
  vm_compute in Hfig'. injection Hfig' as <-.
  repeat split.
Defined.

End StoredTable.

(** ** app_previous.py: the chromosome chart *)

Section ChartBars.
Import Pandas AppPrevious NaturalSort ChromosomeChart.
Variable str_num : num → string.
Variable value_counts : list cell → list (cell * Z).
Implicit Types (df : DataFrame) (series : list (cell * Z)).

Local Abbreviation create_chromosome_chart :=
  (create_chromosome_chart str_num value_counts).

Lemma series_get_own series (c : cell) (n : Z) :
  distinct_labels series → (c, n) ∈ series → series_get series c = Some n.
Proof.
  induction series as [|[l m] series IH]; cbn [distinct_labels series_get].
  - intros _ []%elem_of_nil.
  - intros (Hl & Hothers & Hrest) [[= -> ->]|Hin]%elem_of_cons.
    + by rewrite Hl.
    + rewrite Forall_forall in Hothers.
      pose proof (Hothers _ Hin) as Hne. cbn in Hne.
      rewrite Hne. by apply IH.
Qed.

Lemma series_labelled series :
  distinct_labels series →
  series = (λ c, (c, default 0%Z (series_get series c))) <$> series.*1.
Proof.
  intros Hd. rewrite <- list_fmap_compose.
  rewrite <- (list_fmap_id series) at 1.
  apply Forall_fmap_ext_1, Forall_forall. intros [c n] Hin. cbn.
  by rewrite (series_get_own _ _ _ Hd Hin).
Qed.

Lemma zip_fmap_diag {B C} (g : B → C) (l : list B) :
  zip l (g <$> l) = (λ c, (c, g c)) <$> l.
Proof. induction l as [|b l IH]; cbn; [done|]. by rewrite IH. Qed.


End ChartBars.


(** ** app.py: the order of the nodes *)

Section NodeOrder.
Import App AppChart.
Implicit Types (df : DataFrame) (r : Row).

Lemma nodes_add_row G r :
  nodes (add_row G r)
  = foldl (λ acc x, if decide (x ∈ acc) then acc else acc ++ [x])
      (nodes G) [KRAB_ZNF r; Gene r].
Proof.
  unfold nodes at 1. rewrite g_node_add_row.
  fold (nodes (add_node (add_node G (KRAB_ZNF r) "gene" None)
                 (Gene r) "te" (Some (exp r)))).
  by rewrite !nodes_add_node.
Qed.

(** X14. The nodes of the graph, and so the markers and labels of the
    chart, come in the order in which the table first mentions them, reading
    each record as its gene followed by its TE. *)
Theorem nodes_in_order_of_mention (df : DataFrame) :
  nodes (build_graph df) = first_occurrences (mentions df)
  ∧ ∀ pos fig, render (build_graph df) pos = Some fig →
      node_labels fig = first_occurrences (mentions df).
Proof.
  assert (Hnodes : nodes (build_graph df) = first_occurrences (mentions df)).
  { unfold first_occurrences, mentions.
    induction df as [|r df IH] using rev_ind; [done|].
    rewrite build_graph_snoc, nodes_add_row, IH, bind_app, foldl_app.
    cbn [mbind list_bind]. by rewrite app_nil_r. }
  split; [done|]. intros pos fig. unfold render.
  destruct (edge_trace (build_graph df) pos) as [et|]; [|done].
  cbn [mbind option_bind].
  destruct (node_points (build_graph df) pos) as [pts|] eqn:Hpts; [|done].
  cbn [mbind option_bind]. intros [= <-].
  unfold node_labels. cbn [fig_data]. rewrite last_snoc. cbn.
  rewrite <- Hnodes. apply mapM_Some in Hpts. clear Hnodes.
  induction Hpts as [|n p ns ps Hp _ IH]; [done|].
  cbn. by rewrite (node_point_label _ _ _ _ Hp), IH.
Qed.

Example nodes_in_order_example :
  nodes (build_graph [row_up; row_swap; row_down])
  = ["TF1"; "L1PA2"; "HERVK"; "AluSx"].
Proof. reflexivity. Qed.

End NodeOrder.

(** ** app_previous.py: the tables that the loader rejects *)

Section RejectedTable.
Import Pandas AppPrevious.
Variable parse_number : string → option num.
Implicit Types (df : DataFrame) (r : odict cell) (c : string).

Lemma clean_int_infinite (v : cell) :
  clean_int parse_number v = None ↔ is_infinite (to_numeric parse_number v).
Proof.
  unfold clean_int.
  destruct (to_numeric parse_number v) as [z|[s|s| |s m e]]; cbn; try done.
Qed.

(** When the loader returns, the conversion to integers worked on every
    row of the input, also on the rows that are dropped afterwards. *)
Lemma load_csv_data_converts df out r c :
  load_csv_data_try parse_number df = Some out →
  r ∈ rows df → c ∈ int_columns →
  is_Some (clean_int parse_number (synthesized df r c)).
Proof.
  unfold load_csv_data_try.
  destruct (ensure_columns_spec parse_number df) as [_ Hrows0].
  destruct (map_column _ (ensure_columns df) "start") as [df1|] eqn:E1;
    [cbn [mbind option_bind]|done].
  destruct (map_column _ df1 "end") as [df2|] eqn:E2;
    [cbn [mbind option_bind]|done].
  destruct (map_column _ df2 "pvalue") as [df3|] eqn:E3;
    [cbn [mbind option_bind]|done].
  destruct (map_column _ df3 "length") as [df4|] eqn:E4;
    [cbn [mbind option_bind]|done].
  intros _ [i Hi]%list_elem_of_lookup Hc.
  apply map_column_Some in E1 as (_ & _ & Hr1).
  apply map_column_Some in E2 as (_ & _ & Hr2).
  apply map_column_Some in E3 as (_ & _ & Hr3).
  apply map_column_Some in E4 as (_ & _ & Hr4).
  destruct (Forall2_lookup_l _ _ _ _ _ Hrows0 Hi) as (r0 & Hi0 & Hsyn).
  destruct (Forall2_lookup_l _ _ _ _ _ Hr1 Hi0) as (r1 & Hi1 & v1 & Hv1 & ->).
  destruct (Forall2_lookup_l _ _ _ _ _ Hr2 Hi1) as (r2 & Hi2 & v2 & Hv2 & ->).
  destruct (Forall2_lookup_l _ _ _ _ _ Hr3 Hi2) as (r3 & Hi3 & v3 & Hv3 & ->).
  destruct (Forall2_lookup_l _ _ _ _ _ Hr4 Hi3) as (r4 & Hi4 & v4 & Hv4 & ->).
  rewrite !row_get_set_ne in Hv4 by discriminate.
  rewrite !row_get_set_ne in Hv2 by discriminate.
  rewrite Hsyn in Hv1, Hv2, Hv4.
  unfold int_columns in Hc. rewrite !elem_of_cons, elem_of_nil in Hc.
  destruct Hc as [->|[->|[->|[]]]]; by eexists.
Qed.


End RejectedTable.

Example load_csv_rejects_example :
  let inf := Pandas.CNum (Pandas.NFloat (S754_infinity false)) in
  let table :=
    {| Pandas.columns := ["chr"; "start"; "end"];
       Pandas.rows :=
         [[("chr", Pandas.CStr "chr1"); ("start", Pandas.CStr "100");
           ("end", Pandas.CStr "121")];
          [("chr", Pandas.CStr ""); ("start", Pandas.CStr "5"); ("end", inf)]]
    |} in
  AppPrevious.load_csv_data AppPrevious.parse_int table = Pandas.empty_frame.
Proof. reflexivity. Qed.

(** ** app.py: the graph of a filtered table inside the graph of the table *)

Section FilteredGraph.
Import App AppChart.
Implicit Types (df : DataFrame) (r : Row) (u v : string) (w : float).

Lemma edge_weight_of_link df r u v :
  r ∈ df → links r u v → is_Some (edge_weight (build_graph df) u v).
Proof.
  induction df as [|r0 df IH] using rev_ind.
  - intros Hr. by apply elem_of_nil in Hr.
  - rewrite build_graph_snoc, edge_weight_add_row by apply wf_build_graph.
    intros [Hr| ->%list_elem_of_singleton]%elem_of_app Hl.
    + case_decide; [by eexists | auto].
    + rewrite decide_True by done. by eexists.
Qed.

(** X16. The graph of the filtered table lies inside the graph of the whole
    table: its nodes are nodes of that graph and its edges join nodes that
    are joined there too.  The weight, and with it the colour, of an edge is
    the same in both graphs when only one record of the table connects the
    two nodes; with several such records the filter can change the weight
    instead. *)
Theorem filtered_graph_inside (df : DataFrame) (sign category : string) :
  let G := build_graph df in
  let Gf := build_graph (apply_filters sign category df) in
  (∀ n, n ∈ nodes Gf → n ∈ nodes G)
  ∧ (∀ u v w, (u, v, w) ∈ edges Gf →
       ∃ w0, edge_weight G u v = Some w0
             ∧ ((∀ r r', r ∈ df → r' ∈ df →
                   links r u v → links r' u v → r = r') →
                w0 = w)).
Proof.
  intros G Gf. set (fdf := apply_filters sign category df) in *.
  assert (Hsub : ∀ r, r ∈ fdf → r ∈ df).
  { intros r. unfold fdf. rewrite apply_filters_spec, list_elem_of_filter.
    tauto. }
  split.
  - intros n. unfold Gf, G. rewrite !elem_of_nodes_build_graph.
    unfold genes, tes. rewrite !list_elem_of_fmap.
    intros [(r & -> & Hr)|(r & -> & Hr)]; [left|right]; exists r; auto.
  - intros u v w Hin. apply edges_sound in Hin; [|apply wf_build_graph].
    apply edge_weight_build_inv in Hin as (f1 & r & f2 & Hf & Hl & _ & ->).
    assert (Hr : r ∈ df).
    { apply Hsub. rewrite Hf, elem_of_app, elem_of_cons. auto. }
    destruct (edge_weight_of_link df r u v Hr Hl) as [w0 Hw0].
    exists w0. split; [done|]. intros Huniq.
    apply edge_weight_build_inv in Hw0 as (d1 & r' & d2 & Hd & Hl' & _ & ->).
    f_equal. apply Huniq; try done.
    rewrite Hd, elem_of_app, elem_of_cons. auto.
Qed.

Example filtered_graph_weight_example :
  let df := [row_up; row_down; {| KRAB_ZNF := "TF1"; Gene := "L1PA2";
                                  coef := f_m0_3; exp := "up-regulated" |}] in
  edge_weight (build_graph df) "TF1" "L1PA2" = Some f_m0_3
  ∧ edge_weight (build_graph (apply_filters "positive" "both" df))
      "TF1" "L1PA2" = Some f_0_8.
Proof. split; reflexivity. Qed.

End FilteredGraph.
